(** * Hop-chained shutdown orchestrator: a shallow embedding of [shutdown-bot.py]

    The development follows the source file top-down: the exception classes
    the script dispatches on, the Diagnosis dictionary, the failure
    classifier, the diagnostic engine, the reachability prober and its
    polling loop, the remote command executor, credential resolution, and
    finally [main], the orchestrator.  External collaborators (paramiko, the
    clock, the environment, the file system, the terminal) are a scripted
    [world]; everything the script does to them is recorded in a trace. *)

From Stdlib Require Import List String Ascii ZArith Bool Arith Lia DecimalString.
Import ListNotations.
Local Open Scope string_scope.
Local Open Scope list_scope.

(** ** Exceptions

    The script catches [Exception] and dispatches with [isinstance] on four
    paramiko classes.  The classes below are the ones the external calls of
    the script raise; [parent] is the class hierarchy of paramiko and of the
    Python built-ins. *)

Inductive exc_class :=
| ExceptionC
| OSErrorC                      (* socket.error, socket.timeout, FileNotFoundError *)
| EOFErrorC
| RuntimeErrorC
| SSHExceptionC
| AuthenticationExceptionC
| BadAuthenticationTypeC
| PasswordRequiredExceptionC
| BadHostKeyExceptionC
| ChannelExceptionC
| ProxyCommandFailureC.

Definition parent (c : exc_class) : option exc_class :=
  match c with
  | ExceptionC => None
  | OSErrorC | EOFErrorC | RuntimeErrorC | SSHExceptionC => Some ExceptionC
  | AuthenticationExceptionC | BadHostKeyExceptionC
  | ChannelExceptionC | ProxyCommandFailureC => Some SSHExceptionC
  | BadAuthenticationTypeC | PasswordRequiredExceptionC => Some AuthenticationExceptionC
  end.

Definition exc_class_eqb (c d : exc_class) : bool :=
  match c, d with
  | ExceptionC, ExceptionC | OSErrorC, OSErrorC | EOFErrorC, EOFErrorC
  | RuntimeErrorC, RuntimeErrorC | SSHExceptionC, SSHExceptionC
  | AuthenticationExceptionC, AuthenticationExceptionC
  | BadAuthenticationTypeC, BadAuthenticationTypeC
  | PasswordRequiredExceptionC, PasswordRequiredExceptionC
  | BadHostKeyExceptionC, BadHostKeyExceptionC
  | ChannelExceptionC, ChannelExceptionC
  | ProxyCommandFailureC, ProxyCommandFailureC => true
  | _, _ => false
  end.

(** [issubclass c d], by walking up the hierarchy (its depth is 3). *)
Fixpoint issubclass_fuel (n : nat) (c d : exc_class) : bool :=
  exc_class_eqb c d ||
  match n with
  | O => false
  | S n' => match parent c with
            | Some p => issubclass_fuel n' p d
            | None => false
            end
  end.

Definition issubclass : exc_class -> exc_class -> bool := issubclass_fuel 3.

(** An exception value: its class and [str(exc)]. *)
Record exn := mkExn { exc_cls : exc_class; exc_str : string }.

Definition isinstance (e : exn) (c : exc_class) : bool := issubclass (exc_cls e) c.

(** ** The Diagnosis dictionary

    [diagnose_on_remote] builds a dict with exactly these five keys;
    [None] in an [option bool] field is Python's [None]. *)

Record Diagnosis := mkDiag {
  dns_ok : option bool;
  dns_ips : list string;
  tcp_ok : option bool;
  tcp_method : option string;
  notes : list string
}.

(** [x is False] *)
Definition is_False (x : option bool) : bool :=
  match x with Some false => true | _ => false end.

(** ** classify_failure (lines 264-279)

    [diag] is [Optional[Dict]]; the dicts that reach the classifier have the
    five keys above, so [if diag:] holds exactly when it is not [None]. *)

Definition classify_failure (exc : exn) (diag : option Diagnosis) : string * string :=
  if isinstance exc AuthenticationExceptionC then
    ("認証失敗", "ユーザー名/パスワード（または鍵）を確認してください")
  else if isinstance exc BadHostKeyExceptionC then
    ("ホスト鍵不一致", "known_hostsの該当エントリ削除や鍵の更新を検討してください")
  else if isinstance exc ChannelExceptionC then
    match diag with
    | Some d =>
        if is_False (dns_ok d) then
          ("名前解決失敗", "DNSや /etc/hosts の設定を見直してください（workstation側）")
        else if is_False (tcp_ok d) then
          ("TCP到達不可", "FW/ルーティング/ポート閉塞の可能性（workstation→対象:22）")
        else ("チャネル接続失敗", "対象ホストがダウン/到達不能の可能性")
    | None => ("チャネル接続失敗", "対象ホストがダウン/到達不能の可能性")
    end
  else if isinstance exc SSHExceptionC then
    ("SSH例外", "ネットワークやSSH設定を確認してください")
  else ("不明エラー", exc_str exc).

(** *** The classification table of the specification

    The table is over a closed enumeration of error kinds; each exception
    class belongs to one kind. *)

Inductive error_kind :=
| AuthenticationRejected | HostKeyMismatch | ChannelFailure | OtherProtocolError | AnythingElse.

Definition kind_of_class (c : exc_class) : error_kind :=
  match c with
  | AuthenticationExceptionC | BadAuthenticationTypeC | PasswordRequiredExceptionC =>
      AuthenticationRejected
  | BadHostKeyExceptionC => HostKeyMismatch
  | ChannelExceptionC => ChannelFailure
  | SSHExceptionC | ProxyCommandFailureC => OtherProtocolError
  | ExceptionC | OSErrorC | EOFErrorC | RuntimeErrorC => AnythingElse
  end.

Inductive Reason :=
| RAuthenticationFailure | RHostKeyMismatch | RNameResolutionFailure
| RTcpUnreachable | RChannelFailure | RProtocolError | RUnknownError.

(** The rows of the table, read top to bottom (first matching row). *)
Definition Classify (k : error_kind) (diag : option Diagnosis) : Reason :=
  match k with
  | AuthenticationRejected => RAuthenticationFailure
  | HostKeyMismatch => RHostKeyMismatch
  | ChannelFailure =>
      match diag with
      | Some d =>
          if is_False (dns_ok d) then RNameResolutionFailure
          else if is_False (tcp_ok d) then RTcpUnreachable
          else RChannelFailure
      | None => RChannelFailure
      end
  | OtherProtocolError => RProtocolError
  | AnythingElse => RUnknownError
  end.

(** The (reason, hint) texts the script prints for each row; the last row
    carries the raw error text. *)
Definition reason_text (r : Reason) : string :=
  match r with
  | RAuthenticationFailure => "認証失敗"
  | RHostKeyMismatch => "ホスト鍵不一致"
  | RNameResolutionFailure => "名前解決失敗"
  | RTcpUnreachable => "TCP到達不可"
  | RChannelFailure => "チャネル接続失敗"
  | RProtocolError => "SSH例外"
  | RUnknownError => "不明エラー"
  end.

Definition hint_text (r : Reason) (raw : string) : string :=
  match r with
  | RAuthenticationFailure => "ユーザー名/パスワード（または鍵）を確認してください"
  | RHostKeyMismatch => "known_hostsの該当エントリ削除や鍵の更新を検討してください"
  | RNameResolutionFailure => "DNSや /etc/hosts の設定を見直してください（workstation側）"
  | RTcpUnreachable => "FW/ルーティング/ポート閉塞の可能性（workstation→対象:22）"
  | RChannelFailure => "対象ホストがダウン/到達不能の可能性"
  | RProtocolError => "ネットワークやSSH設定を確認してください"
  | RUnknownError => raw
  end.

(** ** Text helpers (Python [str] methods used by the script)

    A Python [str] is a sequence of code points.  It is represented by its
    UTF-8 encoding: concatenation, comparison, prefixes and the search for
    an ASCII character or substring are then those of the byte strings.
    [strip], [split], [splitlines] and [isdigit] classify code points, as
    Python does; they cut the string into its characters first. *)

Definition nonempty_str (s : string) : bool :=
  match s with EmptyString => false | _ => true end.

Fixpoint rev_string_aux (s acc : string) : string :=
  match s with
  | EmptyString => acc
  | String c s' => rev_string_aux s' (String c acc)
  end.

Definition rev_string (s : string) : string := rev_string_aux s EmptyString.

(** The number of bytes of the character that the byte [c] begins. *)
Definition utf8_width (c : ascii) : nat :=
  let n := N_of_ascii c in
  if (n <? 192)%N then 1 else if (n <? 224)%N then 2 else if (n <? 240)%N then 3 else 4.

(** The characters of [s], each one as its bytes.  [cur] is the character
    being read, reversed; [k] of its bytes are still to come. *)
Fixpoint chars_aux (s cur : string) (k : nat) : list string :=
  match s with
  | EmptyString => if nonempty_str cur then [rev_string cur] else []
  | String c s' =>
      match k with
      | S k' => chars_aux s' (String c cur) k'
      | O =>
          let rest := chars_aux s' (String c EmptyString) (utf8_width c - 1) in
          if nonempty_str cur then rev_string cur :: rest else rest
      end
  end.

Definition chars (s : string) : list string := chars_aux s EmptyString 0.

(** [''.join(l)] *)
Definition join (l : list string) : string := String.concat EmptyString l.

(** [ord(ch)] for a character given by its bytes. *)
Definition ord (ch : string) : N :=
  match map N_of_ascii (list_ascii_of_string ch) with
  | [a] => a
  | [a; b] => (a mod 32) * 64 + b mod 64
  | [a; b; c] => (a mod 16) * 4096 + (b mod 64) * 64 + c mod 64
  | [a; b; c; d] => (a mod 8) * 262144 + (b mod 64) * 4096 + (c mod 64) * 64 + d mod 64
  | _ => 0
  end%N.

Definition between (lo n hi : N) : bool := ((lo <=? n) && (n <=? hi))%N.

(** [ch.isspace()]: the white space of the Unicode database (CPython's
    [_PyUnicode_IsWhitespace]). *)
Definition isspace (ch : string) : bool :=
  let n := ord ch in
  between 9 n 13 || between 28 n 32 || (n =? 133)%N || (n =? 160)%N || (n =? 5760)%N
  || between 8192 n 8202 || (n =? 8232)%N || (n =? 8233)%N || (n =? 8239)%N
  || (n =? 8287)%N || (n =? 12288)%N.

(** The line boundaries of [str.splitlines]. *)
Definition is_linebreak (ch : string) : bool :=
  let n := ord ch in
  between 10 n 13 || between 28 n 30 || (n =? 133)%N || (n =? 8232)%N || (n =? 8233)%N.

Fixpoint lstrip_chars (l : list string) : list string :=
  match l with
  | [] => []
  | ch :: l' => if isspace ch then lstrip_chars l' else l
  end.

(** [s.strip()] *)
Definition strip (s : string) : string :=
  join (rev (lstrip_chars (rev (lstrip_chars (chars s))))).

(** [s.split()]: the maximal runs of characters that are not white space.
    [cur] is the run being read, reversed. *)
Fixpoint split_ws_aux (l cur : list string) : list string :=
  match l with
  | [] => match cur with [] => [] | _ :: _ => [join (rev cur)] end
  | ch :: l' =>
      if isspace ch
      then match cur with
           | [] => split_ws_aux l' []
           | _ :: _ => join (rev cur) :: split_ws_aux l' []
           end
      else split_ws_aux l' (ch :: cur)
  end.

Definition split_ws (s : string) : list string := split_ws_aux (chars s) [].

(** [s.splitlines()]: a carriage return followed by a line feed is one
    boundary; a final line without a boundary is kept when it is not empty. *)
Fixpoint splitlines_aux (l cur : list string) : list string :=
  match l with
  | [] => match cur with [] => [] | _ :: _ => [join (rev cur)] end
  | ch :: l' =>
      if is_linebreak ch then
        match l' with
        | ch' :: l'' =>
            if (ord ch =? 13)%N && (ord ch' =? 10)%N
            then join (rev cur) :: splitlines_aux l'' []
            else join (rev cur) :: splitlines_aux l' []
        | [] => [join (rev cur)]
        end
      else splitlines_aux l' (ch :: cur)
  end.

Definition splitlines (s : string) : list string := splitlines_aux (chars s) [].

(** [s.replace(c, '')] for a single ASCII character [c]. *)
Fixpoint remove_char (c : ascii) (s : string) : string :=
  match s with
  | EmptyString => EmptyString
  | String a s' => if Ascii.eqb a c then remove_char c s' else String a (remove_char c s')
  end.

(** [s.isdigit()]: [s] is not empty and all its characters are digits.
    Which code points are digits (Numeric_Type Digit or Decimal) is a table
    of the interpreter's Unicode database, [isd]. *)
Definition isdigit (isd : N -> bool) (s : string) : bool :=
  nonempty_str s && forallb (fun ch => isd (ord ch)) (chars s).

(** [c in s] for a character *)
Fixpoint char_in (c : ascii) (s : string) : bool :=
  match s with
  | EmptyString => false
  | String a s' => Ascii.eqb a c || char_in c s'
  end.

(** [p in s] for a string *)
Fixpoint str_in (p s : string) : bool :=
  String.prefix p s ||
  match s with
  | EmptyString => false
  | String _ s' => str_in p s'
  end.

(** [list(dict.fromkeys(xs))]: first occurrences, in order. *)
Fixpoint dedupe_aux (seen xs : list string) : list string :=
  match xs with
  | [] => []
  | x :: xs' =>
      if existsb (String.eqb x) seen then dedupe_aux seen xs'
      else x :: dedupe_aux (x :: seen) xs'
  end.

Definition dedupe (xs : list string) : list string := dedupe_aux [] xs.

(** [value.split(":", 1)[1]] for a value that contains a colon. *)
Fixpoint after_first_colon (s : string) : string :=
  match s with
  | EmptyString => EmptyString
  | String c s' => if Ascii.eqb c ":"%char then s' else after_first_colon s'
  end.

(** String concatenation, as in f-strings. *)
Infix "+++" := String.append (right associativity, at level 60).

(** Decimal rendering of an integer inside an f-string. *)
Definition str_of_int (z : Z) : string := NilZero.string_of_int (Z.to_int z).

(** ** Data model (lines 78-109) *)

Record Gateway := mkGateway {
  gw_host : string;
  gw_user : string;
  pkey_path : string;
  gw_port : Z;
  gw_needs_sudo_password : bool;
  sudo_user : option string
}.

(** [nodes] is what [it.get("nodes", [])] gives (line 376): the list of the
    configuration, or [None] where the file says [nodes:] with no value. *)
Record Fleet := mkFleet {
  name : string;
  user : string;
  password : option string;   (* None: prompt; "env:FOO"; "file:PATH"; literal *)
  nodes : option (list string);
  port : Z;
  needs_sudo_password : bool
}.

(** The nodes a fleet lists. *)
Definition node_list (f : Fleet) : list string :=
  match nodes f with Some l => l | None => [] end.

(** The module-level settings [load_config] has filled in before [main]
    uses them, and the command-line flags that reach the orchestration. *)
Record Settings := mkSettings {
  POWER_OFF_CMD : string;
  DEFAULT_NODE_SHUTDOWN_TIMEOUT : Z;
  DEFAULT_POLL_INTERVAL : Z;
  NC_TIMEOUT : Z
}.

Record Args := mkArgs {
  dry_run : bool;
  node_timeout_arg : option Z;
  poll_interval_arg : option Z;
  non_strict : bool
}.

(** A hop of the chain: the gateway, the [i]-th fleet host of the
    configuration, or the [j]-th node of the [i]-th fleet.  Sessions and
    channels carry the hop they lead to; the script identifies them by the
    Python object. *)
Inductive hop := Gw | Ws (i : nat) | Nd (i j : nat).

Definition hop_eqb (a b : hop) : bool :=
  match a, b with
  | Gw, Gw => true
  | Ws i, Ws i' => Nat.eqb i i'
  | Nd i j, Nd i' j' => Nat.eqb i i' && Nat.eqb j j'
  | _, _ => false
  end.

(** [class SSH]: a client and its transport, both of one hop. *)
Record SSH := mkSSH { ssh_hop : hop }.

(** A direct-tcpip channel opened through the session of [ch_via]. *)
Record Channel := mkChannel { ch_via : hop; ch_dest : hop }.

(** An entry of the [issues] list. *)
Record Issue := mkIssue {
  stage : string;
  via : string;
  target : string;
  reason : string;
  hint : string;
  diag : option Diagnosis;
  error : string
}.

(** What the script reports on the console that the properties below refer
    to (banners and progress lines are left out). *)
Inductive message :=
| MsgGatewayFatal (reason hint detail : string)           (* line 438 *)
| MsgFleetConnectFailed (fleet reason : string)           (* line 488 *)
| MsgPrecheckWarning (node reason : string)               (* line 507 *)
| MsgNodeConnectFailed (node reason hint detail : string) (* line 515 *)
| MsgCommand (tag cmd : string)                           (* line 312 *)
| MsgDryRun (tag : string)                                (* line 314 *)
| MsgExitStatusWarning (tag : string) (code : Z)          (* line 318 *)
| MsgWaiting (host : string) (timeout_sec : Z)            (* line 195 *)
| MsgHostDown (host : string)                             (* line 200 *)
| MsgWaitTimeout (host : string)                          (* line 206 *)
| MsgProtectNode (node fleet : string)                    (* line 534 *)
| MsgProtectFleet (fleet : string)                        (* line 542 *)
| MsgDiagnostics (issues : list Issue)                    (* lines 568-591 *)
| MsgDone.                                                (* line 592 *)

(** The two key classes [load_pkey] tries. *)
Inductive key_kind := Ed25519Key | RSAKey.

(** ** Effects

    Every call the script makes to the outside is an event.  An event names
    the hop whose session carries it. *)
Inductive event :=
| EvPrompt (label : string)                                   (* getpass.getpass *)
| EvEnvGet (key : string)                                     (* os.environ.get *)
| EvFileRead (path : string)                                  (* open(path).read() *)
| EvReadKey (kind : key_kind) (path : string) (password : option string)
    (r : option exn)                                          (* from_private_key_file *)
| EvOpenChannel (ch : Channel) (host : string) (port : Z)
    (r : option exn)                                          (* open_direct_tcpip_channel *)
| EvConnect (h : hop) (host user : string) (port : Z) (pkey password : option string)
    (r : option exn)                                          (* connect_host *)
| EvRun (h : hop) (cmd : string) (r : option exn)             (* _run *)
| EvShutdownHost (h : hop) (tag : string) (dry : bool)        (* shutdown_host entered *)
| EvExec (h : hop) (cmd : string) (stdin : option string)
    (r : option exn)                                          (* run_remote_command *)
| EvProbe (ch : Channel) (reachable : bool)                   (* is_ssh_reachable_via_transport *)
| EvWaited (h : hop) (ok : bool)                              (* wait_for_host_down_via_transport returns *)
| EvSleep (ms : Z)                                            (* time.sleep *)
| EvClose (h : hop)                                           (* SSH.close *)
| EvIssue (h : hop) (iss : Issue)                             (* issues.append *)
| EvPrint (m : message).

Definition trace := list event.

(** The scripted outside world.  The k-th call of each external operation
    has a fixed outcome: [None] or [inr] when it returns, an exception when
    it raises.  A probe also takes time (milliseconds).  Reading a key file
    depends on the key class, the path and the passphrase given.  Texts that
    come from outside (command output, file contents) are decoded already;
    [w_isdigit] is the digit table of the interpreter's Unicode database. *)
Record world := mkWorld {
  w_key : key_kind -> string -> option string -> option exn;
  w_open : nat -> option exn;
  w_connect : nat -> option exn;
  w_run : nat -> exn + (Z * string * string);
  w_exec : nat -> exn + (Z * string * string);
  w_probe : nat -> option exn * N;
  w_environ : string -> option string;
  w_file : string -> exn + string;
  w_getpass : string -> string;
  w_isdigit : N -> bool
}.

(** The mutable state a run threads: the clock (milliseconds), how many
    calls of each kind were made, and the [issues] list of [main]. *)
Record state := mkState {
  now : Z;
  n_open : nat;
  n_connect : nat;
  n_run : nat;
  n_exec : nat;
  n_probe : nat;
  issues : list Issue
}.

Definition initial_state : state := mkState 0 0 0 0 0 0 [].

(** ** The monad: state, a trace of events, Python exceptions *)

Inductive res (A : Type) :=
| Ret (a : A)
| Raise (e : exn).
Arguments Ret {A} a.
Arguments Raise {A} e.

Definition M (A : Type) : Type := state -> res A * state * trace.

Definition ret {A} (a : A) : M A := fun s => (Ret a, s, []).

Definition raise {A} (e : exn) : M A := fun s => (Raise e, s, []).

Definition bind {A B} (m : M A) (f : A -> M B) : M B :=
  fun s =>
    match m s with
    | (Ret a, s1, t1) =>
        match f a s1 with
        | (r, s2, t2) => (r, s2, t1 ++ t2)
        end
    | (Raise e, s1, t1) => (Raise e, s1, t1)
    end.

Declare Scope py_scope.
Delimit Scope py_scope with py.
Notation "x <- m ;; k" := (bind m (fun x => k))
  (at level 100, m at next level, right associativity) : py_scope.
Notation "m ;; k" := (bind m (fun _ => k))
  (at level 100, right associativity) : py_scope.
Local Open Scope py_scope.

(** [try: body / except Exception as e: handler e]; every exception of the
    model is an [Exception]. *)
Definition try_except {A} (body : M A) (handler : exn -> M A) : M A :=
  fun s =>
    match body s with
    | (Ret a, s1, t1) => (Ret a, s1, t1)
    | (Raise e, s1, t1) =>
        match handler e s1 with
        | (r, s2, t2) => (r, s2, t1 ++ t2)
        end
    end.

(** [try: body / finally: fin].  The final block always runs; when it
    raises, its exception replaces the pending one; otherwise a pending
    exception is raised again after it. *)
Definition try_finally {A B} (body : M A) (fin : M B) : M (A * B) :=
  fun s =>
    match body s with
    | (r1, s1, t1) =>
        match fin s1 with
        | (Ret b, s2, t2) =>
            match r1 with
            | Ret a => (Ret (a, b), s2, t1 ++ t2)
            | Raise e => (Raise e, s2, t1 ++ t2)
            end
        | (Raise e2, s2, t2) => (Raise e2, s2, t1 ++ t2)
        end
    end.

Definition emit (e : event) : M unit := fun s => (Ret tt, s, [e]).

Definition print (m : message) : M unit := emit (EvPrint m).

(** [time.time()] and [time.sleep] *)
Definition time_time : M Z := fun s => (Ret (now s), s, []).

Definition time_sleep (ms : Z) : M unit :=
  fun s => (Ret tt,
            mkState (now s + ms) (n_open s) (n_connect s) (n_run s) (n_exec s) (n_probe s) (issues s),
            [EvSleep ms]).

(** [issues.append(issue)] *)
Definition issues_append (h : hop) (iss : Issue) : M unit :=
  fun s => (Ret tt,
            mkState (now s) (n_open s) (n_connect s) (n_run s) (n_exec s) (n_probe s) (issues s ++ [iss]),
            [EvIssue h iss]).

Definition get_issues : M (list Issue) := fun s => (Ret (issues s), s, []).

Definition issues_init : M unit :=
  fun s => (Ret tt,
            mkState (now s) (n_open s) (n_connect s) (n_run s) (n_exec s) (n_probe s) [],
            []).

(** A [Dict[str, str]]: assignment replaces the value of a key already
    present. *)
Fixpoint dict_set (k v : string) (d : list (string * string)) : list (string * string) :=
  match d with
  | [] => [(k, v)]
  | (k', v') :: d' => if String.eqb k' k then (k, v) :: d' else (k', v') :: dict_set k v d'
  end.

Fixpoint dict_get (k : string) (d : list (string * string)) : option string :=
  match d with
  | [] => None
  | (k', v') :: d' => if String.eqb k' k then Some v' else dict_get k d'
  end.

Section Script.

Variable W : world.
Variable cfg : Settings.

(** ** SSH utilities (lines 114-210) *)

(** [SSH.close]: closes the client and swallows whatever that raises. *)
Definition close (c : SSH) : M unit := emit (EvClose (ssh_hop c)).

(** [Ed25519Key.from_private_key_file] and [RSAKey.from_private_key_file];
    the key that comes back is identified by its path. *)
Definition from_private_key_file (kind : key_kind) (p : string) (password : option string)
  : M string :=
  fun s => (match w_key W kind p password with None => Ret p | Some e => Raise e end,
            s, [EvReadKey kind p password (w_key W kind p password)]).

Definition getpass (label : string) : M string :=
  fun s => (Ret (w_getpass W label), s, [EvPrompt label]).

(** [load_pkey] (lines 124-139).  The first [except] clause takes the
    exceptions of class [PasswordRequiredException], the second one all the
    others; what a clause raises leaves the function.  [expanduser] is part
    of the world: [w_key] answers for the path as the configuration gives
    it. *)
Definition load_pkey (path : string) : M string :=
  try_except
    (from_private_key_file Ed25519Key path None)
    (fun e =>
       if isinstance e PasswordRequiredExceptionC then
         pw <- getpass "秘密鍵のパスフレーズ: " ;;
         try_except
           (from_private_key_file Ed25519Key path (Some pw))
           (fun _ => from_private_key_file RSAKey path (Some pw))
       else
         try_except
           (from_private_key_file RSAKey path None)
           (fun e => raise e)).

(** [connect_host].  Without [sock] the connection is direct, which the
    script does for the gateway only; with [sock] it leads to the channel's
    destination. *)
Definition connect_host (host user : string) (port : Z)
    (pkey password : option string) (sock : option Channel) : M SSH :=
  fun s =>
    let h := match sock with Some ch => ch_dest ch | None => Gw end in
    let r := w_connect W (n_connect s) in
    (match r with None => Ret (mkSSH h) | Some e => Raise e end,
     mkState (now s) (n_open s) (S (n_connect s)) (n_run s) (n_exec s) (n_probe s) (issues s),
     [EvConnect h host user port pkey password r]).

(** [open_direct_tcpip_channel]; [dest] names the hop behind
    [dest_host]. *)
Definition open_direct_tcpip_channel (transport : SSH) (dest : hop)
    (dest_host : string) (dest_port : Z) : M Channel :=
  fun s =>
    let ch := mkChannel (ssh_hop transport) dest in
    let r := w_open W (n_open s) in
    (match r with None => Ret ch | Some e => Raise e end,
     mkState (now s) (S (n_open s)) (n_connect s) (n_run s) (n_exec s) (n_probe s) (issues s),
     [EvOpenChannel ch dest_host dest_port r]).

(** The [transport.open_channel] of the prober: it takes the time the world
    gives it. *)
Definition probe_open_channel (transport : SSH) (dest : hop) : M Channel :=
  fun s =>
    let ch := mkChannel (ssh_hop transport) dest in
    let '(r, dur) := w_probe W (n_probe s) in
    (match r with None => Ret ch | Some e => Raise e end,
     mkState (now s + Z.of_N dur) (n_open s) (n_connect s) (n_run s) (n_exec s)
             (S (n_probe s)) (issues s),
     [EvProbe ch (match r with None => true | Some _ => false end)]).

Definition is_ssh_reachable_via_transport (transport : SSH) (dest : hop)
    (host : string) (port : Z) : M bool :=
  try_except
    (ch <- probe_open_channel transport dest ;;
     (* ch.close() inside its own try/except: pass *)
     ret true)
    (fun _ => ret false).

(** The [while] loop of [wait_for_host_down_via_transport] (lines 197-207).
    [fuel] bounds the number of iterations; [None] means it ran out. *)
Fixpoint wait_loop (fuel : nat) (transport : SSH) (dest : hop) (host : string) (port : Z)
    (deadline interval : Z) (s : state) : option (res bool * state * trace) :=
  match fuel with
  | O => None
  | S fuel' =>
      if (now s <? deadline)%Z then
        match is_ssh_reachable_via_transport transport dest host port s with
        | (Ret reachable, s1, t1) =>
            if negb reachable then
              Some (Ret true, s1, t1 ++ [EvPrint (MsgHostDown host)])
            else
              match time_sleep (1000 * interval) s1 with
              | (_, s2, t2) =>
                  match wait_loop fuel' transport dest host port deadline interval s2 with
                  | Some (r, s3, t3) => Some (r, s3, t1 ++ t2 ++ t3)
                  | None => None
                  end
              end
        | (Raise e, s1, t1) => Some (Raise e, s1, t1)
        end
      else Some (Ret false, s, [EvPrint (MsgWaitTimeout host)])
  end.

(** Every iteration that goes on sleeps at least one second, so
    [timeout_sec] iterations and one last test of the deadline are enough
    (lemma [wait_loop_enough_fuel]); the [None] branch is never taken. *)
Definition wait_for_host_down_via_transport (transport : SSH) (dest : hop)
    (host : string) (port : Z) (timeout_sec poll_interval : Z) : M bool :=
  fun s =>
    let deadline := (now s + 1000 * timeout_sec)%Z in
    let interval := Z.max 1 poll_interval in
    match wait_loop (S (Z.to_nat timeout_sec)) transport dest host port deadline interval s with
    | Some (Ret ok, s', t) =>
        (Ret ok, s', EvPrint (MsgWaiting host timeout_sec) :: t ++ [EvWaited dest ok])
    | Some (Raise e, s', t) => (Raise e, s', EvPrint (MsgWaiting host timeout_sec) :: t)
    | None => (Ret false, s, [])
    end.

(** ** Diagnostics (lines 215-262) *)

Definition _run (ws_client : SSH) (cmd : string) : M (Z * string * string) :=
  fun s =>
    (match w_run W (n_run s) with inr r => Ret r | inl e => Raise e end,
     mkState (now s) (n_open s) (n_connect s) (S (n_run s)) (n_exec s) (n_probe s) (issues s),
     [EvRun (ssh_hop ws_client) cmd
        (match w_run W (n_run s) with inr _ => None | inl e => Some e end)]).

(** A token that looks like an address (line 239). *)
Definition looks_like_ip (tok : string) : bool :=
  isdigit (w_isdigit W) (remove_char "."%char tok) || char_in ":"%char tok.

(** Lines 235-240. *)
Definition parse_ips (out : string) : list string :=
  flat_map (fun line => filter looks_like_ip (split_ws (strip line))) (splitlines out).

(** The [for cmd in cmds] loop with its [break] (lines 232-244). *)
Fixpoint dns_loop (ws_client : SSH) (cmds : list string) (result : Diagnosis) : M Diagnosis :=
  match cmds with
  | [] => ret result
  | cmd :: rest =>
      r <- _run ws_client cmd ;;
      let '(rc, out, err) := r in
      if nonempty_str (strip out) then
        let ips := parse_ips out in
        match ips with
        | _ :: _ =>
            ret (mkDiag (Some true) (dedupe ips) (tcp_ok result) (tcp_method result)
                        (notes result))
        | [] => dns_loop ws_client rest result
        end
      else dns_loop ws_client rest result
  end.

Definition diagnose_on_remote (ws_client : SSH) (target_host : string) (port : Z)
  : M Diagnosis :=
  let result := mkDiag None [] None None [] in
  let cmds :=
    [ "getent hosts " +++ target_host;
      "getent ahosts " +++ target_host;
      "nslookup " +++ target_host +++ " 2>/dev/null | awk '/^Address[[:space:]]*:/{print $2}'" ] in
  result <- dns_loop ws_client cmds result ;;
  let result :=
    match dns_ok result with
    | None => mkDiag (Some false) (dns_ips result) (tcp_ok result) (tcp_method result)
                     (notes result ++ ["DNS解決に失敗（workstation側）"])
    | Some _ => result
    end in
  r <- _run ws_client
         ("command -v nc >/dev/null 2>&1 && nc -zw" +++ str_of_int (NC_TIMEOUT cfg) +++ " "
          +++ target_host +++ " " +++ str_of_int port +++ " && echo OK || echo NG") ;;
  let '(rc, out, err) := r in
  if str_in "OK" out then
    ret (mkDiag (dns_ok result) (dns_ips result) (Some true) (Some "nc") (notes result))
  else
    r <- _run ws_client
           ("bash -lc 'exec 3<>/dev/tcp/" +++ target_host +++ "/" +++ str_of_int port
            +++ " && echo OK || echo NG'") ;;
    let '(rc, out, err) := r in
    if str_in "OK" out then
      ret (mkDiag (dns_ok result) (dns_ips result) (Some true) (Some "/dev/tcp") (notes result))
    else
      ret (mkDiag (dns_ok result) (dns_ips result) (Some false) (Some "nc|/dev/tcp")
                  (notes result)).

(** ** Remote commands (lines 284-318) *)

(** The output of the command is echoed to the console, which the model
    leaves out; the exit status is returned. *)
Definition run_remote_command (client : SSH) (command : string)
    (sudo : bool) (sudo_password : option string) : M Z :=
  let command := if sudo then "sudo -S -p '' " +++ command else command in
  fun s =>
    let stdin := if sudo then sudo_password else None in
    (match w_exec W (n_exec s) with
     | inr (exit_status, out, err) => Ret exit_status
     | inl e => Raise e
     end,
     mkState (now s) (n_open s) (n_connect s) (n_run s) (S (n_exec s)) (n_probe s) (issues s),
     [EvExec (ssh_hop client) command stdin
        (match w_exec W (n_exec s) with inr _ => None | inl e => Some e end)]).

Definition shutdown_host (tag : string) (client : SSH) (needs_sudo_password : bool)
    (sudo_password : option string) (dry_run : bool) : M unit :=
  let cmd := POWER_OFF_CMD cfg in
  emit (EvShutdownHost (ssh_hop client) tag dry_run) ;;
  print (MsgCommand tag cmd) ;;
  if dry_run then
    print (MsgDryRun tag)
  else
    code <- run_remote_command client cmd needs_sudo_password sudo_password ;;
    if negb (code =? 0)%Z then print (MsgExitStatusWarning tag code) else ret tt.

(** ** Credentials (lines 323-337, 404-411) *)

Definition environ_get (key : string) : M (option string) :=
  fun s => (Ret (w_environ W key), s, [EvEnvGet key]).

Definition read_file (path : string) : M string :=
  fun s => (match w_file W path with inr txt => Ret txt | inl e => Raise e end,
            s, [EvFileRead path]).

Definition _resolve_password (value : option string) (prompt_label : string) : M string :=
  match value with
  | None => getpass prompt_label
  | Some value =>
      if String.prefix "env:" value then
        let env_key := after_first_colon value in
        v <- environ_get env_key ;;
        match v with
        | None => raise (mkExn RuntimeErrorC
                           ("環境変数 " +++ env_key +++ " が未設定です（" +++ prompt_label +++ "）"))
        | Some v => ret v
        end
      else if String.prefix "file:" value then
        let path := after_first_colon value in
        txt <- read_file path ;;
        ret (strip txt)
      else ret value
  end.

(** The password loop of [main] (lines 405-407). *)
Fixpoint collect_passwords (fleets : list Fleet) (fleet_pw_map : list (string * string))
  : M (list (string * string)) :=
  match fleets with
  | [] => ret fleet_pw_map
  | f :: rest =>
      pw <- _resolve_password (password f)
              ("[" +++ name f +++ "] のログイン/ sudo 用パスワード: ") ;;
      collect_passwords rest (dict_set (name f) pw fleet_pw_map)
  end.

(** ** The orchestrator (lines 384-592) *)

Section Orchestrator.

Variable args : Args.

Definition node_timeout : Z :=
  match node_timeout_arg args with
  | None => DEFAULT_NODE_SHUTDOWN_TIMEOUT cfg
  | Some t => t
  end.

Definition poll_interval : Z :=
  match poll_interval_arg args with
  | None => DEFAULT_POLL_INTERVAL cfg
  | Some p => p
  end.

(** One iteration of [for node in f.nodes] (lines 497-538): the value is
    [parent_skip] after the iteration.  [ws] is the fleet session, [i] the
    position of the fleet and [j] that of the node. *)
Definition process_node (f : Fleet) (i : nat) (ws : SSH) (pw : string)
    (j : nat) (node : string) (parent_skip : bool) : M bool :=
  r <- try_except
         (pre <- diagnose_on_remote ws node (port f) ;;
          (if is_False (dns_ok pre) || is_False (tcp_ok pre) then
             let reason := if is_False (dns_ok pre) then "名前解決失敗" else "TCP到達不可" in
             let hint := if is_False (dns_ok pre) then "DNSや /etc/hosts を確認"
                         else "FW/ルーティング/ポートを確認" in
             issues_append (Nd i j)
               (mkIssue "node(precheck)" (name f) node reason hint (Some pre) "") ;;
             print (MsgPrecheckWarning node reason)
           else ret tt) ;;
          sock_node <- open_direct_tcpip_channel ws (Nd i j) node (port f) ;;
          node_cli <- connect_host node (user f) (port f) None (Some pw) (Some sock_node) ;;
          ret (inr node_cli))
         (fun e =>
            diag <- diagnose_on_remote ws node (port f) ;;
            let '(reason, hint) := classify_failure e (Some diag) in
            issues_append (Nd i j)
              (mkIssue "node" (name f) node reason hint (Some diag) (exc_str e)) ;;
            print (MsgNodeConnectFailed node reason hint (exc_str e)) ;;
            ret (inl (if negb (dry_run args) && negb (non_strict args) then true
                      else parent_skip))) ;;
  match r with
  | inl parent_skip => ret parent_skip                 (* continue *)
  | inr node_cli =>
      r <- try_finally
             (shutdown_host node node_cli (needs_sudo_password f) (Some pw) (dry_run args))
             (close node_cli ;;
              parent_skip <-
                (if negb (dry_run args) then
                   ok <- wait_for_host_down_via_transport ws (Nd i j) node (port f)
                           node_timeout poll_interval ;;
                   if negb ok && negb (non_strict args) then
                     print (MsgProtectNode node (name f)) ;;
                     ret true
                   else ret parent_skip
                 else ret parent_skip) ;;
              time_sleep 200 ;;
              ret parent_skip) ;;
      ret (snd r)
  end.

Fixpoint for_nodes (f : Fleet) (i : nat) (ws : SSH) (pw : string)
    (j : nat) (nodes : list string) (parent_skip : bool) : M bool :=
  match nodes with
  | [] => ret parent_skip
  | node :: rest =>
      parent_skip <- process_node f i ws pw j node parent_skip ;;
      for_nodes f i ws pw (S j) rest parent_skip
  end.

(** One iteration of [for f in fleets] (lines 475-552). *)
Definition process_fleet (gw_conn : SSH) (fleet_pw_map : list (string * string))
    (i : nat) (f : Fleet) : M unit :=
  match dict_get (name f) fleet_pw_map with
  | None => raise (mkExn ExceptionC (name f))          (* KeyError *)
  | Some pw =>
      r <- try_except
             (sock_ws <- open_direct_tcpip_channel gw_conn (Ws i) (name f) (port f) ;;
              ws <- connect_host (name f) (user f) (port f) None (Some pw) (Some sock_ws) ;;
              ret (Some ws))
             (fun e =>
                diag <- diagnose_on_remote gw_conn (name f) (port f) ;;
                let '(reason, hint) := classify_failure e (Some diag) in
                issues_append (Ws i)
                  (mkIssue "workstation" "triton" (name f) reason hint (Some diag) (exc_str e)) ;;
                print (MsgFleetConnectFailed (name f) reason) ;;
                ret None) ;;
      match r with
      | None => ret tt                                 (* continue *)
      | Some ws =>
          _ <- try_finally
                 (parent_skip <-
                    match nodes f with
                    | Some l => for_nodes f i ws pw 0 l false
                    | None =>                          (* TypeError *)
                        raise (mkExn ExceptionC "'NoneType' object is not iterable")
                    end ;;
                  if parent_skip then print (MsgProtectFleet (name f))
                  else shutdown_host (name f) ws (needs_sudo_password f) (Some pw)
                                     (dry_run args))
                 (close ws ;; time_sleep 200) ;;
          ret tt
      end
  end.

Fixpoint for_fleets (gw_conn : SSH) (fleet_pw_map : list (string * string))
    (i : nat) (fleets : list Fleet) : M unit :=
  match fleets with
  | [] => ret tt
  | f :: rest =>
      process_fleet gw_conn fleet_pw_map i f ;;
      for_fleets gw_conn fleet_pw_map (S i) rest
  end.

(** [total_steps] (lines 445-447): [len(f.nodes)] of every fleet, before
    the [try] of line 471. *)
Fixpoint count_steps (fleets : list Fleet) (total_steps : nat) : M nat :=
  match fleets with
  | [] => ret total_steps
  | f :: rest =>
      match nodes f with
      | Some l => count_steps rest (total_steps + (List.length l + 1))
      | None =>                                        (* TypeError *)
          raise (mkExn ExceptionC "object of type 'NoneType' has no len()")
      end
  end.

Definition main (gw : Gateway) (fleets : list Fleet) : M unit :=
  fleet_pw_map <- collect_passwords fleets [] ;;
  gw_sudo_pw <- (if gw_needs_sudo_password gw
                 then pw <- getpass "[triton] のsudoパスワード: " ;; ret (Some pw)
                 else ret None) ;;
  pkey <- load_pkey (pkey_path gw) ;;
  r <- try_except
         (gw_conn <- connect_host (gw_host gw) (gw_user gw) (gw_port gw) (Some pkey) None None ;;
          ret (Some gw_conn))
         (fun e =>
            let '(reason, hint) := classify_failure e None in
            print (MsgGatewayFatal reason hint (exc_str e)) ;;
            ret None) ;;
  match r with
  | None => ret tt                                     (* return *)
  | Some gw_conn =>
      total_steps <- count_steps fleets 1 ;;
      issues_init ;;
      _ <- try_finally
             (for_fleets gw_conn fleet_pw_map 0 fleets ;;
              shutdown_host "triton" gw_conn (gw_needs_sudo_password gw) gw_sudo_pw
                            (dry_run args))
             (close gw_conn ;;
              iss <- get_issues ;;
              (match iss with
               | _ :: _ => print (MsgDiagnostics iss)
               | [] => ret tt
               end) ;;
              print MsgDone) ;;
      ret tt
  end.

End Orchestrator.

End Script.

(** The trace, the outcome and the issues of a run from the initial state. *)
Definition run_main (W : world) (cfg : Settings) (args : Args) (gw : Gateway)
    (fleets : list Fleet) : res unit * state * trace :=
  main W cfg args gw fleets initial_state.

Definition outcome_of {A} (x : res A * state * trace) : res A := fst (fst x).
Definition state_of {A} (x : res A * state * trace) : state := snd (fst x).
Definition trace_of {A} (x : res A * state * trace) : trace := snd x.



(** ** Sample data for the examples below *)

Definition default_settings : Settings := mkSettings "shutdown -h now" 600 5 3.

Definition gw0 : Gateway := mkGateway "triton" "root" "~/.ssh/id_ed25519" 22 false None.

(** Rows of the digit table: the ASCII digits, the Arabic-Indic digits, the
    superscripts two, three and one, and the fullwidth digits. *)
Definition digits (n : N) : bool :=
  between 48 n 57 || between 1632 n 1641 || between 178 n 179 || (n =? 185)%N
  || between 65296 n 65305.

Definition chan_err : exn := mkExn ChannelExceptionC "ChannelException(2, 'Connect failed')".
Definition auth_err : exn := mkExn AuthenticationExceptionC "Authentication failed.".
Definition ssh_err : exn := mkExn SSHExceptionC "SSH session not active".
Definition os_err : exn := mkExn OSErrorC "timed out".


(** ** The polling contract, as the specification words it

    A wait with timeout [T] and poll interval [P] (seconds), started in
    state [s]; the clock of the model counts milliseconds. *)

Definition elapsed_ms {A} (s : state) (x : res A * state * trace) : Z :=
  now (state_of x) - now s.

Definition probe_reports_unreachable (W : world) (k : nat) : Prop :=
  exists e, fst (w_probe W k) = Some e.

Definition probe_never_reports_unreachable (W : world) : Prop :=
  forall k, fst (w_probe W k) = None.

Definition wait_contract_as_stated (W : world) (T P : Z) (s : state) : Prop :=
  let x := wait_for_host_down_via_transport W (mkSSH (Ws 0)) (Nd 0 0) "n1" 22 T P s in
  (probe_reports_unreachable W (n_probe s) ->
   outcome_of x = Ret true /\ (elapsed_ms s x <= 1000 * P)%Z) /\
  (probe_never_reports_unreachable W ->
   outcome_of x = Ret false /\
   (1000 * T <= elapsed_ms s x)%Z /\ (elapsed_ms s x <= 1000 * (T + P))%Z).

(** A world whose probes all fail at once (the host is down), and one whose
    probes all succeed after two seconds. *)
Definition world_with_probes (p : nat -> option exn * N) : world :=
  mkWorld (fun _ _ _ => None) (fun _ => None) (fun _ => None)
    (fun _ => inr (0%Z, "", "")) (fun _ => inr (0%Z, "", ""))
    p (fun _ => None) (fun _ => inr "") (fun _ => "") digits.

Definition world_host_down : world := world_with_probes (fun _ => (Some chan_err, 0%N)).
Definition world_host_up_slow : world := world_with_probes (fun _ => (None, 2000%N)).
Definition world_host_up : world := world_with_probes (fun _ => (None, 0%N)).

Definition is_sleep (e : event) : bool :=
  match e with EvSleep _ => true | _ => false end.


(** ** Reasoning about runs

    [sat m Q]: from every state, the outcome and the trace of [m] satisfy
    [Q]. *)
Definition sat {A} (m : M A) (Q : res A -> trace -> Prop) : Prop :=
  forall s, Q (outcome_of (m s)) (trace_of (m s)).

(** ** Diagnosis: the worlds of the specification's test *)

Definition diagnostic_commands_return (W : world) : Prop :=
  forall k, exists r, w_run W k = inr r.

(** No resolver prints anything that parses as an address. *)
Definition target_unresolvable (W : world) : Prop :=
  forall k rc out err, w_run W k = inr (rc, out, err) -> parse_ips W out = [].

(** No probe prints OK. *)
Definition target_port_unreachable (W : world) : Prop :=
  forall k rc out err, w_run W k = inr (rc, out, err) -> str_in "OK" out = false.

Definition world_with_runs (r : nat -> exn + (Z * string * string)) : world :=
  mkWorld (fun _ _ _ => None) (fun _ => None) (fun _ => None) r (fun _ => inr (0%Z, "", ""))
    (fun _ => (None, 0%N)) (fun _ => None) (fun _ => inr "") (fun _ => "") digits.

(** Every diagnostic command fails with exit status 2 and prints NG at
    most. *)
Definition world_target_dead : world := world_with_runs (fun _ => inr (2%Z, "NG", "")).

(** Every command prints a number in fullwidth digits and the name of the
    host. *)
Definition world_fullwidth : world := world_with_runs (fun _ => inr (0%Z, "１２３ n1", "")).

(** The session to the hop is broken: running a command raises. *)
Definition world_session_broken : world := world_with_runs (fun _ => inl ssh_err).

(** C5 as the specification states it: whatever the session does, a
    Diagnosis comes back. *)
Definition diagnose_never_raises (W : world) (cfg : Settings) : Prop :=
  forall ws target_host port s,
  exists d, outcome_of (diagnose_on_remote W cfg ws target_host port s) = Ret d.


(** ** Who may emit what

    The events of one probe round, of one node iteration, of one fleet
    iteration and of the whole loop over the fleets.  [dry] is the dry-run
    flag: power-off commands, probes and wait results exist in live runs
    only. *)

Inductive run_event (h : hop) : event -> Prop :=
| run_event_intro cmd r : run_event h (EvRun h cmd r).

Inductive wait_event (via dest : hop) : event -> Prop :=
| wait_probe b : wait_event via dest (EvProbe (mkChannel via dest) b)
| wait_sleep ms : wait_event via dest (EvSleep ms)
| wait_print m : wait_event via dest (EvPrint m).

Inductive node_event (dry : bool) (i j : nat) : event -> Prop :=
| ne_run cmd r : node_event dry i j (EvRun (Ws i) cmd r)
| ne_issue iss : node_event dry i j (EvIssue (Nd i j) iss)
| ne_print m : node_event dry i j (EvPrint m)
| ne_open host port r :
    node_event dry i j (EvOpenChannel (mkChannel (Ws i) (Nd i j)) host port r)
| ne_connect host user port pk pw r :
    node_event dry i j (EvConnect (Nd i j) host user port pk pw r)
| ne_shutdown tag : node_event dry i j (EvShutdownHost (Nd i j) tag dry)
| ne_exec cmd stdin r : dry = false -> node_event dry i j (EvExec (Nd i j) cmd stdin r)
| ne_close : node_event dry i j (EvClose (Nd i j))
| ne_probe b : dry = false -> node_event dry i j (EvProbe (mkChannel (Ws i) (Nd i j)) b)
| ne_waited ok : dry = false -> node_event dry i j (EvWaited (Nd i j) ok)
| ne_sleep ms : node_event dry i j (EvSleep ms).

Inductive fleet_event (dry : bool) (i : nat) : event -> Prop :=
| fe_node j e : node_event dry i j e -> fleet_event dry i e
| fe_run cmd r : fleet_event dry i (EvRun Gw cmd r)
| fe_issue iss : fleet_event dry i (EvIssue (Ws i) iss)
| fe_open host port r :
    fleet_event dry i (EvOpenChannel (mkChannel Gw (Ws i)) host port r)
| fe_connect host user port pk pw r :
    fleet_event dry i (EvConnect (Ws i) host user port pk pw r)
| fe_shutdown tag : fleet_event dry i (EvShutdownHost (Ws i) tag dry)
| fe_exec cmd stdin r : dry = false -> fleet_event dry i (EvExec (Ws i) cmd stdin r)
| fe_close : fleet_event dry i (EvClose (Ws i)).

(** The events of the fleets at positions [lo] and above. *)
Definition fleets_event (dry : bool) (lo : nat) (e : event) : Prop :=
  exists i, lo <= i /\ fleet_event dry i e.


(** What a trace says about an exception that comes out of it: some
    diagnostic command or some power-off command raised it. *)
Definition raised_in (t : trace) (e : exn) : Prop :=
  (exists h cmd, In (EvRun h cmd (Some e)) t) \/
  (exists h cmd stdin, In (EvExec h cmd stdin (Some e)) t).


Inductive shutdown_event (dry : bool) (h : hop) : event -> Prop :=
| se_enter tag : shutdown_event dry h (EvShutdownHost h tag dry)
| se_print m : shutdown_event dry h (EvPrint m)
| se_exec cmd stdin r : dry = false -> shutdown_event dry h (EvExec h cmd stdin r).

(** What [shutdown_host] does after it was entered. *)
Inductive poweroff_event (dry : bool) (h : hop) : event -> Prop :=
| pe_print m : poweroff_event dry h (EvPrint m)
| pe_exec cmd stdin r : dry = false -> poweroff_event dry h (EvExec h cmd stdin r).

(** Every fleet of the list has its password in the map. *)
Definition passwords_known (fleet_pw_map : list (string * string)) (fleets : list Fleet)
  : Prop :=
  forall f, In f fleets -> dict_get (name f) fleet_pw_map <> None.


(** The events of the nodes of fleet [i]. *)
Definition nodes_event (dry : bool) (i : nat) (e : event) : Prop :=
  exists j, node_event dry i j e.


(** Credential resolution and key loading, and what [main] prints at the
    end. *)
Inductive cred_event : event -> Prop :=
| ce_prompt label : cred_event (EvPrompt label)
| ce_env key : cred_event (EvEnvGet key)
| ce_file path : cred_event (EvFileRead path)
| ce_key kind path pw r : cred_event (EvReadKey kind path pw r).

Inductive report_event : event -> Prop :=
| re_print m : report_event (EvPrint m).

(** Some fleet has no list of nodes; every fleet has one. *)
Definition nodes_missing (fleets : list Fleet) : Prop :=
  exists f, In f fleets /\ nodes f = None.

Definition nodes_listed (fleets : list Fleet) : Prop :=
  forall f, In f fleets -> nodes f <> None.

(** The runs of [main], around what the loop over the fleets does ([P]):
    credential resolution or key loading fails; the gateway cannot be
    reached; counting the steps fails, on a fleet without a list of nodes;
    the loop over the fleets raises; the loop returns and the gateway is
    shut down. *)
Inductive main_shape (dry : bool) (fleets : list Fleet) (P : res unit -> trace -> Prop)
  : res unit -> trace -> Prop :=
| ms_credentials tc e :
    Forall cred_event tc ->
    main_shape dry fleets P (Raise e) tc
| ms_gateway tc host user port pk e :
    Forall cred_event tc ->
    main_shape dry fleets P (Ret tt)
      (tc ++ [EvConnect Gw host user port pk None (Some e);
              EvPrint (MsgGatewayFatal (fst (classify_failure e None))
                         (snd (classify_failure e None)) (exc_str e))])
| ms_steps tc host user port pk e :
    Forall cred_event tc ->
    nodes_missing fleets ->
    main_shape dry fleets P (Raise e) (tc ++ [EvConnect Gw host user port pk None None])
| ms_fleets_raise tc host user port pk tf e tr :
    Forall cred_event tc ->
    P (Raise e) tf ->
    Forall report_event tr ->
    main_shape dry fleets P (Raise e)
      (tc ++ EvConnect Gw host user port pk None None :: tf ++ EvClose Gw :: tr)
| ms_done tc host user port pk tf tg r tr :
    Forall cred_event tc ->
    P (Ret tt) tf ->
    Forall (poweroff_event dry Gw) tg ->
    (forall e, r = Raise e -> raised_in tg e) ->
    Forall report_event tr ->
    main_shape dry fleets P r
      (tc ++ EvConnect Gw host user port pk None None
          :: tf ++ EvShutdownHost Gw "triton" dry :: tg ++ EvClose Gw :: tr).


(** ** Fleet processing, as the trace shows it

    A fleet at position [i] was fully processed when its connection failed
    and an Issue was recorded, or its session was closed after either the
    protective skip or the call of [shutdown_host] for the fleet host. *)

Definition fleet_connect_failed (i : nat) (t : trace) : Prop :=
  exists iss, In (EvIssue (Ws i) iss) t /\ stage iss = "workstation".

Definition fleet_protective_skip (i : nat) (f : Fleet) (t : trace) : Prop :=
  In (EvPrint (MsgProtectFleet (name f))) t /\ In (EvClose (Ws i)) t.

Definition fleet_shut_down (i : nat) (f : Fleet) (dry : bool) (t : trace) : Prop :=
  In (EvShutdownHost (Ws i) (name f) dry) t /\ In (EvClose (Ws i)) t.

Definition fleet_processed (dry : bool) (i : nat) (f : Fleet) (t : trace) : Prop :=
  fleet_connect_failed i t \/ fleet_protective_skip i f t \/ fleet_shut_down i f dry t.

(** What happens from the gateway's shutdown on. *)
Inductive closing_event (dry : bool) : event -> Prop :=
| cl_poweroff e : poweroff_event dry Gw e -> closing_event dry e
| cl_close : closing_event dry (EvClose Gw).

Definition is_gateway_shutdown (e : event) : bool :=
  match e with EvShutdownHost Gw _ _ => true | _ => false end.


(** A world in which everything works: connections succeed, names resolve,
    ports answer, commands exit with 0 and hosts go down at once. *)
Definition world_all_ok : world :=
  mkWorld (fun _ _ _ => None) (fun _ => None) (fun _ => None)
    (fun _ => inr (0%Z, "10.0.0.7 host OK", "")) (fun _ => inr (0%Z, "", ""))
    (fun _ => (Some chan_err, 0%N))
    (fun _ => Some "secret") (fun _ => inr "secret") (fun _ => "typed") digits.

Definition ws1 : Fleet := mkFleet "ws1" "admin" (Some "pw1") (Some ["n1"]) 22 true.
Definition live_strict : Args := mkArgs false None None false.
Definition dry_strict : Args := mkArgs true None None false.


(** ** The protective skip

    A node of fleet [i] failed when the channel to it or its connection
    raised, or when the wait for it to go down ended without
    confirmation. *)

Definition is_node_failure (i : nat) (e : event) : bool :=
  match e with
  | EvOpenChannel ch _ _ (Some _) =>
      match ch_dest ch with Nd i' _ => Nat.eqb i' i | _ => false end
  | EvConnect (Nd i' _) _ _ _ _ _ (Some _) => Nat.eqb i' i
  | EvWaited (Nd i' _) false => Nat.eqb i' i
  | _ => false
  end.

Definition is_fleet_shutdown (i : nat) (e : event) : bool :=
  match e with
  | EvShutdownHost (Ws i') _ _ => Nat.eqb i' i
  | _ => false
  end.

Definition node_failed (i : nat) (t : trace) : Prop :=
  exists e, In e t /\ is_node_failure i e = true.

Definition fleet_shutdown_invoked (i : nat) (t : trace) : Prop :=
  exists e, In e t /\ is_fleet_shutdown i e = true.

(** C1 as the specification states it: strict mode alone protects the
    fleet host. *)
Definition parent_skip_as_stated (W : world) (cfg : Settings) (args : Args) (gw : Gateway)
    (fleets : list Fleet) : Prop :=
  non_strict args = false ->
  forall i, node_failed i (trace_of (run_main W cfg args gw fleets)) ->
            ~ fleet_shutdown_invoked i (trace_of (run_main W cfg args gw fleets)).

(** The third connection of a run (gateway, fleet, first node) is rejected:
    the first node fails to authenticate. *)
Definition world_node_auth_fails : world :=
  mkWorld (fun _ _ _ => None) (fun _ => None)
    (fun k => match k with 2 => Some auth_err | _ => None end)
    (fun _ => inr (0%Z, "10.0.0.7 host OK", "")) (fun _ => inr (0%Z, "", ""))
    (fun _ => (Some chan_err, 0%N))
    (fun _ => Some "secret") (fun _ => inr "secret") (fun _ => "typed") digits.

(** What the loop over the fleets guarantees about the gateway's turn. *)
Definition fleets_done (args : Args) (fleets : list Fleet) (r : res unit) (t : trace) : Prop :=
  Forall (fleets_event (dry_run args) 0) t /\
  (r = Ret tt ->
   forall k f, nth_error fleets k = Some f -> fleet_processed (dry_run args) k f t).


(** What the loop over the fleets guarantees in a live, strict run: the
    events are those of the fleets, and a fleet with a failed node has no
    shutdown of its own. *)
Definition fleets_protected (dry : bool) (r : res unit) (t : trace) : Prop :=
  Forall (fleets_event dry 0) t /\
  forall i, existsb (is_node_failure i) t = true -> existsb (is_fleet_shutdown i) t = false.


(** ** The issues list and the trace

    The Issues a trace appends, in order. *)
Definition issue_of (e : event) : list Issue :=
  match e with EvIssue _ iss => [iss] | _ => [] end.

Definition issues_of (t : trace) : list Issue := flat_map issue_of t.

(** [m] only ever appends to [issues], and the trace shows each append. *)
Definition logs_issues {A} (m : M A) : Prop :=
  forall s, issues (state_of (m s)) = issues s ++ issues_of (trace_of (m s)).

(** ** A pre-check that raises

    Events that try something on a host: a channel, a connection, a
    shutdown, a command, a probe. *)
Definition is_attempt (e : event) : bool :=
  match e with
  | EvOpenChannel _ _ _ _ | EvConnect _ _ _ _ _ _ _ | EvShutdownHost _ _ _
  | EvExec _ _ _ _ | EvProbe _ _ | EvWaited _ _ | EvClose _ => true
  | _ => false
  end.

(** C10 as the specification states it, for the iteration of node [j] of
    fleet [i] started in state [s]. *)
Definition precheck_failure_as_stated (W : world) (cfg : Settings) (args : Args)
    (f : Fleet) (i : nat) (pw : string) (j : nat) (node : string) (parent_skip : bool)
    (s : state) : Prop :=
  (exists e, outcome_of (diagnose_on_remote W cfg (mkSSH (Ws i)) node (port f) s) = Raise e) ->
  let x := process_node W cfg args f i (mkSSH (Ws i)) pw j node parent_skip s in
  existsb is_attempt (trace_of x) = false /\
  (exists iss, In (EvIssue (Nd i j) iss) (trace_of x) /\ stage iss = "node") /\
  outcome_of x =
    Ret (if negb (dry_run args) && negb (non_strict args) then true else parent_skip).

(** The first diagnostic command of a run raises, all later ones work. *)
Definition world_first_run_fails : world :=
  world_with_runs (fun k => match k with
                            | O => inl ssh_err
                            | _ => inr (0%Z, "10.0.0.7 host OK", "")
                            end).


(** ** Credentials come first *)

Definition is_credential (e : event) : bool :=
  match e with EvPrompt _ | EvEnvGet _ | EvFileRead _ => true | _ => false end.

(** Whether the credential of fleet [f] resolves in world [W]: a prompt
    and a literal always do, [env:] when the variable is set, [file:] when
    the file can be read. *)
Definition credential_resolves (W : world) (f : Fleet) : bool :=
  match password f with
  | None => true
  | Some v =>
      if String.prefix "env:" v then
        match w_environ W (after_first_colon v) with Some _ => true | None => false end
      else if String.prefix "file:" v then
        match w_file W (after_first_colon v) with inr _ => true | inl _ => false end
      else true
  end.

Definition password_label (f : Fleet) : string :=
  "[" +++ name f +++ "] のログイン/ sudo 用パスワード: ".

Definition unset_variable_error (key label : string) : exn :=
  mkExn RuntimeErrorC ("環境変数 " +++ key +++ " が未設定です（" +++ label +++ "）").

(** C9, second half, as the specification states it: whichever fleet has
    the unset variable, the run ends with the error that names it. *)
Definition unset_variable_named_as_stated (W : world) (cfg : Settings) (args : Args)
    (gw : Gateway) (fleets : list Fleet) : Prop :=
  forall f key,
    In f fleets -> password f = Some ("env:" +++ key) -> w_environ W key = None ->
    outcome_of (run_main W cfg args gw fleets)
      = Raise (unset_variable_error key (password_label f)) /\
    Forall cred_event (trace_of (run_main W cfg args gw fleets)).

(** Nothing is set and no file can be read. *)
Definition world_no_credentials : world :=
  mkWorld (fun _ _ _ => None) (fun _ => None) (fun _ => None)
    (fun _ => inr (0%Z, "10.0.0.7 host OK", "")) (fun _ => inr (0%Z, "", ""))
    (fun _ => (Some chan_err, 0%N))
    (fun _ => None)
    (fun _ => inl (mkExn OSErrorC "[Errno 2] No such file or directory"))
    (fun _ => "typed") digits.

Definition ws_file : Fleet := mkFleet "wsA" "admin" (Some "file:/nonexistent") (Some []) 22 true.
Definition ws_env : Fleet := mkFleet "wsB" "admin" (Some "env:MYPASS") (Some ["n1"]) 22 true.

(** What the loop over the fleets never does: resolve a credential. *)
Definition fleets_quiet (dry : bool) (r : res unit) (t : trace) : Prop :=
  Forall (fleets_event dry 0) t.


(** ** What a run says about one host

    The events that concern host [h]: the channel and the connection to it,
    its shutdown and the command sent to it, the probes of it and the
    verdict of the wait, the closing of its session, the Issues recorded
    for it.  Diagnostic commands run on the session of the hop before and
    are not counted. *)
Definition about (h : hop) (e : event) : bool :=
  match e with
  | EvOpenChannel ch _ _ _ => hop_eqb (ch_dest ch) h
  | EvConnect h' _ _ _ _ _ _ => hop_eqb h' h
  | EvShutdownHost h' _ _ => hop_eqb h' h
  | EvExec h' _ _ _ => hop_eqb h' h
  | EvProbe ch _ => hop_eqb (ch_dest ch) h
  | EvWaited h' _ => hop_eqb h' h
  | EvClose h' => hop_eqb h' h
  | EvIssue h' _ => hop_eqb h' h
  | _ => false
  end.

Definition events_about (h : hop) (t : trace) : trace := filter (about h) t.

(** The fleet a host belongs to. *)
Definition fleet_of (h : hop) : option nat :=
  match h with Gw => None | Ws i => Some i | Nd i _ => Some i end.

(** The events of the nodes of fleet [i] at positions [lo] and above. *)
Definition nodes_from (dry : bool) (i lo : nat) (e : event) : Prop :=
  exists j, lo <= j /\ node_event dry i j e.

Definition returned {A} (r : res A) : Prop := exists a, r = Ret a.

(** [Q] holds of what the trace says about [h], and [Q'] as well when the
    piece of code returned. *)
Definition local {A} (Q Q' : hop -> trace -> Prop) (h : hop) (r : res A) (t : trace)
  : Prop :=
  Q h (events_about h t) /\ (returned r -> Q' h (events_about h t)).


(** ** Sessions

    The session events of host [h] in a trace: [true] where a connection to
    [h] succeeded (a session was opened), [false] where [SSH.close] was
    called on the session of [h]. *)
Definition session_event (h : hop) (e : event) : list bool :=
  match e with
  | EvConnect h' _ _ _ _ _ None => if hop_eqb h' h then [true] else []
  | EvClose h' => if hop_eqb h' h then [false] else []
  | _ => []
  end.

Definition session_events (h : hop) (t : trace) : list bool :=
  flat_map (session_event h) t.

(** No session of [h] was opened, or one was, once, and then closed, once. *)
Definition session_released (h : hop) (t : trace) : Prop :=
  session_events h t = [] \/ session_events h t = [true; false].


(** C8 as the specification states it: every session, on every exit
    path. *)
Definition sessions_released_as_stated (W : world) (cfg : Settings) (args : Args)
    (gw : Gateway) (fleets : list Fleet) : Prop :=
  forall h, session_released h (trace_of (run_main W cfg args gw fleets)).

(** A fleet whose [nodes] entry is null in the configuration file. *)
Definition ws_null : Fleet := mkFleet "ws0" "admin" (Some "pw0") None 22 true.

(** ** The failure policy *)

(** The channel to [h] or the connection to [h] raised. *)
Definition conn_failure_at (h : hop) (e : event) : bool :=
  match e with
  | EvOpenChannel ch _ _ (Some _) => hop_eqb (ch_dest ch) h
  | EvConnect h' _ _ _ _ _ (Some _) => hop_eqb h' h
  | _ => false
  end.

(** An Issue of stage [st] was appended for [h]. *)
Definition issue_at (st : string) (h : hop) (e : event) : bool :=
  match e with
  | EvIssue h' iss => hop_eqb h' h && String.eqb (stage iss) st
  | _ => false
  end.

(** The wait for [h] gave its verdict. *)
Definition waited_at (h : hop) (e : event) : bool :=
  match e with EvWaited h' _ => hop_eqb h' h | _ => false end.

(** An Issue other than the pre-check warning was appended for [h]. *)
Definition late_issue_at (h : hop) (e : event) : bool :=
  match e with
  | EvIssue h' iss => hop_eqb h' h && negb (String.eqb (stage iss) "node(precheck)")
  | _ => false
  end.

(** The stage under which a connection failure is recorded; a gateway
    failure is not recorded. *)
Definition failure_stage (h : hop) : option string :=
  match h with Gw => None | Ws _ => Some "workstation" | Nd _ _ => Some "node" end.

Definition failure_recorded (h : hop) (t : trace) : Prop :=
  match failure_stage h with
  | Some st => existsb (conn_failure_at h) t = true -> existsb (issue_at st h) t = true
  | None => True
  end.

(** Where the wait for [h] ran, the only Issue [h] can have is the
    pre-check warning: the verdict of the wait is not recorded. *)
Definition wait_unrecorded (h : hop) (t : trace) : Prop :=
  existsb (waited_at h) t = true -> existsb (late_issue_at h) t = false.

Definition gateway_connected (t : trace) : Prop :=
  exists host user port pk, In (EvConnect Gw host user port pk None None) t.

Definition policy_event (e : event) : bool :=
  match e with
  | EvOpenChannel _ _ _ (Some _) | EvConnect _ _ _ _ _ _ (Some _)
  | EvIssue _ _ | EvWaited _ _ => true
  | _ => false
  end.

(** What the loop over the fleets lets out. *)
Definition fleets_raise (dry : bool) (r : res unit) (t : trace) : Prop :=
  Forall (fleets_event dry 0) t /\ forall e, r = Raise e -> raised_in t e.

(** The iteration of node [j] of fleet [i] came to its end: the failure to
    connect was recorded, or the session that was opened was closed. *)
Definition node_processed (i j : nat) (t : trace) : Prop :=
  (exists iss, In (EvIssue (Nd i j) iss) t /\ stage iss = "node") \/
  In (EvClose (Nd i j)) t.

(** The iteration of fleet [i] came to its end: the failure to connect was
    recorded, or every node of the fleet was processed and then the fleet
    host was skipped for protection or had [shutdown_host] called, and its
    session was closed. *)
Definition fleet_completed (dry : bool) (i : nat) (f : Fleet) (t : trace) : Prop :=
  fleet_connect_failed i t \/
  ((forall j node, nth_error (node_list f) j = Some node -> node_processed i j t) /\
   (fleet_protective_skip i f t \/ fleet_shut_down i f dry t)).

(** What the loop over the fleets has done when it returns. *)
Definition fleets_completed (args : Args) (fleets : list Fleet) (r : res unit) (t : trace)
    : Prop :=
  r = Ret tt ->
  forall k f, nth_error fleets k = Some f -> fleet_completed (dry_run args) k f t.

(** C3 as the specification states it: a confirmation timeout is recorded
    as an Issue, and once the gateway is connected no exception ends the
    run. *)
Definition failures_absorbed_as_stated (W : world) (cfg : Settings) (args : Args)
    (gw : Gateway) (fleets : list Fleet) : Prop :=
  let x := run_main W cfg args gw fleets in
  (forall h, In (EvWaited h false) (trace_of x) ->
             exists iss, In (EvIssue h iss) (trace_of x)) /\
  (gateway_connected (trace_of x) -> returned (outcome_of x)).

(** Everything works, and the nodes stay reachable after their shutdown
    command. *)
Definition world_nodes_stay_up : world :=
  mkWorld (fun _ _ _ => None) (fun _ => None) (fun _ => None)
    (fun _ => inr (0%Z, "10.0.0.7 host OK", "")) (fun _ => inr (0%Z, "", ""))
    (fun _ => (None, 0%N))
    (fun _ => Some "secret") (fun _ => inr "secret") (fun _ => "typed") digits.

(** A live, strict run with a two-second node timeout. *)
Definition live_short : Args := mkArgs false (Some 2%Z) (Some 1%Z) false.


Definition is_gateway_failure (e : event) : bool :=
  match e with EvConnect Gw _ _ _ _ _ (Some _) => true | _ => false end.

Definition is_gateway_connect (e : event) : bool :=
  match e with EvConnect Gw _ _ _ _ _ _ => true | _ => false end.


(** ** A dry run beside a live run *)

(** What only a live run does: send a command, probe, wait. *)
Definition is_live_effect (e : event) : bool :=
  match e with EvExec _ _ _ _ | EvProbe _ _ | EvWaited _ _ => true | _ => false end.

(** What a dry run is meant to share with a live run: credential
    resolution, the key, every channel and connection attempt with its
    outcome, every diagnostic command with its outcome, every Issue. *)
Definition is_shared (e : event) : bool :=
  match e with
  | EvPrompt _ | EvEnvGet _ | EvFileRead _ | EvReadKey _ _ _ _
  | EvOpenChannel _ _ _ _ | EvConnect _ _ _ _ _ _ _ | EvRun _ _ _ | EvIssue _ _ => true
  | _ => false
  end.

Definition shared (t : trace) : trace := filter is_shared t.

Definition with_dry_run (b : bool) (args : Args) : Args :=
  mkArgs b (node_timeout_arg args) (poll_interval_arg args) (non_strict args).

(** C4 as the specification states it: the dry run sends no command and
    never waits, and its connection attempts, pre-checks and diagnostics
    are exactly those of the live run. *)
Definition dry_run_as_stated (W : world) (cfg : Settings) (args : Args) (gw : Gateway)
    (fleets : list Fleet) : Prop :=
  let dry := run_main W cfg (with_dry_run true args) gw fleets in
  let live := run_main W cfg (with_dry_run false args) gw fleets in
  existsb is_live_effect (trace_of dry) = false /\
  shared (trace_of dry) = shared (trace_of live).

(** Everything works, except that sending a command raises. *)
Definition world_poweroff_raises : world :=
  mkWorld (fun _ _ _ => None) (fun _ => None) (fun _ => None)
    (fun _ => inr (0%Z, "10.0.0.7 host OK", "")) (fun _ => inl ssh_err)
    (fun _ => (Some chan_err, 0%N))
    (fun _ => Some "secret") (fun _ => inr "secret") (fun _ => "typed") digits.

(** Two nodes, and a fleet with both. *)
Definition ws2 : Fleet := mkFleet "ws2" "admin" (Some "pw2") (Some ["n1"; "n2"]) 22 true.

(** Two states in which the next channel, connection and diagnostic
    command have the same outcome, with the same Issues so far. *)
Definition sim (s1 s2 : state) : Prop :=
  n_open s1 = n_open s2 /\ n_connect s1 = n_connect s2 /\ n_run s1 = n_run s2 /\
  issues s1 = issues s2.

Definition res_rel {A B} (R : A -> B -> Prop) (r1 : res A) (r2 : res B) : Prop :=
  match r1, r2 with
  | Ret a, Ret b => R a b
  | Raise e1, Raise e2 => e1 = e2
  | _, _ => False
  end.

(** The two runs did the same shared things and end alike. *)
Definition agree {A B} (R : A -> B -> Prop)
    (x1 : res A * state * trace) (x2 : res B * state * trace) : Prop :=
  sim (state_of x1) (state_of x2) /\
  shared (trace_of x1) = shared (trace_of x2) /\
  res_rel R (outcome_of x1) (outcome_of x2).

(** The first run was cut short by a command that raised: what it shared
    is the beginning of what the second shares. *)
Definition cut (W : world) {A B}
    (x1 : res A * state * trace) (x2 : res B * state * trace) : Prop :=
  (exists k e, w_exec W k = inl e) /\
  (exists e, outcome_of x1 = Raise e) /\
  exists l, shared (trace_of x2) = shared (trace_of x1) ++ l.

Definition rel0 {A B} (R : A -> B -> Prop) (m1 : M A) (m2 : M B) : Prop :=
  forall s1 s2, sim s1 s2 -> agree R (m1 s1) (m2 s2).

Definition rel (W : world) {A B} (R : A -> B -> Prop) (m1 : M A) (m2 : M B) : Prop :=
  forall s1 s2, sim s1 s2 -> agree R (m1 s1) (m2 s2) \/ cut W (m1 s1) (m2 s2).

(** [m] returns, shares nothing and leaves the shared part of the state
    alone. *)
Definition silent {A} (m : M A) : Prop :=
  forall s, returned (outcome_of (m s)) /\ shared (trace_of (m s)) = [] /\
            sim s (state_of (m s)).

Definition any {A B} (a : A) (b : B) : Prop := True.

(** The results of the two [try/except] blocks of a node iteration. *)
Definition same_branch {A B C} (x : A + C) (y : B + C) : Prop :=
  match x, y with
  | inl _, inl _ => True
  | inr c, inr c' => c = c'
  | _, _ => False
  end.

Definition same_session (x y : option SSH) : Prop := x = y.


(** ** What a returned Diagnosis looks like *)

Definition diagnosis_wellformed (W : world) (d : Diagnosis) : Prop :=
  dns_ok d <> None /\ tcp_ok d <> None /\
  (dns_ok d = Some true <-> dns_ips d <> []) /\
  NoDup (dns_ips d) /\
  Forall (fun ip => looks_like_ip W ip = true) (dns_ips d) /\
  (dns_ok d = Some false <-> notes d <> []) /\
  (tcp_ok d = Some true -> tcp_method d = Some "nc" \/ tcp_method d = Some "/dev/tcp") /\
  (tcp_ok d = Some false -> tcp_method d = Some "nc|/dev/tcp").


(** ** The verdict of a wait *)

(** What the probes of a trace reported, in order: [true] for reachable. *)
Definition probe_outcome (e : event) : list bool :=
  match e with EvProbe _ b => [b] | _ => [] end.

Definition probe_outcomes (t : trace) : list bool := flat_map probe_outcome t.


(** ** The password map *)

(** The last fleet of the plan with name [k]. *)
Fixpoint last_named (k : string) (fleets : list Fleet) : option Fleet :=
  match fleets with
  | [] => None
  | f :: rest =>
      match last_named k rest with
      | Some g => Some g
      | None => if String.eqb (name f) k then Some f else None
      end
  end.

(** The password the credential of [f] resolves to, when it does. *)
Definition resolved (W : world) (f : Fleet) : option string :=
  match outcome_of (_resolve_password W (password f) (password_label f) initial_state) with
  | Ret pw => Some pw
  | Raise _ => None
  end.

Definition ws_dup : Fleet := mkFleet "ws1" "root" (Some "pw2") (Some []) 22 true.


(** ** Nodes before their fleet host *)

(** [precedes p q seen t]: every event of [t] that satisfies [q] comes
    after an event that satisfies [p] ([seen]: one came before [t]). *)
Fixpoint precedes (p q : event -> bool) (seen : bool) (t : trace) : bool :=
  match t with
  | [] => true
  | e :: t' => (if q e then seen else true) && precedes p q (seen || p e) t'
  end.

(** The wait for node [j] of fleet [i] confirmed it down. *)
Definition is_confirmed (i j : nat) (e : event) : bool :=
  match e with
  | EvWaited (Nd i' j') true => Nat.eqb i' i && Nat.eqb j' j
  | _ => false
  end.



(** What the loop over the fleets guarantees about the order of the
    confirmations and the fleet hosts' shutdowns. *)
Definition fleets_confirmed (dry : bool) (fleets : list Fleet) (r : res unit) (t : trace)
    : Prop :=
  Forall (fleets_event dry 0) t /\
  forall k f j node,
    nth_error fleets k = Some f -> nth_error (node_list f) j = Some node ->
    precedes (is_confirmed k j) (is_fleet_shutdown k) false t = true.


(** ** Runs without the protective skip

    The fleet host at position [i] was reached: either its connection
    failed and was recorded, or [shutdown_host] was called for it and its
    session closed. *)
Definition fleet_reached (dry : bool) (i : nat) (f : Fleet) (t : trace) : Prop :=
  fleet_connect_failed i t \/ fleet_shut_down i f dry t.

Definition fleets_reached (args : Args) (fleets : list Fleet) (r : res unit) (t : trace)
    : Prop :=
  Forall (fleets_event (dry_run args) 0) t /\
  (r = Ret tt ->
   forall k f, nth_error fleets k = Some f -> fleet_reached (dry_run args) k f t).

Definition live_non_strict : Args := mkArgs false None None true.

(** * Properties *)

(** ** The failure classifier *)

Lemma isinstance_kind (e : exn) :
  kind_of_class (exc_cls e) =
    if isinstance e AuthenticationExceptionC then AuthenticationRejected
    else if isinstance e BadHostKeyExceptionC then HostKeyMismatch
    else if isinstance e ChannelExceptionC then ChannelFailure
    else if isinstance e SSHExceptionC then OtherProtocolError
    else AnythingElse.
Proof. destruct e as [c txt]; destruct c; reflexivity. Qed.

Lemma reason_text_inj (r r' : Reason) : reason_text r = reason_text r' -> r = r'.
Proof. destruct r, r'; simpl; intros H; try reflexivity; discriminate H. Qed.

(** C7: [classify_failure] is a function of its two arguments alone and
    returns, for every error and optional diagnosis, the (reason, hint) pair
    of the first matching row of the table; the seven reasons are pairwise
    different texts, so exactly one row is reported; the unknown-error row
    carries the raw error text; and the diagnosis matters only for a
    channel failure. *)
Theorem classify_failure_table :
  (forall (e : exn) (d : option Diagnosis),
      classify_failure e d =
        (reason_text (Classify (kind_of_class (exc_cls e)) d),
         hint_text (Classify (kind_of_class (exc_cls e)) d) (exc_str e))) /\
  (forall r r', reason_text r = reason_text r' -> r = r') /\
  (forall (e : exn) (d : option Diagnosis),
      Classify (kind_of_class (exc_cls e)) d = RUnknownError ->
      snd (classify_failure e d) = exc_str e) /\
  (forall (e : exn) (d d' : option Diagnosis),
      kind_of_class (exc_cls e) <> ChannelFailure ->
      classify_failure e d = classify_failure e d').
Proof.
  split; [|split; [|split]].
  - intros [c txt] d. destruct c; try reflexivity.
    destruct d as [d|]; [|reflexivity].
    unfold classify_failure; simpl.
    destruct (is_False (dns_ok d)); [reflexivity|].
    destruct (is_False (tcp_ok d)); reflexivity.
  - exact reason_text_inj.
  - intros [c txt] d. destruct c; simpl; try discriminate; try reflexivity.
    destruct d as [d|]; simpl; try discriminate.
    destruct (is_False (dns_ok d)); try discriminate.
    destruct (is_False (tcp_ok d)); discriminate.
  - intros [c txt] d d' H. destruct c; try reflexivity. now elim H.
Qed.

Lemma classify_failure_table_witness :
  kind_of_class (exc_cls auth_err) <> ChannelFailure /\
  classify_failure auth_err (Some (mkDiag (Some false) [] (Some false) None [])) =
    classify_failure auth_err None /\
  Classify (kind_of_class (exc_cls os_err)) None = RUnknownError /\
  snd (classify_failure os_err None) = "timed out".
Proof.
  assert (H : kind_of_class (exc_cls auth_err) <> ChannelFailure) by (simpl; discriminate).
  split; [exact H|]. split.
  - exact (proj2 (proj2 (proj2 classify_failure_table)) auth_err _ None H).
  - split; [reflexivity|].
    exact (proj1 (proj2 (proj2 classify_failure_table)) os_err None eq_refl).
Defined.

(** ** The reachability prober and the polling loop *)

Section Wait.

Variable W : world.
Variables (transport : SSH) (dest : hop) (host : string) (port : Z).
Variables (deadline interval : Z).
Hypothesis interval_pos : (1 <= interval)%Z.

Local Abbreviation loop fuel := (wait_loop W fuel transport dest host port deadline interval).

(** One probe: it never raises, it advances the clock by its duration. *)
Lemma is_ssh_reachable_run (s : state) :
  is_ssh_reachable_via_transport W transport dest host port s =
    (Ret (match fst (w_probe W (n_probe s)) with None => true | Some _ => false end),
     mkState (now s + Z.of_N (snd (w_probe W (n_probe s)))) (n_open s) (n_connect s) (n_run s)
             (n_exec s) (S (n_probe s)) (issues s),
     [EvProbe (mkChannel (ssh_hop transport) dest)
        (match fst (w_probe W (n_probe s)) with None => true | Some _ => false end)]).
Proof.
  unfold is_ssh_reachable_via_transport, try_except, bind, probe_open_channel, ret.
  destruct (w_probe W (n_probe s)) as [[e|] dur]; simpl; reflexivity.
Qed.

(** One unfolding of the loop. *)
Lemma wait_loop_S (fuel : nat) (s : state) :
  loop (S fuel) s =
    if (now s <? deadline)%Z then
      match is_ssh_reachable_via_transport W transport dest host port s with
      | (Ret reachable, s1, t1) =>
          if negb reachable then
            Some (Ret true, s1, t1 ++ [EvPrint (MsgHostDown host)])
          else
            match time_sleep (1000 * interval) s1 with
            | (_, s2, t2) =>
                match loop fuel s2 with
                | Some (r, s3, t3) => Some (r, s3, t1 ++ t2 ++ t3)
                | None => None
                end
            end
      | (Raise e, s1, t1) => Some (Raise e, s1, t1)
      end
    else Some (Ret false, s, [EvPrint (MsgWaitTimeout host)]).
Proof. reflexivity. Qed.

(** Termination: with one unit of fuel per second left before the deadline,
    and one more for the last test, the loop returns. *)
Lemma wait_loop_enough_fuel (k : nat) :
  forall s, (deadline - now s <= 1000 * Z.of_nat k)%Z -> loop (S k) s <> None.
Proof.
  induction k as [|k IH]; intros s Hs; rewrite wait_loop_S.
  - destruct (Z.ltb_spec (now s) deadline); [lia|congruence].
  - destruct (Z.ltb_spec (now s) deadline); [|congruence].
    rewrite is_ssh_reachable_run.
    destruct (fst (w_probe W (n_probe s))); cbn [negb]; [congruence|].
    unfold time_sleep.
    match goal with |- context [loop (S k) ?s2] =>
      specialize (IH s2); destruct (loop (S k) s2) as [[[r s3] t3]|] end.
    + congruence.
    + exfalso. apply IH; [|reflexivity]. cbn [now].
      pose proof (N2Z.is_nonneg (snd (w_probe W (n_probe s)))). lia.
Qed.

(** The loop never raises. *)
Lemma wait_loop_returns (fuel : nat) :
  forall s r s' t, loop fuel s = Some (r, s', t) -> exists ok, r = Ret ok.
Proof.
  induction fuel as [|fuel IH]; intros s r s' t; [discriminate|].
  rewrite wait_loop_S. destruct (now s <? deadline)%Z.
  - rewrite is_ssh_reachable_run.
    destruct (fst (w_probe W (n_probe s))); cbn [negb].
    + intros H; injection H as <- _ _; eauto.
    + unfold time_sleep.
      match goal with |- context [loop fuel ?s2] =>
        specialize (IH s2); destruct (loop fuel s2) as [[[r3 s3] t3]|] end;
        [|discriminate].
      intros H; injection H as <- _ _. eapply IH; reflexivity.
  - intros H; injection H as <- _ _; eauto.
Qed.

(** When no probe reports the host unreachable, the loop returns false, not
    before the deadline, and less than one interval plus one probe after
    it. *)
Lemma wait_loop_timeout (fuel : nat) :
  probe_never_reports_unreachable W ->
  forall s r s' t,
    loop fuel s = Some (r, s', t) ->
    r = Ret false /\
    (deadline <= now s')%Z /\
    (forall D, (forall k, Z.of_N (snd (w_probe W k)) <= D)%Z ->
               (now s < deadline)%Z -> (now s' < deadline + 1000 * interval + D)%Z) /\
    ((deadline <= now s)%Z -> s' = s /\ t = [EvPrint (MsgWaitTimeout host)]).
Proof.
  intros Hup. induction fuel as [|fuel IH]; intros s r s' t; [discriminate|].
  rewrite wait_loop_S. destruct (Z.ltb_spec (now s) deadline) as [Hlt|Hge].
  - rewrite is_ssh_reachable_run, (Hup (n_probe s)). cbn [negb].
    unfold time_sleep.
    match goal with |- context [loop fuel ?s2] =>
      specialize (IH s2); destruct (loop fuel s2) as [[[r3 s3] t3]|] end;
      [|discriminate].
    intros H; injection H as <- <- _.
    destruct (IH _ _ _ eq_refl) as (-> & Hd & Hlt' & Hge'). cbn [now] in *.
    pose proof (N2Z.is_nonneg (snd (w_probe W (n_probe s)))).
    repeat split; try lia.
    intros D HD _. pose proof (HD (n_probe s)).
    destruct (Z_lt_le_dec (now s + Z.of_N (snd (w_probe W (n_probe s))) + 1000 * interval)
                deadline) as [Hl|Hl].
    + specialize (Hlt' D HD Hl). lia.
    + destruct (Hge' Hl) as [-> _]. cbn [now]. lia.
  - intros H; injection H as <- <- <-. repeat split; try lia.
Qed.

End Wait.




(** ** The diagnostic engine *)

Section Diagnose.

Variable W : world.
Variable cfg : Settings.

Lemma run_run (ws : SSH) (cmd : string) (s : state) :
  _run W ws cmd s =
    (match w_run W (n_run s) with inr r => Ret r | inl e => Raise e end,
     mkState (now s) (n_open s) (n_connect s) (S (n_run s)) (n_exec s) (n_probe s) (issues s),
     [EvRun (ssh_hop ws) cmd
        (match w_run W (n_run s) with inr _ => None | inl e => Some e end)]).
Proof. reflexivity. Qed.

(** The resolver loop either leaves the dictionary as it is or records a
    successful resolution; an exception is one that a command raised. *)
Lemma dns_loop_spec (ws : SSH) (cmds : list string) :
  forall (result : Diagnosis) (s : state),
    match outcome_of (dns_loop W ws cmds result s) with
    | Ret r' =>
        (r' = result \/
         (dns_ok r' = Some true /\ tcp_ok r' = tcp_ok result /\ notes r' = notes result)) /\
        (target_unresolvable W -> r' = result)
    | Raise e => exists k, w_run W k = inl e
    end.
Proof.
  induction cmds as [|cmd rest IH]; intros result s.
  - cbn. split; [left; reflexivity | reflexivity].
  - cbn [dns_loop]. unfold bind. rewrite run_run.
    destruct (w_run W (n_run s)) as [e|[[rc out] err]] eqn:Er.
    + cbn. eauto.
    + cbv beta iota.
      assert (Hrest : forall s1 t1,
                 match outcome_of
                         (match dns_loop W ws rest result s1 with
                          | (r, s2, t2) => (r, s2, t1 ++ t2)
                          end) with
                 | Ret r' =>
                     (r' = result \/
                      (dns_ok r' = Some true /\ tcp_ok r' = tcp_ok result /\
                       notes r' = notes result)) /\
                     (target_unresolvable W -> r' = result)
                 | Raise e => exists k, w_run W k = inl e
                 end).
      { intros s1 t1. specialize (IH result s1). unfold outcome_of in *.
        destruct (dns_loop W ws rest result s1) as [[r2 s2] t2]. exact IH. }
      destruct (nonempty_str (strip out)).
      * destruct (parse_ips W out) as [|ip ips] eqn:Ep.
        -- apply Hrest.
        -- cbn. split; [right; repeat split|].
           intros Hun. specialize (Hun _ _ _ _ Er). congruence.
      * apply Hrest.
Qed.

(** [diagnose_on_remote] on every world: a Diagnosis has both verdicts set,
    and a note whenever resolution failed; an exception is one that a
    diagnostic command raised. *)
Lemma diagnose_on_remote_spec (ws : SSH) (target_host : string) (port : Z) (s : state) :
  match outcome_of (diagnose_on_remote W cfg ws target_host port s) with
  | Ret d =>
      (exists b, dns_ok d = Some b) /\ (exists b, tcp_ok d = Some b) /\
      (dns_ok d = Some false -> notes d <> []) /\
      (target_unresolvable W -> dns_ok d = Some false) /\
      (target_port_unreachable W -> tcp_ok d = Some false)
  | Raise e => exists k, w_run W k = inl e
  end.
Proof.
  unfold diagnose_on_remote.
  match goal with |- context [dns_loop W ws ?cmds ?r0] =>
    pose proof (dns_loop_spec ws cmds r0 s) as Hd; set (c := cmds) in *;
    set (d0 := r0) in * end.
  unfold bind at 1. unfold outcome_of in *.
  destruct (dns_loop W ws c d0 s) as [[[r1|e] s1] t1]; cbn [fst snd] in *; [|exact Hd].
  destruct Hd as [Hshape Hunres].
  match goal with |- context [match dns_ok r1 with None => ?a | Some _ => r1 end] =>
    set (d1 := match dns_ok r1 with None => a | Some _ => r1 end) in * end.
  assert (Hdns : exists b, dns_ok d1 = Some b).
  { subst d1. destruct (dns_ok r1) as [b|] eqn:E; [exists b; exact E | exists false; reflexivity]. }
  assert (Hnote : dns_ok d1 = Some false -> notes d1 <> []).
  { subst d1. destruct (dns_ok r1) as [b|] eqn:E.
    - intros Hb. destruct Hshape as [->|[Ht _]]; [discriminate E|congruence].
    - intros _. cbn. intros Hn. apply app_eq_nil in Hn. destruct Hn; discriminate. }
  assert (Hun : target_unresolvable W -> dns_ok d1 = Some false).
  { intros H. subst d1. rewrite (Hunres H). reflexivity. }
  clearbody d1. clear Hshape Hunres.
  unfold bind. rewrite !run_run.
  destruct (w_run W (n_run s1)) as [e|[[rc out] err]] eqn:E1; cbn [fst snd]; [eauto|].
  destruct (str_in "OK" out) eqn:Ok1; unfold ret; cbn [fst snd].
  { cbn [dns_ok tcp_ok notes]. repeat split; eauto.
    intros H. specialize (H _ _ _ _ E1). congruence. }
  rewrite run_run. cbn [n_run].
  destruct (w_run W (S (n_run s1))) as [e|[[rc2 out2] err2]] eqn:E2; cbn [fst snd]; [eauto|].
  destruct (str_in "OK" out2) eqn:Ok2; unfold ret; cbn [fst snd].
  { cbn [dns_ok tcp_ok notes]. repeat split; eauto.
    intros H. specialize (H _ _ _ _ E2). congruence. }
  cbn [dns_ok tcp_ok notes]. repeat split; eauto.
Qed.

End Diagnose.

(** ** Rules for [sat] *)

Section SatRules.

Context {A B : Type}.

Lemma sat_conseq (m : M A) (Q Q' : res A -> trace -> Prop) :
  sat m Q -> (forall r t, Q r t -> Q' r t) -> sat m Q'.
Proof. intros H HQ s. apply HQ, H. Qed.

Lemma sat_ret (a : A) (Q : res A -> trace -> Prop) : Q (Ret a) [] -> sat (ret a) Q.
Proof. intros H s. exact H. Qed.

Lemma sat_raise (e : exn) (Q : res A -> trace -> Prop) : Q (Raise e) [] -> sat (raise e) Q.
Proof. intros H s. exact H. Qed.

Lemma sat_bind (m : M A) (f : A -> M B) (Q : res B -> trace -> Prop) :
  sat m (fun r t1 =>
           match r with
           | Ret a => sat (f a) (fun r2 t2 => Q r2 (t1 ++ t2))
           | Raise e => Q (Raise e) t1
           end) ->
  sat (bind m f) Q.
Proof.
  intros H s. specialize (H s). unfold bind, outcome_of, trace_of in *.
  destruct (m s) as [[[a|e] s1] t1]; cbn [fst snd] in *; [|exact H].
  specialize (H s1). destruct (f a s1) as [[r2 s2] t2]. exact H.
Qed.

Lemma sat_try_except (body : M A) (handler : exn -> M A) (Q : res A -> trace -> Prop) :
  sat body (fun r t1 =>
              match r with
              | Ret a => Q (Ret a) t1
              | Raise e => sat (handler e) (fun r2 t2 => Q r2 (t1 ++ t2))
              end) ->
  sat (try_except body handler) Q.
Proof.
  intros H s. specialize (H s). unfold try_except, outcome_of, trace_of in *.
  destruct (body s) as [[[a|e] s1] t1]; cbn [fst snd] in *; [exact H|].
  specialize (H s1). destruct (handler e s1) as [[r2 s2] t2]. exact H.
Qed.

Lemma sat_try_finally (body : M A) (fin : M B) (Q : res (A * B) -> trace -> Prop) :
  sat body (fun r1 t1 =>
              sat fin (fun r2 t2 =>
                         match r2, r1 with
                         | Ret b, Ret a => Q (Ret (a, b)) (t1 ++ t2)
                         | Ret b, Raise e => Q (Raise e) (t1 ++ t2)
                         | Raise e2, _ => Q (Raise e2) (t1 ++ t2)
                         end)) ->
  sat (try_finally body fin) Q.
Proof.
  intros H s. specialize (H s). unfold try_finally, outcome_of, trace_of in *.
  destruct (body s) as [[r1 s1] t1]; cbn [fst snd] in *.
  specialize (H s1). destruct (fin s1) as [[[b|e2] s2] t2]; cbn [fst snd] in *.
  - destruct r1; exact H.
  - exact H.
Qed.

End SatRules.

(** The primitives. *)
Section SatPrimitives.

Variable W : world.

Lemma sat_emit (e : event) (Q : res unit -> trace -> Prop) :
  Q (Ret tt) [e] -> sat (emit e) Q.
Proof. intros H s. exact H. Qed.

Lemma sat_time_sleep (ms : Z) (Q : res unit -> trace -> Prop) :
  Q (Ret tt) [EvSleep ms] -> sat (time_sleep ms) Q.
Proof. intros H s. exact H. Qed.

Lemma sat_issues_append (h : hop) (iss : Issue) (Q : res unit -> trace -> Prop) :
  Q (Ret tt) [EvIssue h iss] -> sat (issues_append h iss) Q.
Proof. intros H s. exact H. Qed.

Lemma sat_issues_init (Q : res unit -> trace -> Prop) : Q (Ret tt) [] -> sat issues_init Q.
Proof. intros H s. exact H. Qed.

Lemma sat_get_issues (Q : res (list Issue) -> trace -> Prop) :
  (forall iss, Q (Ret iss) []) -> sat get_issues Q.
Proof. intros H s. apply H. Qed.

Lemma sat_close (c : SSH) (Q : res unit -> trace -> Prop) :
  Q (Ret tt) [EvClose (ssh_hop c)] -> sat (close c) Q.
Proof. intros H s. exact H. Qed.

Lemma sat_from_private_key_file (kind : key_kind) (p : string) (pw : option string)
    (Q : res string -> trace -> Prop) :
  (forall r, Q (match r with None => Ret p | Some e => Raise e end)
               [EvReadKey kind p pw r]) ->
  sat (from_private_key_file W kind p pw) Q.
Proof. intros H s. apply H. Qed.

Lemma sat_connect_host (host user : string) (port : Z) (pk pw : option string)
    (sock : option Channel) (Q : res SSH -> trace -> Prop) :
  (forall r,
      Q (match r with
         | None => Ret (mkSSH (match sock with Some ch => ch_dest ch | None => Gw end))
         | Some e => Raise e
         end)
        [EvConnect (match sock with Some ch => ch_dest ch | None => Gw end)
           host user port pk pw r]) ->
  sat (connect_host W host user port pk pw sock) Q.
Proof. intros H s. apply H. Qed.

Lemma sat_open_channel (transport : SSH) (dest : hop) (host : string) (port : Z)
    (Q : res Channel -> trace -> Prop) :
  (forall r,
      Q (match r with
         | None => Ret (mkChannel (ssh_hop transport) dest)
         | Some e => Raise e
         end)
        [EvOpenChannel (mkChannel (ssh_hop transport) dest) host port r]) ->
  sat (open_direct_tcpip_channel W transport dest host port) Q.
Proof. intros H s. apply H. Qed.

Lemma sat_run (ws : SSH) (cmd : string) (Q : res (Z * string * string) -> trace -> Prop) :
  (forall x, Q (Ret x) [EvRun (ssh_hop ws) cmd None]) ->
  (forall e, Q (Raise e) [EvRun (ssh_hop ws) cmd (Some e)]) ->
  sat (_run W ws cmd) Q.
Proof.
  intros H1 H2 s. unfold _run, outcome_of, trace_of; cbn [fst snd].
  destruct (w_run W (n_run s)); [apply H2 | apply H1].
Qed.

Lemma sat_run_remote_command (client : SSH) (command : string) (sudo : bool)
    (pw : option string) (Q : res Z -> trace -> Prop) :
  (forall cmd stdin code, Q (Ret code) [EvExec (ssh_hop client) cmd stdin None]) ->
  (forall cmd stdin e, Q (Raise e) [EvExec (ssh_hop client) cmd stdin (Some e)]) ->
  sat (run_remote_command W client command sudo pw) Q.
Proof.
  intros H1 H2 s. unfold run_remote_command, outcome_of, trace_of; cbn [fst snd].
  destruct (w_exec W (n_exec s)) as [e|[[code out] err]]; [apply H2 | apply H1].
Qed.

Lemma sat_getpass (label : string) (Q : res string -> trace -> Prop) :
  (forall pw, Q (Ret pw) [EvPrompt label]) -> sat (getpass W label) Q.
Proof. intros H s. apply H. Qed.

Lemma sat_environ_get (key : string) (Q : res (option string) -> trace -> Prop) :
  (forall v, Q (Ret v) [EvEnvGet key]) -> sat (environ_get W key) Q.
Proof. intros H s. apply H. Qed.

Lemma sat_read_file (path : string) (Q : res string -> trace -> Prop) :
  (forall r, Q r [EvFileRead path]) -> sat (read_file W path) Q.
Proof. intros H s. apply H. Qed.

(** The wait returns a verdict, after probes, sleeps and console lines
    only, and says so last. *)
Lemma wait_loop_events (transport : SSH) (dest : hop) (host : string) (port : Z)
    (deadline interval : Z) (fuel : nat) :
  forall s r s' t,
    wait_loop W fuel transport dest host port deadline interval s = Some (r, s', t) ->
    Forall (wait_event (ssh_hop transport) dest) t.
Proof.
  induction fuel as [|fuel IH]; intros s r s' t; [discriminate|].
  rewrite wait_loop_S. destruct (now s <? deadline)%Z.
  - rewrite is_ssh_reachable_run.
    destruct (fst (w_probe W (n_probe s))); cbn [negb].
    + intros H; injection H as _ _ <-. repeat constructor.
    + unfold time_sleep.
      match goal with |- context [wait_loop W fuel _ _ _ _ _ _ ?s2] =>
        specialize (IH s2);
        destruct (wait_loop W fuel transport dest host port deadline interval s2)
          as [[[r3 s3] t3]|] end; [|discriminate].
      intros H; injection H as _ _ <-.
      repeat constructor. eapply IH; reflexivity.
  - intros H; injection H as _ _ <-. repeat constructor.
Qed.

Lemma sat_wait (transport : SSH) (dest : hop) (host : string) (port T P : Z)
    (Q : res bool -> trace -> Prop) :
  (forall ok t, Forall (wait_event (ssh_hop transport) dest) t ->
                Q (Ret ok) (t ++ [EvWaited dest ok])) ->
  sat (wait_for_host_down_via_transport W transport dest host port T P) Q.
Proof.
  intros H s. unfold wait_for_host_down_via_transport, outcome_of, trace_of.
  pose proof (wait_loop_enough_fuel W transport dest host port (now s + 1000 * T)
                (Z.max 1 P) ltac:(lia) (Z.to_nat T) s ltac:(lia)) as Hfuel.
  destruct (wait_loop W (S (Z.to_nat T)) transport dest host port (now s + 1000 * T)
              (Z.max 1 P) s) as [[[r s'] t]|] eqn:E; [|congruence].
  destruct (wait_loop_returns _ _ _ _ _ _ _ _ _ _ _ _ E) as [ok ->].
  cbn [fst snd]. apply (H ok (EvPrint (MsgWaiting host T) :: t)).
  constructor; [constructor|]. eapply wait_loop_events; eassumption.
Qed.

End SatPrimitives.

(** ** Walking through monadic code *)

Ltac sat_step :=
  lazymatch goal with
  | |- sat (bind _ _) _ => apply sat_bind
  | |- sat (try_except _ _) _ => apply sat_try_except
  | |- sat (try_finally _ _) _ => apply sat_try_finally
  | |- sat (ret _) _ => apply sat_ret
  | |- sat (raise _) _ => apply sat_raise
  | |- sat (emit _) _ => apply sat_emit
  | |- sat (print _) _ => apply sat_emit
  | |- sat (close _) _ => apply sat_close
  | |- sat (time_sleep _) _ => apply sat_time_sleep
  | |- sat (issues_append _ _) _ => apply sat_issues_append
  | |- sat issues_init _ => apply sat_issues_init
  | |- sat get_issues _ => apply sat_get_issues; intros ?
  | |- sat (from_private_key_file _ _ _ _) _ =>
      apply sat_from_private_key_file; intros [?|]
  | |- sat (connect_host _ _ _ _ _ _ _) _ => apply sat_connect_host; intros [?|]
  | |- sat (open_direct_tcpip_channel _ _ _ _ _) _ => apply sat_open_channel; intros [?|]
  | |- sat (_run _ _ _) _ => apply sat_run; [intros [[? ?] ?] | intros ?]
  | |- sat (run_remote_command _ _ _ _ _) _ =>
      apply sat_run_remote_command; [intros ? ? ? | intros ? ? ?]
  | |- sat (getpass _ _) _ => apply sat_getpass; intros ?
  | |- sat (environ_get _ _) _ => apply sat_environ_get; intros [?|]
  | |- sat (read_file _ _) _ => apply sat_read_file; intros [?|?]
  | |- sat (wait_for_host_down_via_transport _ _ _ _ _ _ _) _ =>
      apply sat_wait; intros ? ? ?
  | |- sat (if ?b then _ else _) _ => destruct b eqn:?
  | |- sat (match ?x with _ => _ end) _ => destruct x eqn:?
  end; cbv beta iota.

(** [sat_walk sub]: walk to the leaves; [sub] deals with the calls that
    have a lemma of their own. *)
Ltac sat_walk sub := repeat first [sat_step | sub; cbv beta iota].

Ltac no_sub := fail.

(** Use the lemma [H : sat m P] for the call at the head of the goal. *)
Ltac sat_use H := eapply sat_conseq; [apply H | intros [?|?] ? ?].

Create HintDb trace.

Lemma raised_in_app_l (t t' : trace) (e : exn) : raised_in t e -> raised_in (t ++ t') e.
Proof.
  intros [(h & c & H)|(h & c & i & H)]; [left|right]; repeat eexists;
    apply in_or_app; left; exact H.
Qed.

Lemma raised_in_app_r (t t' : trace) (e : exn) : raised_in t' e -> raised_in (t ++ t') e.
Proof.
  intros [(h & c & H)|(h & c & i & H)]; [left|right]; repeat eexists;
    apply in_or_app; right; exact H.
Qed.

Lemma raised_in_run (h : hop) (cmd : string) (e : exn) : raised_in [EvRun h cmd (Some e)] e.
Proof. left. exists h, cmd. left. reflexivity. Qed.

Lemma raised_in_exec (h : hop) (cmd : string) (i : option string) (e : exn) :
  raised_in [EvExec h cmd i (Some e)] e.
Proof. right. exists h, cmd, i. left. reflexivity. Qed.

#[local] Hint Resolve raised_in_app_l raised_in_app_r raised_in_run raised_in_exec : trace.
#[local] Hint Constructors run_event wait_event node_event fleet_event Forall : trace.

Lemma Forall_app_intro {X} (P : X -> Prop) (l l' : list X) :
  Forall P l -> Forall P l' -> Forall P (l ++ l').
Proof. intros; apply Forall_app; split; assumption. Qed.

#[local] Hint Resolve Forall_app_intro : trace.

(** Leaves that ask who raised an exception. *)
Ltac raised_leaf :=
  let e := fresh "e" in let H := fresh "H" in
  intros e H; first [discriminate H | injection H as <-]; eauto 12 with trace.

Section Events.

Variable W : world.
Variable cfg : Settings.

Lemma dns_loop_events (ws : SSH) (cmds : list string) :
  forall result,
    sat (dns_loop W ws cmds result)
        (fun r t => Forall (run_event (ssh_hop ws)) t /\
                    forall e, r = Raise e -> raised_in t e).
Proof.
  induction cmds as [|cmd rest IH]; intros result; cbn [dns_loop].
  - sat_walk no_sub. split; [constructor | raised_leaf].
  - sat_walk ltac:(sat_use (IH result)).
    all: try match goal with H : _ /\ _ |- _ => destruct H end.
    all: split; [eauto 12 with trace | raised_leaf].
Qed.

Lemma diagnose_events (ws : SSH) (target_host : string) (port : Z) :
  sat (diagnose_on_remote W cfg ws target_host port)
      (fun r t => Forall (run_event (ssh_hop ws)) t /\
                  forall e, r = Raise e -> raised_in t e).
Proof.
  unfold diagnose_on_remote.
  sat_walk ltac:(sat_use dns_loop_events).
  all: try match goal with H : _ /\ _ |- _ => destruct H end.
  all: split; [eauto 12 with trace | raised_leaf].
Qed.

End Events.

#[local] Hint Constructors shutdown_event : trace.

Lemma shutdown_node_event (dry : bool) (i j : nat) (e : event) :
  shutdown_event dry (Nd i j) e -> node_event dry i j e.
Proof. intros []; auto with trace. Qed.

Lemma shutdown_fleet_event (dry : bool) (i : nat) (e : event) :
  shutdown_event dry (Ws i) e -> fleet_event dry i e.
Proof.
  intros []; try (constructor; assumption).
  apply (fe_node dry i 0). constructor.
Qed.


Lemma fe_print (dry : bool) (i : nat) (m : message) : fleet_event dry i (EvPrint m).
Proof. apply (fe_node dry i 0). constructor. Qed.

Lemma fe_sleep (dry : bool) (i : nat) (ms : Z) : fleet_event dry i (EvSleep ms).
Proof. apply (fe_node dry i 0). constructor. Qed.

#[local] Hint Resolve fe_print fe_sleep : trace.

Lemma run_node_event (dry : bool) (i j : nat) (e : event) :
  run_event (Ws i) e -> node_event dry i j e.
Proof. intros []; auto with trace. Qed.

Lemma wait_node_event (i j : nat) (e : event) :
  wait_event (Ws i) (Nd i j) e -> node_event false i j e.
Proof. intros []; auto with trace. Qed.

Lemma run_fleet_event (dry : bool) (i : nat) (e : event) :
  run_event Gw e -> fleet_event dry i e.
Proof. intros []; auto with trace. Qed.

Lemma Forall_weaken {X} (P P' : X -> Prop) (l : list X) :
  (forall x, P x -> P' x) -> Forall P l -> Forall P' l.
Proof. intros H HF. eapply Forall_impl; eassumption. Qed.

(** Bring what is known about the parts of a trace to the alphabet of the
    node iteration. *)
Ltac split_hyps :=
  repeat match goal with H : _ /\ _ |- _ => destruct H end.

Ltac flag_hyps :=
  repeat match goal with
    | H : negb _ = true |- _ => apply negb_true_iff in H
    | H : negb _ = false |- _ => apply negb_false_iff in H
    | H : _ && _ = true |- _ => apply andb_true_iff in H; destruct H
    end.

Ltac to_node_events d i j :=
  repeat match goal with
    | H : Forall (run_event (Ws i)) _ |- _ =>
        apply (Forall_weaken _ _ _ (run_node_event d i j)) in H
    | H : Forall (shutdown_event _ (Nd i j)) _ |- _ =>
        apply (Forall_weaken _ _ _ (shutdown_node_event d i j)) in H
    | H : Forall (wait_event (Ws i) (Nd i j)) _ |- _ =>
        apply (Forall_weaken _ _ _ (wait_node_event i j)) in H
    end.

Ltac node_leaf :=
  cbn [ssh_hop ch_dest ch_via] in *; split_hyps; flag_hyps;
  repeat match goal with H : dry_run _ = _ |- _ => rewrite H in * end;
  lazymatch goal with
  | |- Forall (node_event ?d ?i ?j) _ /\ _ =>
      to_node_events d i j; split; [eauto 20 with trace | try raised_leaf]
  end.

Section OrchestratorEvents.

Variable W : world.
Variable cfg : Settings.
Variable args : Args.

Lemma shutdown_host_events (tag : string) (client : SSH) (sudo : bool)
    (pw : option string) (dry : bool) :
  sat (shutdown_host W cfg tag client sudo pw dry)
      (fun r t => Forall (shutdown_event dry (ssh_hop client)) t /\
                  forall e, r = Raise e -> raised_in t e).
Proof.
  unfold shutdown_host. sat_walk no_sub.
  all: split; [eauto 12 with trace | raised_leaf].
Qed.

Lemma process_node_events (f : Fleet) (i : nat) (pw : string) (j : nat) (node : string)
    (parent_skip : bool) :
  sat (process_node W cfg args f i (mkSSH (Ws i)) pw j node parent_skip)
      (fun r t => Forall (node_event (dry_run args) i j) t /\
                  forall e, r = Raise e -> raised_in t e).
Proof.
  unfold process_node.
  sat_walk ltac:(first [sat_use diagnose_events | sat_use shutdown_host_events]).
  all: node_leaf.
Qed.

Lemma for_nodes_events (f : Fleet) (i : nat) (pw : string) (nodes : list string) :
  forall (j : nat) (parent_skip : bool),
    sat (for_nodes W cfg args f i (mkSSH (Ws i)) pw j nodes parent_skip)
        (fun r t => Forall (nodes_event (dry_run args) i) t /\
                    forall e, r = Raise e -> raised_in t e).
Proof.
  induction nodes as [|node rest IH]; intros j parent_skip; cbn [for_nodes].
  - sat_walk no_sub. split; [constructor | raised_leaf].
  - sat_walk ltac:(first [sat_use process_node_events | sat_use IH]);
      split_hyps;
      repeat match goal with H : Forall (node_event _ _ _) _ |- _ =>
               apply (Forall_weaken _ (nodes_event (dry_run args) i)) in H;
               [|intros x Hx; exists j; exact Hx] end;
      (split; [eauto 12 with trace | raised_leaf]).
Qed.

Lemma nodes_fleet_event (dry : bool) (i : nat) (e : event) :
  nodes_event dry i e -> fleet_event dry i e.
Proof. intros [j H]. exact (fe_node dry i j e H). Qed.

Lemma process_fleet_events (gw_conn : SSH) (fleet_pw_map : list (string * string))
    (i : nat) (f : Fleet) :
  ssh_hop gw_conn = Gw ->
  dict_get (name f) fleet_pw_map <> None ->
  nodes f <> None ->
  sat (process_fleet W cfg args gw_conn fleet_pw_map i f)
      (fun r t => Forall (fleet_event (dry_run args) i) t /\
                  forall e, r = Raise e -> raised_in t e).
Proof.
  intros Hgw Hpw Hn. unfold process_fleet.
  destruct (dict_get (name f) fleet_pw_map) as [pw|]; [|congruence].
  destruct (nodes f) as [l|]; [|congruence].
  sat_walk ltac:(first [sat_use diagnose_events | sat_use shutdown_host_events
                       | sat_use for_nodes_events]);
    cbn [ssh_hop ch_dest ch_via] in *; split_hyps; rewrite ?Hgw in *;
    repeat match goal with
      | H : Forall (run_event Gw) _ |- _ =>
          apply (Forall_weaken _ _ _ (run_fleet_event (dry_run args) i)) in H
      | H : Forall (shutdown_event _ (Ws i)) _ |- _ =>
          apply (Forall_weaken _ _ _ (shutdown_fleet_event (dry_run args) i)) in H
      | H : Forall (nodes_event _ i) _ |- _ =>
          apply (Forall_weaken _ _ _ (nodes_fleet_event (dry_run args) i)) in H
      end;
    (split; [eauto 20 with trace | try raised_leaf]).
Qed.

Lemma fleets_event_weaken (dry : bool) (lo lo' : nat) (e : event) :
  lo' <= lo -> fleets_event dry lo e -> fleets_event dry lo' e.
Proof. intros H (i & Hi & He). exists i. split; [lia | exact He]. Qed.

Lemma for_fleets_events (gw_conn : SSH) (fleet_pw_map : list (string * string))
    (fleets : list Fleet) :
  ssh_hop gw_conn = Gw ->
  passwords_known fleet_pw_map fleets ->
  nodes_listed fleets ->
  forall i,
    sat (for_fleets W cfg args gw_conn fleet_pw_map i fleets)
        (fun r t => Forall (fleets_event (dry_run args) i) t /\
                    forall e, r = Raise e -> raised_in t e).
Proof.
  intros Hgw. induction fleets as [|f rest IH]; intros Hpw Hnl i; cbn [for_fleets].
  - sat_walk no_sub. split; [constructor | raised_leaf].
  - assert (Hf : dict_get (name f) fleet_pw_map <> None) by (apply Hpw; left; reflexivity).
    assert (Hrest : passwords_known fleet_pw_map rest)
      by (intros g Hg; apply Hpw; right; exact Hg).
    assert (Hn : nodes f <> None) by (apply Hnl; left; reflexivity).
    assert (Hnrest : nodes_listed rest) by (intros g Hg; apply Hnl; right; exact Hg).
    sat_walk ltac:(first [sat_use (process_fleet_events gw_conn fleet_pw_map i f Hgw Hf Hn)
                         | sat_use (IH Hrest Hnrest (S i))]);
      split_hyps;
      repeat match goal with
        | H : Forall (fleet_event _ i) _ |- _ =>
            apply (Forall_weaken _ (fleets_event (dry_run args) i)) in H;
            [|intros x Hx; exists i; split; [lia | exact Hx]]
        | H : Forall (fleets_event _ (S i)) _ |- _ =>
            apply (Forall_weaken _ (fleets_event (dry_run args) i)) in H;
            [|intros x Hx; apply (fleets_event_weaken _ (S i)); [lia | exact Hx]]
        end;
      (split; [eauto 12 with trace | raised_leaf]).
Qed.

End OrchestratorEvents.

(** ** Credentials *)

Lemma dict_get_set_same (k v : string) (d : list (string * string)) :
  dict_get k (dict_set k v d) = Some v.
Proof.
  induction d as [|[k' v'] d IH]; cbn.
  - rewrite String.eqb_refl. reflexivity.
  - destruct (String.eqb k' k) eqn:E; cbn.
    + rewrite String.eqb_refl. reflexivity.
    + rewrite E. exact IH.
Qed.

Lemma dict_get_set_keeps (k k' v : string) (d : list (string * string)) :
  dict_get k' d <> None -> dict_get k' (dict_set k v d) <> None.
Proof.
  induction d as [|[k0 v0] d IH]; cbn; [congruence|].
  destruct (String.eqb k0 k') eqn:E0.
  - intros _. destruct (String.eqb k0 k) eqn:E; cbn.
    + apply String.eqb_eq in E0, E. subst. rewrite String.eqb_refl. congruence.
    + rewrite E0. congruence.
  - intros H. destruct (String.eqb k0 k) eqn:E; cbn.
    + apply String.eqb_eq in E. subst k0. rewrite E0.
      (* the key [k'] is further down; the head was replaced *)
      exact H.
    + rewrite E0. exact (IH H).
Qed.

#[local] Hint Constructors cred_event report_event : trace.

Section Credentials.

Variable W : world.

Lemma resolve_password_events (value : option string) (label : string) :
  sat (_resolve_password W value label) (fun _ t => Forall cred_event t).
Proof.
  unfold _resolve_password. sat_walk no_sub; eauto 10 with trace.
Qed.

Lemma collect_passwords_spec (fleets : list Fleet) :
  forall m0,
    sat (collect_passwords W fleets m0)
        (fun r t => Forall cred_event t /\
                    forall m, r = Ret m ->
                              passwords_known m fleets /\
                              forall k, dict_get k m0 <> None -> dict_get k m <> None).
Proof.
  induction fleets as [|f rest IH]; intros m0; cbn [collect_passwords].
  - sat_walk no_sub. split; [constructor|].
    intros m [= <-]. split; [intros f []|auto].
  - sat_walk ltac:(first [sat_use resolve_password_events | sat_use IH]).
    + split_hyps. split; [eauto with trace|].
      intros m Hm. destruct (H1 m Hm) as [Hk Hkeep]. split.
      * intros g [<-|Hg]; [|exact (Hk g Hg)].
        apply Hkeep. rewrite dict_get_set_same. congruence.
      * intros k Hk0. apply Hkeep. apply dict_get_set_keeps. exact Hk0.
    + split_hyps. split; [eauto with trace | intros m Hm; discriminate Hm].
    + split; [assumption | intros m Hm; discriminate Hm].
Qed.

End Credentials.

(** ** The shape of a run of [main] *)

#[local] Hint Constructors poweroff_event : trace.

Lemma app_cons_assoc {X} (l : list X) (x : X) (l' : list X) :
  l ++ x :: l' = (l ++ [x]) ++ l'.
Proof. rewrite <- app_assoc. reflexivity. Qed.

Ltac main_leaf :=
  cbn [ssh_hop] in *;
  repeat match goal with
    | H : exists _, _ |- _ => destruct H
    | H : _ /\ _ |- _ => destruct H
    end;
  subst;
  try match goal with
    | H : classify_failure ?e None = (?a, ?b) |- _ =>
        pose proof (f_equal fst H) as Hfst; pose proof (f_equal snd H) as Hsnd;
        cbn [fst snd] in Hfst, Hsnd; subst a b; clear H
    end;
  rewrite ?app_nil_r, <- ?app_assoc; cbn [app];
  try match goal with
    | |- main_shape _ _ _ _
           (?t1 ++ EvPrompt ?l :: ?tk ++ EvConnect ?a ?b ?c ?d ?e ?f ?g :: ?rest) =>
        replace (t1 ++ EvPrompt l :: tk ++ EvConnect a b c d e f g :: rest)
          with ((t1 ++ EvPrompt l :: tk) ++ EvConnect a b c d e f g :: rest)
          by (rewrite <- app_assoc; reflexivity)
    | |- main_shape _ _ _ _ (?t1 ++ ?tk ++ EvConnect ?a ?b ?c ?d ?e ?f ?g :: ?rest) =>
        rewrite (app_assoc t1 tk (EvConnect a b c d e f g :: rest))
    end;
  let fin := (eauto 10 with trace; try (intros ? ?; discriminate)) in
  first [ solve [eapply ms_done; fin]
        | solve [eapply ms_fleets_raise; fin]
        | solve [eapply ms_steps; fin]
        | solve [eapply ms_gateway; fin]
        | solve [eapply ms_credentials; fin] ].

Section MainShape.

Variable W : world.
Variable cfg : Settings.
Variable args : Args.

Lemma shutdown_host_shape (tag : string) (client : SSH) (sudo : bool)
    (pw : option string) (dry : bool) :
  sat (shutdown_host W cfg tag client sudo pw dry)
      (fun r t => exists tg,
           t = EvShutdownHost (ssh_hop client) tag dry :: tg /\
           Forall (poweroff_event dry (ssh_hop client)) tg /\
           forall e, r = Raise e -> raised_in tg e).
Proof.
  unfold shutdown_host. sat_walk no_sub.
  all: eexists; split; [reflexivity|]; split; [eauto 12 with trace | raised_leaf].
Qed.

(** [load_pkey] reads the key file and may prompt for its passphrase;
    nothing else. *)
Lemma load_pkey_events (path : string) :
  sat (load_pkey W path) (fun _ t => Forall cred_event t).
Proof. unfold load_pkey. sat_walk no_sub; eauto 10 with trace. Qed.

(** Counting the steps does nothing outside; it raises exactly when a fleet
    has no list of nodes. *)
Lemma count_steps_spec (fleets : list Fleet) :
  forall n,
    sat (count_steps fleets n)
        (fun r t => t = [] /\
                    (forall k, r = Ret k -> nodes_listed fleets) /\
                    (forall e, r = Raise e -> nodes_missing fleets)).
Proof.
  induction fleets as [|f rest IH]; intros n; cbn [count_steps].
  - sat_walk no_sub. split; [reflexivity|]. split; [intros k _ f []|]. intros e He.
    discriminate He.
  - destruct (nodes f) as [l|] eqn:En.
    + eapply sat_conseq; [apply IH|]. intros r t (Ht & Hok & Hbad). split; [exact Ht|].
      split.
      * intros k Hk g [<-|Hg]; [congruence | exact (Hok k Hk g Hg)].
      * intros e He. destruct (Hbad e He) as (g & Hg & Hn). exists g. split; [right|]; auto.
    + apply sat_raise. split; [reflexivity|]. split; [intros k Hk; discriminate Hk|].
      intros e _. exists f. split; [left; reflexivity | exact En].
Qed.

Lemma main_sat (gw : Gateway) (fleets : list Fleet) (P : res unit -> trace -> Prop) :
  (forall gw_conn fleet_pw_map,
      ssh_hop gw_conn = Gw -> passwords_known fleet_pw_map fleets -> nodes_listed fleets ->
      sat (for_fleets W cfg args gw_conn fleet_pw_map 0 fleets) P) ->
  sat (main W cfg args gw fleets) (main_shape (dry_run args) fleets P).
Proof.
  intros HP. unfold main.
  sat_walk ltac:(first
    [ sat_use collect_passwords_spec
    | sat_use load_pkey_events
    | sat_use count_steps_spec
    | sat_use shutdown_host_shape
    | eapply sat_conseq;
      [ apply HP;
        [ reflexivity
        | match goal with H : _ /\ (forall m, Ret ?a = Ret m -> passwords_known _ _ /\ _) |- _ =>
            exact (proj1 (proj2 H a eq_refl)) end
        | match goal with
          | H : _ /\ (forall k, Ret ?a = Ret k -> nodes_listed _) /\ _ |- _ =>
              exact (proj1 (proj2 H) a eq_refl)
          end ]
      | intros [[]|?] ? ? ] ]).
  all: main_leaf.
Qed.

End MainShape.

(** ** C5: what [diagnose_on_remote] absorbs *)

Ltac run_in_leaf :=
  let e := fresh "e" in let h := fresh "h" in let cmd := fresh "cmd" in
  let Hin := fresh "Hin" in
  intros e h cmd Hin;
  repeat (progress (rewrite ?in_app_iff in Hin; cbn [In] in Hin));
  repeat match goal with
    | H : _ \/ _ |- _ => destruct H
    | H : False |- _ => destruct H
    | H : _ = EvRun _ _ (Some _) |- _ =>
        first [discriminate H | inversion H; subst; clear H]
    | H : In (EvRun ?h1 ?c1 (Some ?e1)) ?t,
      HI : forall x y z, In (EvRun y z (Some x)) ?t -> _ |- _ =>
        specialize (HI e1 h1 c1 H); first [discriminate HI | inversion HI; subst; clear HI]
    end;
  try reflexivity.

Section DiagnoseRaises.

Variable W : world.
Variable cfg : Settings.

Lemma dns_loop_raises (ws : SSH) (cmds : list string) :
  forall result,
    sat (dns_loop W ws cmds result)
        (fun r t => forall e h cmd, In (EvRun h cmd (Some e)) t -> r = Raise e).
Proof.
  induction cmds as [|cmd0 rest IH]; intros result; cbn [dns_loop].
  - sat_walk no_sub. run_in_leaf.
  - sat_walk ltac:(sat_use (IH result)); run_in_leaf.
Qed.

(** No exception of a diagnostic command is caught: the first command that
    raises ends the diagnosis with its exception. *)
Lemma diagnose_raises (ws : SSH) (target_host : string) (port : Z) :
  sat (diagnose_on_remote W cfg ws target_host port)
      (fun r t => forall e h cmd, In (EvRun h cmd (Some e)) t -> r = Raise e).
Proof.
  unfold diagnose_on_remote. sat_walk ltac:(sat_use dns_loop_raises); run_in_leaf.
Qed.

End DiagnoseRaises.

(** C5 (as amended): when the diagnostic commands themselves complete on the
    session (whatever their exit status), [diagnose_on_remote] returns a
    Diagnosis; for a target no resolver can resolve it has [dns_ok = False]
    and a non-empty [notes], for a port no probe can reach it has
    [tcp_ok = False], and [notes] is non-empty whenever [dns_ok] is False.
    An exception raised by running a command on the session is not
    caught: [diagnose_on_remote] raises exactly when one of the commands
    it runs raises, and it raises that exception; in particular it raises
    when the first command it runs does. *)
Theorem diagnose_on_remote_absorbs_failed_probes
    (W : world) (cfg : Settings) (ws : SSH) (target_host : string) (port : Z) (s : state) :
  let x := diagnose_on_remote W cfg ws target_host port s in
  (diagnostic_commands_return W ->
   exists d, outcome_of x = Ret d /\
             (target_unresolvable W -> dns_ok d = Some false /\ notes d <> []) /\
             (target_port_unreachable W -> tcp_ok d = Some false) /\
             (dns_ok d = Some false -> notes d <> [])) /\
  (forall e, outcome_of x = Raise e <->
             exists cmd, In (EvRun (ssh_hop ws) cmd (Some e)) (trace_of x)) /\
  (forall e, w_run W (n_run s) = inl e -> outcome_of x = Raise e).
Proof.
  intros x.
  pose proof (diagnose_on_remote_spec W cfg ws target_host port s) as H1.
  pose proof (diagnose_events W cfg ws target_host port s) as [Hev Hraised].
  pose proof (diagnose_raises W cfg ws target_host port s) as Hfwd.
  fold x in H1, Hev, Hraised, Hfwd.
  split; [|split].
  - intros Hret.
    destruct (outcome_of x) as [d|e].
    + exists d. destruct H1 as (_ & _ & Hn & Hu & Ht). repeat split; auto.
    + destruct H1 as [k Hk]. destruct (Hret k) as [r Hr]. congruence.
  - intros e. split.
    + intros He. destruct (Hraised e He) as [(h & cmd & Hin)|(h & cmd & stdin & Hin)].
      * rewrite Forall_forall in Hev. pose proof (Hev _ Hin) as Hh. inversion Hh; subst.
        exists cmd. exact Hin.
      * rewrite Forall_forall in Hev. pose proof (Hev _ Hin) as Hh. inversion Hh.
    + intros [cmd Hin]. exact (Hfwd e _ cmd Hin).
  - intros e He. apply (Hfwd e (ssh_hop ws) ("getent hosts " +++ target_host)).
    subst x. unfold diagnose_on_remote. cbn [dns_loop].
    unfold trace_of, bind at 1. unfold bind at 1. unfold _run at 1. rewrite He.
    cbn [snd]. left. reflexivity.
Qed.

Lemma diagnose_on_remote_absorbs_failed_probes_witness :
  diagnostic_commands_return world_target_dead /\
  target_unresolvable world_target_dead /\
  target_port_unreachable world_target_dead /\
  exists d, outcome_of (diagnose_on_remote world_target_dead default_settings (mkSSH Gw)
                          "ws1" 22 initial_state) = Ret d /\
            dns_ok d = Some false /\ notes d <> [] /\ tcp_ok d = Some false.
Proof.
  assert (H1 : diagnostic_commands_return world_target_dead) by (intros k; eexists; reflexivity).
  assert (H2 : target_unresolvable world_target_dead).
  { intros k rc out err H. injection H as <- <- <-. reflexivity. }
  assert (H3 : target_port_unreachable world_target_dead).
  { intros k rc out err H. injection H as <- <- <-. reflexivity. }
  split; [exact H1|]. split; [exact H2|]. split; [exact H3|].
  destruct (proj1 (diagnose_on_remote_absorbs_failed_probes world_target_dead default_settings
                     (mkSSH Gw) "ws1" 22 initial_state) H1) as (d & Hd & Hu & Ht & _).
  exists d. split; [exact Hd|].
  destruct (Hu H2) as [Ha Hb]. split; [exact Ha|]. split; [exact Hb|]. exact (Ht H3).
Defined.

(** C5 as stated fails: on a session where running a command raises,
    [diagnose_on_remote] raises too. *)
Lemma diagnose_on_remote_can_raise :
  outcome_of (diagnose_on_remote world_session_broken default_settings (mkSSH (Ws 0))
                "n1" 22 initial_state) = Raise ssh_err /\
  ~ diagnose_never_raises world_session_broken default_settings.
Proof.
  split; [reflexivity|].
  intros H. destruct (H (mkSSH (Ws 0)) "n1" 22%Z initial_state) as [d Hd].
  vm_compute in Hd. discriminate Hd.
Qed.

(** ** C2: the gateway goes last *)

Lemma fleet_processed_app_l (dry : bool) (i : nat) (f : Fleet) (t t' : trace) :
  fleet_processed dry i f t -> fleet_processed dry i f (t ++ t').
Proof.
  unfold fleet_processed, fleet_connect_failed, fleet_protective_skip, fleet_shut_down.
  intros [(iss & H & Hs)|[[H1 H2]|[H1 H2]]];
    [left; exists iss | right; left | right; right]; repeat split;
    try apply in_or_app; auto.
Qed.

Lemma fleet_processed_app_r (dry : bool) (i : nat) (f : Fleet) (t t' : trace) :
  fleet_processed dry i f t' -> fleet_processed dry i f (t ++ t').
Proof.
  unfold fleet_processed, fleet_connect_failed, fleet_protective_skip, fleet_shut_down.
  intros [(iss & H & Hs)|[[H1 H2]|[H1 H2]]];
    [left; exists iss | right; left | right; right]; repeat split;
    try apply in_or_app; auto.
Qed.

(** Membership in a trace made of appended pieces. *)
Ltac find_in :=
  lazymatch goal with
  | |- _ \/ _ => first [left; find_in | right; find_in]
  | |- _ = _ => reflexivity
  | |- In _ _ => assumption
  end.

Ltac in_trace := rewrite ?in_app_iff; cbn [In]; find_in.

Lemma sat_and {A} (m : M A) (P1 P2 : res A -> trace -> Prop) :
  sat m P1 -> sat m P2 -> sat m (fun r t => P1 r t /\ P2 r t).
Proof. intros H1 H2 s. split; [apply H1 | apply H2]. Qed.

(** A list splits in one way only around its single element of a kind. *)
Lemma split_unique {X} (p : X -> bool) (A B pre post : list X) (x y : X) :
  Forall (fun e => p e = false) A -> Forall (fun e => p e = false) B ->
  p x = true -> p y = true ->
  pre ++ x :: post = A ++ y :: B ->
  pre = A /\ x = y /\ post = B.
Proof.
  intros HA HB Hx Hy. revert pre. induction A as [|a A IH]; intros pre H.
  - destruct pre as [|z pre]; cbn in H.
    + injection H as -> ->. auto.
    + injection H as -> H. exfalso.
      assert (Hin : In x B) by (rewrite <- H; apply in_or_app; right; left; reflexivity).
      rewrite Forall_forall in HB. rewrite (HB x Hin) in Hx. discriminate.
  - inversion HA as [|? ? Ha HA']; subst. destruct pre as [|z pre]; cbn in H.
    + injection H as -> _. congruence.
    + injection H as -> H. destruct (IH HA' pre H) as (-> & -> & ->). auto.
Qed.

Lemma no_split (p : event -> bool) (t pre post : trace) (x : event) :
  Forall (fun e => p e = false) t -> p x = true -> t <> pre ++ x :: post.
Proof.
  intros Ht Hx ->. rewrite Forall_forall in Ht.
  rewrite (Ht x) in Hx; [discriminate|]. apply in_or_app; right; left; reflexivity.
Qed.

Lemma fleets_event_not_gateway_shutdown (dry : bool) (lo : nat) (e : event) :
  fleets_event dry lo e -> is_gateway_shutdown e = false.
Proof. intros (i & _ & [j e' []| | | | | | |]); reflexivity. Qed.

Lemma cred_event_not_gateway_shutdown (e : event) :
  cred_event e -> is_gateway_shutdown e = false.
Proof. intros []; reflexivity. Qed.

Lemma report_event_not_gateway_shutdown (e : event) :
  report_event e -> is_gateway_shutdown e = false.
Proof. intros []; reflexivity. Qed.

Lemma poweroff_event_not_gateway_shutdown (dry : bool) (h : hop) (e : event) :
  poweroff_event dry h e -> is_gateway_shutdown e = false.
Proof. intros []; reflexivity. Qed.

Section GatewayLast.

Variable W : world.
Variable cfg : Settings.
Variable args : Args.

Lemma process_fleet_processed (gw_conn : SSH) (fleet_pw_map : list (string * string))
    (i : nat) (f : Fleet) :
  sat (process_fleet W cfg args gw_conn fleet_pw_map i f)
      (fun r t => r = Ret tt -> fleet_processed (dry_run args) i f t).
Proof.
  unfold process_fleet.
  destruct (dict_get (name f) fleet_pw_map) as [pw|];
    [|apply sat_raise; intros H; discriminate H].
  destruct (nodes f) as [l|] eqn:En.
  all: sat_walk ltac:(first [sat_use diagnose_events | sat_use shutdown_host_shape
                       | sat_use for_nodes_events]);
    cbn [ssh_hop ch_dest ch_via] in *;
    repeat match goal with
      | H : exists _, _ |- _ => destruct H
      | H : _ /\ _ |- _ => destruct H
      end; subst;
    intros Hr; try discriminate Hr;
    unfold fleet_processed, fleet_connect_failed, fleet_protective_skip, fleet_shut_down.
  all: first
         [ solve [left; eexists; split; [in_trace | reflexivity]]
         | solve [right; left; split; in_trace]
         | solve [right; right; split; in_trace] ].
Qed.

Lemma for_fleets_processed (gw_conn : SSH) (fleet_pw_map : list (string * string))
    (fleets : list Fleet) :
  forall i,
    sat (for_fleets W cfg args gw_conn fleet_pw_map i fleets)
        (fun r t => r = Ret tt ->
                    forall k f, nth_error fleets k = Some f ->
                                fleet_processed (dry_run args) (i + k) f t).
Proof.
  induction fleets as [|f rest IH]; intros i; cbn [for_fleets].
  - sat_walk no_sub. intros _ [|k] g H; discriminate H.
  - sat_walk ltac:(first [sat_use process_fleet_processed | sat_use IH]);
      repeat match goal with u : unit |- _ => destruct u end.
    + intros Hr [|k] g Hk; cbn in Hk.
      * injection Hk as <-. rewrite Nat.add_0_r.
        apply fleet_processed_app_l. auto.
      * apply fleet_processed_app_r.
        replace (i + S k) with (S i + k) by lia. auto.
    + intros Hr; discriminate Hr.
    + intros Hr; discriminate Hr.
Qed.

Lemma for_fleets_done (fleets : list Fleet) (gw_conn : SSH)
    (fleet_pw_map : list (string * string)) :
  ssh_hop gw_conn = Gw -> passwords_known fleet_pw_map fleets -> nodes_listed fleets ->
  sat (for_fleets W cfg args gw_conn fleet_pw_map 0 fleets) (fleets_done args fleets).
Proof.
  intros Hgw Hpw Hnl. apply sat_and.
  - eapply sat_conseq; [apply for_fleets_events; assumption | intros r t [H _]; exact H].
  - apply (for_fleets_processed gw_conn fleet_pw_map fleets 0).
Qed.

End GatewayLast.

(** C2: in every run, whenever [shutdown_host] is called for the gateway,
    every fleet of the plan has been fully processed before (its connection
    failed and was recorded, or it was skipped for protection, or its own
    shutdown was issued, and its session closed), and what follows is the
    gateway's own power-off, the closing of its session and the report:
    nothing of any fleet or node. *)
Theorem gateway_shutdown_after_all_fleets
    (W : world) (cfg : Settings) (args : Args) (gw : Gateway) (fleets : list Fleet)
    (pre post : trace) (tag : string) (dry : bool) :
  trace_of (run_main W cfg args gw fleets) = pre ++ EvShutdownHost Gw tag dry :: post ->
  (forall k f, nth_error fleets k = Some f -> fleet_processed (dry_run args) k f pre) /\
  Forall (closing_event (dry_run args)) post.
Proof.
  intros Ht.
  pose proof (main_sat W cfg args gw fleets (fleets_done args fleets)
                (for_fleets_done W cfg args fleets) initial_state) as Hshape.
  unfold run_main in Ht. rewrite Ht in Hshape. clear Ht.
  remember (pre ++ EvShutdownHost Gw tag dry :: post) as t eqn:Et.
  assert (Hno : forall l, Forall (fun e => is_gateway_shutdown e = false) l -> t <> l).
  { intros l Hl E. rewrite Et in E. symmetry in E.
    exact (no_split is_gateway_shutdown l pre post (EvShutdownHost Gw tag dry) Hl eq_refl E). }
  inversion Hshape as [tc e Hc Hr0 Ht
                      | tc host user port pk e Hc Hr0 Ht
                      | tc host user port pk e Hc Hm Hr0 Ht
                      | tc host user port pk tf e tr Hc [Hf _] Hr Hr0 Ht
                      | tc host user port pk tf tg r tr Hc [Hf Hdone] Hg _ Hr Hr0 Ht].
  - exfalso.
    exact (Hno _ (Forall_weaken _ _ _ cred_event_not_gateway_shutdown Hc) eq_refl).
  - exfalso. refine (Hno _ _ (eq_sym Ht)).
    apply Forall_app; split; [|repeat constructor].
    eapply Forall_weaken; [exact cred_event_not_gateway_shutdown | exact Hc].
  - exfalso. refine (Hno _ _ (eq_sym Ht)).
    apply Forall_app; split; [|repeat constructor].
    eapply Forall_weaken; [exact cred_event_not_gateway_shutdown | exact Hc].
  - exfalso. refine (Hno _ _ (eq_sym Ht)).
    apply Forall_app; split;
      [eapply Forall_weaken; [exact cred_event_not_gateway_shutdown | exact Hc]|].
    constructor; [reflexivity|]. apply Forall_app; split.
    + eapply Forall_weaken; [apply fleets_event_not_gateway_shutdown | exact Hf].
    + constructor; [reflexivity|].
      eapply Forall_weaken; [exact report_event_not_gateway_shutdown | exact Hr].
  - rewrite Et in Ht. symmetry in Ht.
    rewrite (app_cons_assoc tc), app_assoc in Ht.
    apply (split_unique is_gateway_shutdown) in Ht; try reflexivity.
    + destruct Ht as (-> & _ & ->). split.
      * intros k f Hk. apply fleet_processed_app_r. apply Hdone; [reflexivity | exact Hk].
      * apply Forall_app; split.
        -- eapply Forall_weaken; [apply cl_poweroff | exact Hg].
        -- constructor; [apply cl_close|].
           eapply Forall_weaken; [|exact Hr]. intros x []. apply cl_poweroff. constructor.
    + repeat (apply Forall_app; split); try (repeat constructor; fail).
      * eapply Forall_weaken; [exact cred_event_not_gateway_shutdown | exact Hc].
      * eapply Forall_weaken; [apply fleets_event_not_gateway_shutdown | exact Hf].
    + apply Forall_app; split.
      * eapply Forall_weaken; [apply poweroff_event_not_gateway_shutdown | exact Hg].
      * constructor; [reflexivity|].
        eapply Forall_weaken; [exact report_event_not_gateway_shutdown | exact Hr].
Qed.

Lemma gateway_shutdown_after_all_fleets_witness :
  let t := trace_of (run_main world_all_ok default_settings live_strict gw0 [ws1]) in
  t = firstn 22 t ++ EvShutdownHost Gw "triton" false :: skipn 23 t /\
  fleet_processed false 0 ws1 (firstn 22 t) /\
  Forall (closing_event false) (skipn 23 t).
Proof.
  intros t.
  assert (Ht : t = firstn 22 t ++ EvShutdownHost Gw "triton" false :: skipn 23 t)
    by (vm_compute; reflexivity).
  split; [exact Ht|].
  destruct (gateway_shutdown_after_all_fleets world_all_ok default_settings live_strict
              gw0 [ws1] (firstn 22 t) (skipn 23 t) "triton" false Ht) as [H1 H2].
  split; [exact (H1 0 ws1 eq_refl) | exact H2].
Defined.


(** ** C1: the protective skip *)

Lemma existsb_Forall_false {X} (P : X -> Prop) (p : X -> bool) (l : list X) :
  (forall x, P x -> p x = false) -> Forall P l -> existsb p l = false.
Proof.
  intros H HF. induction HF as [|x l Hx _ IH]; cbn; [reflexivity|].
  rewrite (H x Hx), IH. reflexivity.
Qed.

Lemma run_event_no_failure (i : nat) (h : hop) (e : event) :
  run_event h e -> is_node_failure i e = false.
Proof. intros []; reflexivity. Qed.

Lemma shutdown_event_no_failure (i : nat) (dry : bool) (h : hop) (e : event) :
  shutdown_event dry h e -> is_node_failure i e = false.
Proof. intros []; reflexivity. Qed.

Lemma wait_event_no_failure (i : nat) (via dest : hop) (e : event) :
  wait_event via dest e -> is_node_failure i e = false.
Proof. intros []; reflexivity. Qed.

Lemma nodes_event_no_fleet_shutdown (dry : bool) (i k : nat) (e : event) :
  nodes_event dry i e -> is_fleet_shutdown k e = false.
Proof. intros [j []]; reflexivity. Qed.

Lemma fleet_event_elsewhere (dry : bool) (i k : nat) (e : event) :
  i <> k -> fleet_event dry k e ->
  is_node_failure i e = false /\ is_fleet_shutdown i e = false.
Proof.
  intros Hik He.
  assert (Hk : Nat.eqb k i = false) by (apply Nat.eqb_neq; congruence).
  destruct He as [j e []| | | | | | |]; cbn; rewrite ?Hk; auto.
  all: try (destruct r; cbn; rewrite ?Hk; auto).
  all: try (destruct ok; cbn; rewrite ?Hk; auto).
Qed.

Lemma run_event_no_fleet_shutdown (i : nat) (h : hop) (e : event) :
  run_event h e -> is_fleet_shutdown i e = false.
Proof. intros []; reflexivity. Qed.

(** Turn what is known about the pieces of a trace into facts about
    [existsb (is_node_failure i)]. *)
Ltac failure_facts i :=
  repeat match goal with
    | H : Forall (run_event _) ?t |- _ =>
        let F := fresh "F" in
        pose proof (existsb_Forall_false _ _ t (run_event_no_failure i _) H) as F; clear H
    | H : Forall (shutdown_event _ _) ?t |- _ =>
        let F := fresh "F" in
        pose proof (existsb_Forall_false _ _ t (shutdown_event_no_failure i _ _) H) as F;
        clear H
    | H : Forall (wait_event _ _) ?t |- _ =>
        let F := fresh "F" in
        pose proof (existsb_Forall_false _ _ t (wait_event_no_failure i _ _) H) as F; clear H
    end.

Section ParentSkip.

Variable W : world.
Variable cfg : Settings.
Variable args : Args.
Hypothesis live : dry_run args = false.
Hypothesis strict : non_strict args = false.

Lemma process_node_skip (f : Fleet) (i : nat) (pw : string) (j : nat) (node : string)
    (parent_skip : bool) :
  sat (process_node W cfg args f i (mkSSH (Ws i)) pw j node parent_skip)
      (fun r t => forall ps', r = Ret ps' ->
                  parent_skip = true \/ existsb (is_node_failure i) t = true ->
                  ps' = true).
Proof.
  unfold process_node. rewrite live, strict. cbn [negb andb].
  sat_walk ltac:(first [sat_use diagnose_events | sat_use shutdown_host_events]).
  all: cbn [ssh_hop ch_dest ch_via] in *; split_hyps; failure_facts i.
  all: intros ps' Hr; try discriminate Hr; injection Hr as <-.
  all: rewrite ?existsb_app; cbn [existsb is_node_failure ch_dest orb andb negb snd fst].
  all: repeat match goal with F : existsb _ _ = false |- _ => rewrite F; clear F end.
  all: rewrite ?Nat.eqb_refl; cbn [orb].
  all: try reflexivity.
  all: destruct ok; cbn in *; try discriminate; intros [?|?]; [assumption | discriminate].
Qed.

Lemma for_nodes_skip (f : Fleet) (i : nat) (pw : string) (nodes : list string) :
  forall (j : nat) (parent_skip : bool),
    sat (for_nodes W cfg args f i (mkSSH (Ws i)) pw j nodes parent_skip)
        (fun r t => forall ps', r = Ret ps' ->
                    parent_skip = true \/ existsb (is_node_failure i) t = true ->
                    ps' = true).
Proof.
  induction nodes as [|node rest IH]; intros j parent_skip; cbn [for_nodes].
  - sat_walk no_sub. intros ps' [= <-] [H|H]; [exact H | discriminate H].
  - sat_walk ltac:(first [sat_use process_node_skip | sat_use IH]).
    + intros ps' Hr. rewrite existsb_app. intros Hor.
      match goal with H : forall ps, Ret ?b = Ret ps -> _ |- _ =>
        apply (H ps' Hr) end.
      destruct Hor as [Hp|Hor]; [left; eauto|].
      apply orb_true_iff in Hor. destruct Hor as [Ht|Ht]; [left; eauto | right; exact Ht].
    + intros ps' Hr; discriminate Hr.
    + intros ps' Hr; discriminate Hr.
Qed.

Lemma process_fleet_skip (gw_conn : SSH) (fleet_pw_map : list (string * string))
    (i : nat) (f : Fleet) :
  ssh_hop gw_conn = Gw ->
  sat (process_fleet W cfg args gw_conn fleet_pw_map i f)
      (fun _ t => existsb (is_node_failure i) t = true ->
                  existsb (is_fleet_shutdown i) t = false).
Proof.
  intros Hgw. unfold process_fleet.
  destruct (dict_get (name f) fleet_pw_map) as [pw|];
    [|apply sat_raise; intros H; discriminate H].
  destruct (nodes f) as [l|] eqn:En.
  all: sat_walk ltac:(first
    [ sat_use diagnose_events | sat_use shutdown_host_events
    | sat_use (fun j ps => sat_and _ _ _ (for_nodes_events W cfg args f i pw l j ps)
                             (for_nodes_skip f i pw l j ps)) ]).
  all: cbn [ssh_hop ch_dest ch_via] in *; split_hyps.
  all: repeat match goal with
         | H : Forall (run_event _) ?t |- _ =>
             pose proof (existsb_Forall_false _ _ t (run_event_no_fleet_shutdown i _) H);
             pose proof (existsb_Forall_false _ _ t (run_event_no_failure i _) H); clear H
         | H : Forall (nodes_event _ _) ?t |- _ =>
             pose proof (existsb_Forall_false _ _ t
                           (nodes_event_no_fleet_shutdown _ _ i) H); clear H
         end; failure_facts i.
  all: rewrite ?existsb_app;
       cbn [existsb is_node_failure is_fleet_shutdown ch_dest orb andb negb snd fst].
  all: repeat match goal with F : existsb _ _ = false |- _ => rewrite F; clear F end.
  all: cbn [orb]; try (intros _; reflexivity).
  all: rewrite ?orb_false_r; intros Hf;
       match goal with
       | H : forall ps', Ret false = Ret ps' -> _ |- _ =>
           specialize (H false eq_refl (or_intror Hf)); discriminate H
       | _ => revert Hf; cbn; congruence
       end.
Qed.

End ParentSkip.

Lemma fleet_trace_elsewhere (dry : bool) (i k : nat) (t : trace) :
  i <> k -> Forall (fleet_event dry k) t ->
  existsb (is_node_failure i) t = false /\ existsb (is_fleet_shutdown i) t = false.
Proof.
  intros Hik H. split; eapply existsb_Forall_false; try exact H;
    intros x Hx; apply (fleet_event_elsewhere dry i k x Hik Hx).
Qed.

Lemma fleets_trace_below (dry : bool) (lo i : nat) (t : trace) :
  i < lo -> Forall (fleets_event dry lo) t ->
  existsb (is_node_failure i) t = false /\ existsb (is_fleet_shutdown i) t = false.
Proof.
  intros Hlo H. split; eapply existsb_Forall_false; try exact H;
    intros x (k & Hk & Hx); apply (fleet_event_elsewhere dry i k x); try exact Hx; lia.
Qed.

(** The guarantee of one fleet and that of the fleets after it add up. *)
Lemma protected_app (dry : bool) (lo : nat) (t1 t2 : trace) :
  Forall (fleet_event dry lo) t1 ->
  Forall (fleets_event dry (S lo)) t2 ->
  (existsb (is_node_failure lo) t1 = true -> existsb (is_fleet_shutdown lo) t1 = false) ->
  (forall i, existsb (is_node_failure i) t2 = true ->
             existsb (is_fleet_shutdown i) t2 = false) ->
  forall i, existsb (is_node_failure i) (t1 ++ t2) = true ->
            existsb (is_fleet_shutdown i) (t1 ++ t2) = false.
Proof.
  intros H1 H2 Hhere Hrest i. rewrite !existsb_app.
  destruct (Nat.eq_dec i lo) as [->|Hne].
  - destruct (fleets_trace_below dry (S lo) lo t2 (Nat.lt_succ_diag_r lo) H2) as [-> ->].
    rewrite !orb_false_r. exact Hhere.
  - destruct (fleet_trace_elsewhere dry i lo t1 Hne H1) as [-> ->].
    cbn [orb]. apply Hrest.
Qed.

Section FleetsProtected.

Variable W : world.
Variable cfg : Settings.
Variable args : Args.
Hypothesis live : dry_run args = false.
Hypothesis strict : non_strict args = false.

Lemma for_fleets_protected (gw_conn : SSH) (fleet_pw_map : list (string * string))
    (fleets : list Fleet) :
  ssh_hop gw_conn = Gw ->
  passwords_known fleet_pw_map fleets ->
  nodes_listed fleets ->
  forall lo,
    sat (for_fleets W cfg args gw_conn fleet_pw_map lo fleets)
        (fun _ t => Forall (fleets_event (dry_run args) lo) t /\
                    forall i, existsb (is_node_failure i) t = true ->
                              existsb (is_fleet_shutdown i) t = false).
Proof.
  intros Hgw. induction fleets as [|f rest IH]; intros Hpw Hnl lo; cbn [for_fleets].
  - sat_walk no_sub. split; [constructor | intros i H; discriminate H].
  - assert (Hf : dict_get (name f) fleet_pw_map <> None) by (apply Hpw; left; reflexivity).
    assert (Hrest : passwords_known fleet_pw_map rest)
      by (intros g Hg; apply Hpw; right; exact Hg).
    assert (Hn : nodes f <> None) by (apply Hnl; left; reflexivity).
    assert (Hnrest : nodes_listed rest) by (intros g Hg; apply Hnl; right; exact Hg).
    pose proof (sat_and _ _ _
                  (process_fleet_events W cfg args gw_conn fleet_pw_map lo f Hgw Hf Hn)
                  (process_fleet_skip W cfg args live strict gw_conn fleet_pw_map lo f Hgw))
      as Hone.
    assert (Hweak : forall t, Forall (fleet_event (dry_run args) lo) t ->
                              Forall (fleets_event (dry_run args) lo) t).
    { intros t. apply Forall_weaken. intros x Hx. exists lo. split; [lia | exact Hx]. }
    assert (Hweak' : forall t, Forall (fleets_event (dry_run args) (S lo)) t ->
                               Forall (fleets_event (dry_run args) lo) t).
    { intros t. apply Forall_weaken. intros x Hx.
      apply (fleets_event_weaken _ (S lo)); [lia | exact Hx]. }
    sat_walk ltac:(first [sat_use Hone | sat_use (IH Hrest Hnrest (S lo))]); split_hyps.
    + split; [apply Forall_app; split; auto|].
      eapply protected_app; eassumption.
    + split; [apply Forall_app; split; auto|].
      eapply protected_app; eassumption.
    + split; [auto|].
      intros i. rewrite <- (app_nil_r t).
      apply (protected_app (dry_run args) lo t []); auto.
Qed.

End FleetsProtected.

Lemma main_shape_protected (dry : bool) (fleets : list Fleet) (r : res unit) (t : trace)
    (i : nat) :
  main_shape dry fleets (fleets_protected dry) r t ->
  existsb (is_node_failure i) t = true -> existsb (is_fleet_shutdown i) t = false.
Proof.
  assert (Hc : forall tc, Forall cred_event tc ->
                 existsb (is_node_failure i) tc = false /\
                 existsb (is_fleet_shutdown i) tc = false).
  { intros tc H. split; eapply existsb_Forall_false; try exact H; intros x []; reflexivity. }
  assert (Hr : forall tr, Forall report_event tr ->
                 existsb (is_node_failure i) tr = false /\
                 existsb (is_fleet_shutdown i) tr = false).
  { intros tr H. split; eapply existsb_Forall_false; try exact H; intros x []; reflexivity. }
  assert (Hg : forall tg, Forall (poweroff_event dry Gw) tg ->
                 existsb (is_node_failure i) tg = false /\
                 existsb (is_fleet_shutdown i) tg = false).
  { intros tg H. split; eapply existsb_Forall_false; try exact H; intros x []; reflexivity. }
  intros Hshape.
  destruct Hshape as [tc e H | tc host user port pk e H | tc host user port pk e H Hm
                     | tc host user port pk tf e tr H [_ Hf] Htr
                     | tc host user port pk tf tg r tr H [_ Hf] Htg _ Htr];
    destruct (Hc tc H) as [Hc1 Hc2];
    try destruct (Hr tr Htr) as [Hr1 Hr2];
    try destruct (Hg tg Htg) as [Hg1 Hg2];
    repeat (rewrite ?existsb_app; cbn [existsb is_node_failure is_fleet_shutdown orb]);
    rewrite ?Hc1, ?Hc2, ?Hr1, ?Hr2, ?Hg1, ?Hg2, ?orb_false_r; cbn [orb];
    try discriminate; try apply Hf.
Qed.

(** C1: in a live run in strict mode, once a node of a fleet could not be
    reached (the channel to it or its connection failed, authentication
    included) or was not confirmed down within the timeout,
    [shutdown_host] is never invoked for that fleet's host, nowhere in the
    run.  A fleet is an entry of the plan, known by its position [i]: a
    host that two entries name is protected under each entry for the nodes
    of that entry. *)
Theorem strict_live_run_protects_fleet
    (W : world) (cfg : Settings) (args : Args) (gw : Gateway) (fleets : list Fleet)
    (i : nat) :
  dry_run args = false ->
  non_strict args = false ->
  node_failed i (trace_of (run_main W cfg args gw fleets)) ->
  ~ fleet_shutdown_invoked i (trace_of (run_main W cfg args gw fleets)).
Proof.
  intros live strict Hfail Hshut.
  apply existsb_exists in Hfail. apply existsb_exists in Hshut.
  pose proof (main_sat W cfg args gw fleets (fleets_protected (dry_run args))
                (fun gw_conn m Hgw Hpw Hnl =>
                   for_fleets_protected W cfg args live strict gw_conn m fleets Hgw Hpw Hnl 0)
                initial_state) as Hshape.
  pose proof (main_shape_protected _ _ _ _ i Hshape Hfail) as Hno.
  unfold run_main in Hshut. rewrite Hno in Hshut. discriminate Hshut.
Qed.

Lemma strict_live_run_protects_fleet_witness :
  let t := trace_of (run_main world_node_auth_fails default_settings live_strict gw0 [ws1]) in
  node_failed 0 t /\ ~ fleet_shutdown_invoked 0 t.
Proof.
  intros t.
  assert (Hfail : node_failed 0 t) by (apply existsb_exists; vm_compute; reflexivity).
  split; [exact Hfail|].
  exact (strict_live_run_protects_fleet world_node_auth_fails default_settings live_strict
           gw0 [ws1] 0 eq_refl eq_refl Hfail).
Defined.

(** C1 as stated fails in a dry run: the node's authentication fails, strict
    mode is active, and [shutdown_host] is still invoked for the fleet
    host. *)
Lemma parent_skip_as_stated_fails :
  ~ parent_skip_as_stated world_node_auth_fails default_settings dry_strict gw0 [ws1].
Proof.
  intros H.
  apply (H eq_refl 0); apply existsb_exists; vm_compute; reflexivity.
Qed.

(** ** The issues list follows the trace *)

Lemma issues_of_app (t t' : trace) : issues_of (t ++ t') = issues_of t ++ issues_of t'.
Proof. apply flat_map_app. Qed.

Section LogsIssues.

Context {A B : Type}.

Lemma logs_ret (a : A) : logs_issues (ret a).
Proof. intros s. cbn. rewrite app_nil_r. reflexivity. Qed.

Lemma logs_raise (e : exn) : logs_issues (@raise A e).
Proof. intros s. cbn. rewrite app_nil_r. reflexivity. Qed.

Lemma logs_bind (m : M A) (f : A -> M B) :
  logs_issues m -> (forall a, logs_issues (f a)) -> logs_issues (bind m f).
Proof.
  unfold logs_issues, state_of, trace_of in *. intros Hm Hf s. specialize (Hm s). unfold bind.
  destruct (m s) as [[[a|e] s1] t1]; cbn [fst snd] in *; [|exact Hm].
  specialize (Hf a s1). destruct (f a s1) as [[r2 s2] t2]; cbn [fst snd] in *.
  rewrite Hf, Hm, issues_of_app, app_assoc. reflexivity.
Qed.

Lemma logs_try_except (body : M A) (handler : exn -> M A) :
  logs_issues body -> (forall e, logs_issues (handler e)) ->
  logs_issues (try_except body handler).
Proof.
  unfold logs_issues, state_of, trace_of in *. intros Hm Hf s. specialize (Hm s). unfold try_except.
  destruct (body s) as [[[a|e] s1] t1]; cbn [fst snd] in *; [exact Hm|].
  specialize (Hf e s1). destruct (handler e s1) as [[r2 s2] t2]; cbn [fst snd] in *.
  rewrite Hf, Hm, issues_of_app, app_assoc. reflexivity.
Qed.

Lemma logs_try_finally (body : M A) (fin : M B) :
  logs_issues body -> logs_issues fin -> logs_issues (try_finally body fin).
Proof.
  unfold logs_issues, state_of, trace_of in *. intros Hm Hf s. specialize (Hm s). unfold try_finally.
  destruct (body s) as [[r1 s1] t1]; cbn [fst snd] in *.
  specialize (Hf s1). destruct (fin s1) as [[[b|e2] s2] t2]; cbn [fst snd] in *.
  - destruct r1; cbn [fst snd]; rewrite Hf, Hm, issues_of_app, app_assoc; reflexivity.
  - rewrite Hf, Hm, issues_of_app, app_assoc. reflexivity.
Qed.

End LogsIssues.

(** A primitive that leaves [issues] alone and emits no [EvIssue]. *)
Ltac logs_prim :=
  let s := fresh "s" in
  intros s; unfold state_of, trace_of; cbn;
  repeat match goal with |- context [match ?x with _ => _ end] => destruct x end;
  cbn; rewrite ?app_nil_r; reflexivity.

Section LogsPrimitives.

Variable W : world.

Lemma logs_emit_quiet (e : event) : issue_of e = [] -> logs_issues (emit e).
Proof. intros H s. cbn. rewrite H, app_nil_r. reflexivity. Qed.

Lemma logs_print (m : message) : logs_issues (print m).
Proof. logs_prim. Qed.

Lemma logs_close (c : SSH) : logs_issues (close c).
Proof. logs_prim. Qed.

Lemma logs_time_sleep (ms : Z) : logs_issues (time_sleep ms).
Proof. logs_prim. Qed.

Lemma logs_issues_append (h : hop) (iss : Issue) : logs_issues (issues_append h iss).
Proof. intros s. reflexivity. Qed.

Lemma logs_get_issues : logs_issues get_issues.
Proof. logs_prim. Qed.

Lemma logs_from_private_key_file (kind : key_kind) (p : string) (pw : option string) :
  logs_issues (from_private_key_file W kind p pw).
Proof. logs_prim. Qed.

Lemma logs_connect_host (host user : string) (port : Z) (pk pw : option string)
    (sock : option Channel) : logs_issues (connect_host W host user port pk pw sock).
Proof. logs_prim. Qed.

Lemma logs_open_channel (transport : SSH) (dest : hop) (host : string) (port : Z) :
  logs_issues (open_direct_tcpip_channel W transport dest host port).
Proof. logs_prim. Qed.

Lemma logs_run (ws : SSH) (cmd : string) : logs_issues (_run W ws cmd).
Proof. logs_prim. Qed.

Lemma logs_run_remote_command (client : SSH) (command : string) (sudo : bool)
    (pw : option string) : logs_issues (run_remote_command W client command sudo pw).
Proof. logs_prim. Qed.

Lemma logs_getpass (label : string) : logs_issues (getpass W label).
Proof. logs_prim. Qed.

Lemma logs_environ_get (key : string) : logs_issues (environ_get W key).
Proof. logs_prim. Qed.

Lemma logs_read_file (path : string) : logs_issues (read_file W path).
Proof. logs_prim. Qed.

End LogsPrimitives.

Ltac logs_step :=
  lazymatch goal with
  | |- logs_issues (bind _ _) => apply logs_bind; [|intros ?]
  | |- logs_issues (try_except _ _) => apply logs_try_except; [|intros ?]
  | |- logs_issues (try_finally _ _) => apply logs_try_finally
  | |- logs_issues (ret _) => apply logs_ret
  | |- logs_issues (raise _) => apply logs_raise
  | |- logs_issues (print _) => apply logs_print
  | |- logs_issues (emit _) => apply logs_emit_quiet; reflexivity
  | |- logs_issues (close _) => apply logs_close
  | |- logs_issues (time_sleep _) => apply logs_time_sleep
  | |- logs_issues (issues_append _ _) => apply logs_issues_append
  | |- logs_issues get_issues => apply logs_get_issues
  | |- logs_issues (from_private_key_file _ _ _ _) => apply logs_from_private_key_file
  | |- logs_issues (connect_host _ _ _ _ _ _ _) => apply logs_connect_host
  | |- logs_issues (open_direct_tcpip_channel _ _ _ _ _) => apply logs_open_channel
  | |- logs_issues (_run _ _ _) => apply logs_run
  | |- logs_issues (run_remote_command _ _ _ _ _) => apply logs_run_remote_command
  | |- logs_issues (getpass _ _) => apply logs_getpass
  | |- logs_issues (environ_get _ _) => apply logs_environ_get
  | |- logs_issues (read_file _ _) => apply logs_read_file
  | |- logs_issues (if ?b then _ else _) => destruct b
  | |- logs_issues (match ?x with _ => _ end) => destruct x
  | |- logs_issues (let '_ := ?x in _) => destruct x
  end; cbv beta iota.

Ltac logs_walk sub := repeat first [logs_step | sub].

Section LogsDiagnose.

Variable W : world.
Variable cfg : Settings.

Lemma logs_dns_loop (ws : SSH) (cmds : list string) :
  forall result, logs_issues (dns_loop W ws cmds result).
Proof.
  induction cmds as [|cmd rest IH]; intros result; cbn [dns_loop];
    logs_walk ltac:(apply IH).
Qed.

Lemma logs_diagnose (ws : SSH) (target_host : string) (port : Z) :
  logs_issues (diagnose_on_remote W cfg ws target_host port).
Proof. unfold diagnose_on_remote. logs_walk ltac:(apply logs_dns_loop). Qed.

(** A diagnosis leaves the issues list as it found it. *)
Lemma diagnose_keeps_issues (ws : SSH) (target_host : string) (port : Z) (s : state) :
  issues (state_of (diagnose_on_remote W cfg ws target_host port s)) = issues s /\
  existsb is_attempt (trace_of (diagnose_on_remote W cfg ws target_host port s)) = false.
Proof.
  pose proof (logs_diagnose ws target_host port s) as Hl.
  pose proof (diagnose_events W cfg ws target_host port s) as [Hev _].
  assert (Hq : forall t, Forall (run_event (ssh_hop ws)) t ->
                         issues_of t = [] /\ existsb is_attempt t = false).
  { induction 1 as [|x l [] _ [IH1 IH2]]; cbn; auto. }
  destruct (Hq _ Hev) as [Hi Ha]. rewrite Hi, app_nil_r in Hl. auto.
Qed.

End LogsDiagnose.

(** C10: when the pre-check diagnosis of a node raises and the diagnosis
    made by the handler returns, the iteration attempts nothing on the node
    (no channel, no connection, no shutdown, no wait), appends one Issue of
    stage node that carries the second diagnosis and the text of the
    exception, and returns parent_skip set when the run is neither dry nor
    non-strict, unchanged otherwise. *)
Theorem precheck_error_skips_node
    (W : world) (cfg : Settings) (args : Args) (f : Fleet) (i : nat) (ws : SSH)
    (pw : string) (j : nat) (node : string) (parent_skip : bool)
    (s s1 s2 : state) (e : exn) (t1 t2 : trace) (d : Diagnosis) :
  diagnose_on_remote W cfg ws node (port f) s = (Raise e, s1, t1) ->
  diagnose_on_remote W cfg ws node (port f) s1 = (Ret d, s2, t2) ->
  let reason := fst (classify_failure e (Some d)) in
  let hint := snd (classify_failure e (Some d)) in
  let iss := mkIssue "node" (name f) node reason hint (Some d) (exc_str e) in
  let x := process_node W cfg args f i ws pw j node parent_skip s in
  outcome_of x =
    Ret (if negb (dry_run args) && negb (non_strict args) then true else parent_skip) /\
  trace_of x =
    t1 ++ t2 ++ [EvIssue (Nd i j) iss;
                 EvPrint (MsgNodeConnectFailed node reason hint (exc_str e))] /\
  issues (state_of x) = issues s ++ [iss] /\
  existsb is_attempt (trace_of x) = false.
Proof.
  intros E1 E2 reason hint iss x.
  pose proof (diagnose_keeps_issues W cfg ws node (port f) s) as [Hi1 Ha1].
  pose proof (diagnose_keeps_issues W cfg ws node (port f) s1) as [Hi2 Ha2].
  rewrite E1 in Hi1, Ha1. rewrite E2 in Hi2, Ha2.
  unfold state_of, trace_of in Hi1, Ha1, Hi2, Ha2. cbn [fst snd] in Hi1, Ha1, Hi2, Ha2.
  assert (Hx : x = (Ret (if negb (dry_run args) && negb (non_strict args) then true
                         else parent_skip),
                    mkState (now s2) (n_open s2) (n_connect s2) (n_run s2) (n_exec s2)
                            (n_probe s2) (issues s2 ++ [iss]),
                    t1 ++ t2 ++ [EvIssue (Nd i j) iss;
                                 EvPrint (MsgNodeConnectFailed node reason hint (exc_str e))])).
  { subst x iss reason hint. unfold process_node.
    unfold bind at 1. unfold try_except. unfold bind at 1. rewrite E1.
    unfold bind at 1. rewrite E2.
    destruct (classify_failure e (Some d)) as [r h]. cbn. rewrite ?app_nil_r.
    reflexivity. }
  rewrite Hx. unfold outcome_of, state_of, trace_of. cbn [fst snd issues].
  repeat split.
  - rewrite Hi2, Hi1. reflexivity.
  - rewrite !existsb_app, Ha1, Ha2. reflexivity.
Qed.

Lemma precheck_error_skips_node_witness :
  let x := process_node world_first_run_fails default_settings live_strict ws1 0
             (mkSSH (Ws 0)) "pw1" 0 "n1" false initial_state in
  outcome_of x = Ret true /\
  existsb is_attempt (trace_of x) = false /\
  List.length (issues (state_of x)) = 1%nat.
Proof.
  intros x.
  edestruct (precheck_error_skips_node world_first_run_fails default_settings live_strict
               ws1 0 (mkSSH (Ws 0)) "pw1" 0 "n1" false initial_state)
    as (Ho & Ht & Hi & Ha).
  - lazy. reflexivity.
  - lazy. reflexivity.
  - fold x in Ho, Hi, Ha. split; [exact Ho|]. split; [exact Ha|].
    rewrite Hi. reflexivity.
Defined.

(** C10 as stated fails when the session to the fleet host is broken: the
    second diagnosis raises as well, no Issue is recorded and the exception
    leaves the iteration. *)
Lemma precheck_failure_as_stated_fails :
  ~ precheck_failure_as_stated world_session_broken default_settings live_strict ws1 0
      "pw1" 0 "n1" false initial_state.
Proof.
  intros H. destruct H as (_ & _ & H).
  - exists ssh_err. vm_compute. reflexivity.
  - vm_compute in H. discriminate H.
Qed.

(** ** C9: credentials before connections *)

Section CredentialsFirst.

Variable W : world.

Lemma resolve_password_ok (f : Fleet) (s : state) :
  credential_resolves W f = true ->
  exists pw t, _resolve_password W (password f) (password_label f) s = (Ret pw, s, t).
Proof.
  unfold credential_resolves, _resolve_password.
  destruct (password f) as [v|]; [|intros _; unfold getpass; eauto].
  destruct (String.prefix "env:" v).
  - unfold bind, environ_get, ret.
    destruct (w_environ W (after_first_colon v)); [eauto | discriminate].
  - destruct (String.prefix "file:" v); [|unfold ret; eauto].
    unfold bind, read_file, ret.
    destruct (w_file W (after_first_colon v)); [discriminate | eauto].
Qed.

Lemma resolve_password_unset (f : Fleet) (v : string) (s : state) :
  password f = Some v -> String.prefix "env:" v = true ->
  w_environ W (after_first_colon v) = None ->
  _resolve_password W (password f) (password_label f) s
    = (Raise (unset_variable_error (after_first_colon v) (password_label f)), s,
       [EvEnvGet (after_first_colon v)]).
Proof.
  intros -> Hp He. unfold _resolve_password. rewrite Hp.
  unfold bind, environ_get, raise. rewrite He. reflexivity.
Qed.

Lemma resolve_password_unreadable (f : Fleet) (v : string) (e : exn) (s : state) :
  password f = Some v -> String.prefix "env:" v = false -> String.prefix "file:" v = true ->
  w_file W (after_first_colon v) = inl e ->
  _resolve_password W (password f) (password_label f) s
    = (Raise e, s, [EvFileRead (after_first_colon v)]).
Proof.
  intros -> Hp Hf He. unfold _resolve_password. rewrite Hp, Hf.
  unfold bind, read_file. rewrite He. reflexivity.
Qed.

(** The password loop stops at the first credential that raises; until
    then it has consulted prompts, variables and files only. *)
Lemma collect_passwords_stops (pre post : list Fleet) (f : Fleet) (e : exn) (t : trace) :
  forallb (credential_resolves W) pre = true ->
  (forall s, _resolve_password W (password f) (password_label f) s = (Raise e, s, t)) ->
  forall m0 s,
    outcome_of (collect_passwords W (pre ++ f :: post) m0 s) = Raise e.
Proof.
  intros Hpre Hf. induction pre as [|g pre IH]; intros m0 s; cbn [app collect_passwords].
  - fold (password_label f). unfold bind. rewrite (Hf s). reflexivity.
  - cbn [forallb] in Hpre. apply andb_true_iff in Hpre. destruct Hpre as [Hg Hpre].
    fold (password_label g). unfold bind.
    destruct (resolve_password_ok g s Hg) as (pw & t' & ->).
    specialize (IH Hpre (dict_set (name g) pw m0) s).
    unfold outcome_of in *.
    destruct (collect_passwords W (pre ++ f :: post) (dict_set (name g) pw m0) s)
      as [[r s'] t'']. exact IH.
Qed.

Lemma collect_passwords_unset (pre post : list Fleet) (f : Fleet) (v : string) :
  forallb (credential_resolves W) pre = true ->
  password f = Some v -> String.prefix "env:" v = true ->
  w_environ W (after_first_colon v) = None ->
  forall m0 s,
    outcome_of (collect_passwords W (pre ++ f :: post) m0 s)
      = Raise (unset_variable_error (after_first_colon v) (password_label f)).
Proof.
  intros Hpre Hv Hp He. induction pre as [|g pre IH]; intros m0 s; cbn [app collect_passwords].
  - fold (password_label f). unfold bind.
    rewrite (resolve_password_unset f v s Hv Hp He). reflexivity.
  - cbn [forallb] in Hpre. apply andb_true_iff in Hpre. destruct Hpre as [Hg Hpre].
    fold (password_label g). unfold bind.
    destruct (resolve_password_ok g s Hg) as (pw & t & ->).
    specialize (IH Hpre (dict_set (name g) pw m0) s).
    unfold outcome_of in *.
    destruct (collect_passwords W (pre ++ f :: post) (dict_set (name g) pw m0) s)
      as [[r s'] t']. exact IH.
Qed.

End CredentialsFirst.

Lemma fleets_event_not_credential (dry : bool) (lo : nat) (e : event) :
  fleets_event dry lo e -> is_credential e = false.
Proof. intros (i & _ & [j e' []| | | | | | |]); reflexivity. Qed.

Lemma main_shape_credentials_first (dry : bool) (fleets : list Fleet) (r : res unit)
    (t : trace) :
  main_shape dry fleets (fleets_quiet dry) r t ->
  exists tc rest, t = tc ++ rest /\ Forall cred_event tc /\ existsb is_credential rest = false.
Proof.
  assert (Hr : forall tr, Forall report_event tr -> existsb is_credential tr = false).
  { intros tr. apply existsb_Forall_false. intros x []; reflexivity. }
  assert (Hg : forall tg, Forall (poweroff_event dry Gw) tg ->
                          existsb is_credential tg = false).
  { intros tg. apply existsb_Forall_false. intros x []; reflexivity. }
  assert (Hf : forall tf, Forall (fleets_event dry 0) tf -> existsb is_credential tf = false).
  { intros tf. apply existsb_Forall_false. apply fleets_event_not_credential. }
  intros [tc e H | tc host user port pk e H | tc host user port pk e H Hm
         | tc host user port pk tf e tr H Hq Htr
         | tc host user port pk tf tg r' tr H Hq Htg _ Htr];
    [exists tc, [] | eexists tc, _ | eexists tc, _ | eexists tc, _ | eexists tc, _];
    (split; [first [reflexivity | rewrite app_nil_r; reflexivity]|]); (split; [exact H|]);
    try reflexivity;
    repeat (rewrite ?existsb_app; cbn [existsb is_credential orb]);
    rewrite ?(Hr _ Htr), ?(Hg _ Htg), ?(Hf _ Hq); reflexivity.
Qed.

Lemma resolve_password_credentials (W : world) (value : option string) (label : string) :
  sat (_resolve_password W value label) (fun _ t => Forall (fun e => is_credential e = true) t).
Proof. unfold _resolve_password. sat_walk no_sub; repeat constructor. Qed.

Lemma collect_passwords_credentials (W : world) (fleets : list Fleet) :
  forall m0,
    sat (collect_passwords W fleets m0)
        (fun _ t => Forall (fun e => is_credential e = true) t).
Proof.
  induction fleets as [|f rest IH]; intros m0; cbn [collect_passwords].
  - sat_walk no_sub. constructor.
  - sat_walk ltac:(first [sat_use resolve_password_credentials | sat_use IH]);
      try apply Forall_app; auto.
Qed.

(** When the password loop raises, [main] raises the same exception and
    has done nothing but consult prompts, variables and files. *)
Lemma main_stops_with_credentials (W : world) (cfg : Settings) (args : Args) (gw : Gateway)
    (fleets : list Fleet) (e : exn) :
  outcome_of (collect_passwords W fleets [] initial_state) = Raise e ->
  let x := run_main W cfg args gw fleets in
  outcome_of x = Raise e /\ Forall (fun e => is_credential e = true) (trace_of x).
Proof.
  intros Hc x.
  pose proof (collect_passwords_credentials W fleets [] initial_state) as Ht.
  unfold outcome_of, trace_of in Hc, Ht.
  destruct (collect_passwords W fleets [] initial_state) as [[r s'] t'] eqn:E.
  cbn [fst snd] in Hc, Ht. subst r.
  assert (Hx : x = (Raise e, s', t')).
  { subst x. unfold run_main, main. unfold bind at 1. rewrite E. reflexivity. }
  rewrite Hx. split; [reflexivity | exact Ht].
Qed.




(** ** Locality: what concerns a host comes from its own iteration *)

Lemma hop_eqb_eq (a b : hop) : hop_eqb a b = true <-> a = b.
Proof.
  destruct a as [|i|i j], b as [|i'|i' j']; cbn; split; try congruence; try discriminate.
  - intros H. apply Nat.eqb_eq in H. congruence.
  - intros [= ->]. apply Nat.eqb_refl.
  - intros H. apply andb_true_iff in H. destruct H as [H1 H2].
    apply Nat.eqb_eq in H1, H2. congruence.
  - intros [= -> ->]. rewrite !Nat.eqb_refl. reflexivity.
Qed.

Lemma hop_eqb_neq (a b : hop) : a <> b -> hop_eqb a b = false.
Proof.
  intros H. destruct (hop_eqb a b) eqn:E; [|reflexivity].
  apply hop_eqb_eq in E. contradiction.
Qed.

Lemma events_about_app (h : hop) (t t' : trace) :
  events_about h (t ++ t') = events_about h t ++ events_about h t'.
Proof. apply filter_app. Qed.

Lemma events_about_quiet (P : event -> Prop) (h : hop) (t : trace) :
  (forall e, P e -> about h e = false) -> Forall P t -> events_about h t = [].
Proof.
  intros HP H. induction H as [|x l Hx _ IH]; cbn; [reflexivity|].
  rewrite (HP x Hx). exact IH.
Qed.

Lemma run_event_not_about (h h' : hop) (e : event) : run_event h' e -> about h e = false.
Proof. intros []; reflexivity. Qed.

Lemma node_event_about (dry : bool) (i j : nat) (h : hop) (e : event) :
  node_event dry i j e -> about h e = true -> h = Nd i j.
Proof.
  intros He Ha. destruct He; cbn [about ch_dest] in Ha; try discriminate Ha;
    apply hop_eqb_eq in Ha; congruence.
Qed.

Lemma shutdown_event_about (dry : bool) (h h' : hop) (e : event) :
  shutdown_event dry h' e -> about h e = true -> h = h'.
Proof.
  intros He Ha. destruct He; cbn [about ch_dest] in Ha; try discriminate Ha;
    apply hop_eqb_eq in Ha; congruence.
Qed.

Lemma fleet_event_about (dry : bool) (i : nat) (h : hop) (e : event) :
  fleet_event dry i e -> about h e = true -> fleet_of h = Some i.
Proof.
  intros He Ha. destruct He as [j e' He| | | | | | |].
  - rewrite (node_event_about dry i j h e' He Ha). reflexivity.
  - discriminate Ha.
  - cbn [about ch_dest] in Ha. apply hop_eqb_eq in Ha. subst h. reflexivity.
  - cbn [about ch_dest] in Ha. apply hop_eqb_eq in Ha. subst h. reflexivity.
  - cbn [about ch_dest] in Ha. apply hop_eqb_eq in Ha. subst h. reflexivity.
  - cbn [about ch_dest] in Ha. apply hop_eqb_eq in Ha. subst h. reflexivity.
  - cbn [about ch_dest] in Ha. apply hop_eqb_eq in Ha. subst h. reflexivity.
  - cbn [about ch_dest] in Ha. apply hop_eqb_eq in Ha. subst h. reflexivity.
Qed.

Lemma not_about (P : event -> Prop) (h : hop) :
  (forall e, P e -> about h e = true -> False) -> forall e, P e -> about h e = false.
Proof. intros H e He. destruct (about h e) eqn:E; [destruct (H e He E) | reflexivity]. Qed.

Lemma nodes_from_quiet (dry : bool) (i lo j : nat) (t : trace) :
  j < lo -> Forall (nodes_from dry i lo) t -> events_about (Nd i j) t = [].
Proof.
  intros Hj. apply events_about_quiet. apply not_about.
  intros e (j' & Hle & He) H. apply (node_event_about dry i j' _ e He) in H.
  injection H as ->. lia.
Qed.

Lemma node_events_quiet (dry : bool) (i j : nat) (h : hop) (t : trace) :
  h <> Nd i j -> Forall (node_event dry i j) t -> events_about h t = [].
Proof.
  intros Hh. apply events_about_quiet. apply not_about.
  intros e He H. apply Hh. exact (node_event_about dry i j h e He H).
Qed.

Lemma fleet_events_quiet (dry : bool) (i : nat) (h : hop) (t : trace) :
  fleet_of h <> Some i -> Forall (fleet_event dry i) t -> events_about h t = [].
Proof.
  intros Hh. apply events_about_quiet. apply not_about.
  intros e He H. apply Hh. exact (fleet_event_about dry i h e He H).
Qed.

Lemma fleets_events_quiet (dry : bool) (lo i : nat) (h : hop) (t : trace) :
  fleet_of h = Some i -> i < lo -> Forall (fleets_event dry lo) t -> events_about h t = [].
Proof.
  intros Hh Hi. apply events_about_quiet. apply not_about.
  intros e (k & Hk & He) H. apply (fleet_event_about dry k h e He) in H.
  rewrite Hh in H. injection H as ->. lia.
Qed.

Section LocalRules.

Variables Q Q' : hop -> trace -> Prop.
Hypothesis Q_nil : forall h, Q h [].
Hypothesis Q'_nil : forall h, Q' h [].

Lemma local_nil {A} (h : hop) (r : res A) (t : trace) :
  events_about h t = [] -> local Q Q' h r t.
Proof. intros E. unfold local. rewrite E. auto. Qed.

(** The first piece says it all. *)
Lemma local_app_l {A B} (h : hop) (r1 : res A) (r : res B) (t1 t2 : trace) :
  events_about h t2 = [] -> local Q Q' h r1 t1 -> (returned r -> returned r1) ->
  local Q Q' h r (t1 ++ t2).
Proof.
  intros E [H H'] Hr. unfold local. rewrite events_about_app, E, app_nil_r. auto.
Qed.

(** The second piece says it all. *)
Lemma local_app_r {A} (h : hop) (r : res A) (t1 t2 : trace) :
  events_about h t1 = [] -> local Q Q' h r t2 -> local Q Q' h r (t1 ++ t2).
Proof. intros E [H H']. unfold local. rewrite events_about_app, E. auto. Qed.

End LocalRules.

Lemma returned_Ret {A} (a : A) : returned (Ret a).
Proof. exists a. reflexivity. Qed.

Lemma not_returned_Raise {A} (e : exn) : ~ returned (@Raise A e).
Proof. intros [a H]. discriminate H. Qed.

#[local] Hint Resolve returned_Ret : trace.

Section NodesFrom.

Variable W : world.
Variable cfg : Settings.
Variable args : Args.

Lemma for_nodes_events_from (f : Fleet) (i : nat) (pw : string) (nodes : list string) :
  forall (j : nat) (parent_skip : bool),
    sat (for_nodes W cfg args f i (mkSSH (Ws i)) pw j nodes parent_skip)
        (fun _ t => Forall (nodes_from (dry_run args) i j) t).
Proof.
  induction nodes as [|node rest IH]; intros j parent_skip; cbn [for_nodes].
  - sat_walk no_sub. constructor.
  - sat_walk ltac:(first [sat_use process_node_events | sat_use IH]);
      split_hyps;
      repeat match goal with
        | H : Forall (node_event _ _ _) _ |- _ =>
            apply (Forall_weaken _ (nodes_from (dry_run args) i j)) in H;
            [|intros x Hx; exists j; split; [lia | exact Hx]]
        | H : Forall (nodes_from _ _ (S j)) _ |- _ =>
            apply (Forall_weaken _ (nodes_from (dry_run args) i j)) in H;
            [|intros x (j' & Hj' & Hx); exists j'; split; [lia | exact Hx]]
        end;
      eauto with trace.
Qed.

End NodesFrom.

Lemma option_eq_dec_nat (a b : option nat) : {a = b} + {a <> b}.
Proof. decide equality. apply Nat.eq_dec. Qed.

Lemma shutdown_events_quiet (dry : bool) (h h' : hop) (t : trace) :
  h <> h' -> Forall (shutdown_event dry h') t -> events_about h t = [].
Proof.
  intros Hh. apply events_about_quiet. apply not_about.
  intros e He H. apply Hh. exact (shutdown_event_about dry h h' e He H).
Qed.

Lemma run_events_quiet (h h' : hop) (t : trace) :
  Forall (run_event h') t -> events_about h t = [].
Proof. apply events_about_quiet. intros e. apply run_event_not_about. Qed.

(** Compute what a trace made of pieces says about a host. *)
Ltac about_norm :=
  unfold local; rewrite ?events_about_app;
  repeat match goal with
    | H : Forall (run_event _) ?t |- context [events_about ?h ?t] =>
        rewrite (run_events_quiet h _ t H)
    | H : Forall (shutdown_event _ ?h') ?t |- context [events_about ?h ?t] =>
        rewrite (shutdown_events_quiet _ h h' t ltac:(congruence) H)
    end;
  cbn [events_about filter about ch_dest hop_eqb app]; rewrite ?app_nil_r;
  unfold local, events_about in *.

Ltac local_leaf :=
  first
    [ solve [auto]
    | match goal with
      | H : forall j, _ /\ _ |- _ /\ _ =>
          let HQ := fresh in let HQ' := fresh in let Hr := fresh in
          destruct (H ltac:(assumption)) as [HQ HQ']; split;
          [ exact HQ
          | intros Hr; first [ solve [apply HQ'; eauto with trace]
                             | destruct Hr as [? Hr]; discriminate Hr ] ]
      end ].

Section Locality.

Variable W : world.
Variable cfg : Settings.
Variable args : Args.

Variables Q Q' : hop -> trace -> Prop.
Hypothesis Q_nil : forall h, Q h [].
Hypothesis Q'_nil : forall h, Q' h [].

Hypothesis Q_node :
  forall f i pw j node parent_skip,
    sat (process_node W cfg args f i (mkSSH (Ws i)) pw j node parent_skip)
        (fun r t => local Q Q' (Nd i j) r t).

Hypothesis Q_fleet :
  forall gw_conn fleet_pw_map i f,
    ssh_hop gw_conn = Gw ->
    sat (process_fleet W cfg args gw_conn fleet_pw_map i f)
        (fun r t => local Q Q' (Ws i) r t).

Lemma for_nodes_local (f : Fleet) (i : nat) (pw : string) (nodes : list string) :
  forall (j0 : nat) (parent_skip : bool),
    sat (for_nodes W cfg args f i (mkSSH (Ws i)) pw j0 nodes parent_skip)
        (fun r t => forall j, local Q Q' (Nd i j) r t).
Proof.
  induction nodes as [|node rest IH]; intros j0 parent_skip; cbn [for_nodes].
  - sat_walk no_sub. intros j. apply (local_nil Q Q' Q_nil Q'_nil). reflexivity.
  - sat_walk ltac:(first
      [ sat_use (sat_and _ _ _ (process_node_events W cfg args f i pw j0 node parent_skip)
                   (Q_node f i pw j0 node parent_skip))
      | sat_use (fun ps => sat_and _ _ _ (for_nodes_events_from W cfg args f i pw rest (S j0) ps)
                             (IH (S j0) ps)) ]);
      cbv beta in *; split_hyps; intros j;
      destruct (Nat.eq_dec j j0) as [->|Hne];
      first
        [ assumption
        | solve [ eapply (local_app_l Q Q');
                  [ eapply nodes_from_quiet; [|eassumption]; lia
                  | eassumption
                  | intros; eauto with trace ] ]
        | solve [ apply (local_app_r Q Q');
                  [ eapply node_events_quiet; [|eassumption]; congruence | auto ] ]
        | solve [ apply (local_nil Q Q' Q_nil Q'_nil);
                  eapply node_events_quiet; [|eassumption]; congruence ] ].
Qed.

Lemma process_fleet_nodes_local (gw_conn : SSH) (fleet_pw_map : list (string * string))
    (i : nat) (f : Fleet) :
  ssh_hop gw_conn = Gw ->
  sat (process_fleet W cfg args gw_conn fleet_pw_map i f)
      (fun r t => forall j, local Q Q' (Nd i j) r t).
Proof.
  intros Hgw. unfold process_fleet.
  destruct (dict_get (name f) fleet_pw_map) as [pw|];
    [|apply sat_raise; intros j; apply (local_nil Q Q' Q_nil Q'_nil); reflexivity].
  destruct (nodes f) as [l|] eqn:En.
  all: sat_walk ltac:(first
    [ sat_use diagnose_events | sat_use shutdown_host_events
    | sat_use (for_nodes_local f i pw l) ]);
    cbn [ssh_hop ch_dest ch_via] in *; split_hyps; intros j; about_norm; local_leaf.
Qed.

Lemma process_fleet_local (gw_conn : SSH) (fleet_pw_map : list (string * string))
    (i : nat) (f : Fleet) :
  ssh_hop gw_conn = Gw ->
  dict_get (name f) fleet_pw_map <> None ->
  nodes f <> None ->
  sat (process_fleet W cfg args gw_conn fleet_pw_map i f)
      (fun r t => Forall (fleet_event (dry_run args) i) t /\
                  forall h, h <> Gw -> local Q Q' h r t).
Proof.
  intros Hgw Hpw Hn.
  eapply sat_conseq;
    [ exact (sat_and _ _ _ (process_fleet_events W cfg args gw_conn fleet_pw_map i f Hgw Hpw
                              Hn)
               (sat_and _ _ _ (Q_fleet gw_conn fleet_pw_map i f Hgw)
                  (process_fleet_nodes_local gw_conn fleet_pw_map i f Hgw))) |].
  cbv beta. intros r t [[Hev _] [Hws Hnd]]. split; [exact Hev|].
  intros h Hh.
  destruct (option_eq_dec_nat (fleet_of h) (Some i)) as [E|E].
  - destruct h as [|i'|i' j]; cbn in E; [congruence | |]; injection E as ->; auto.
  - apply (local_nil Q Q' Q_nil Q'_nil). eapply fleet_events_quiet; eassumption.
Qed.

Lemma for_fleets_local (gw_conn : SSH) (fleet_pw_map : list (string * string))
    (fleets : list Fleet) :
  ssh_hop gw_conn = Gw ->
  passwords_known fleet_pw_map fleets ->
  nodes_listed fleets ->
  forall lo,
    sat (for_fleets W cfg args gw_conn fleet_pw_map lo fleets)
        (fun r t => Forall (fleets_event (dry_run args) lo) t /\
                    forall h, h <> Gw -> local Q Q' h r t).
Proof.
  intros Hgw. induction fleets as [|f rest IH]; intros Hpw Hnl lo; cbn [for_fleets].
  - sat_walk no_sub. split; [constructor|].
    intros h _. apply (local_nil Q Q' Q_nil Q'_nil). reflexivity.
  - assert (Hf : dict_get (name f) fleet_pw_map <> None) by (apply Hpw; left; reflexivity).
    assert (Hrest : passwords_known fleet_pw_map rest)
      by (intros g Hg; apply Hpw; right; exact Hg).
    assert (Hn : nodes f <> None) by (apply Hnl; left; reflexivity).
    assert (Hnrest : nodes_listed rest) by (intros g Hg; apply Hnl; right; exact Hg).
    assert (Hweak : forall t, Forall (fleet_event (dry_run args) lo) t ->
                              Forall (fleets_event (dry_run args) lo) t).
    { intros t. apply Forall_weaken. intros x Hx. exists lo. split; [lia | exact Hx]. }
    assert (Hweak' : forall t, Forall (fleets_event (dry_run args) (S lo)) t ->
                               Forall (fleets_event (dry_run args) lo) t).
    { intros t. apply Forall_weaken. intros x Hx.
      apply (fleets_event_weaken _ (S lo)); [lia | exact Hx]. }
    sat_walk ltac:(first
      [ sat_use (process_fleet_local gw_conn fleet_pw_map lo f Hgw Hf Hn)
      | sat_use (IH Hrest Hnrest (S lo)) ]);
      split_hyps; (split; [auto using Forall_app_intro|]); intros h Hh;
      destruct (option_eq_dec_nat (fleet_of h) (Some lo)) as [E|E];
      first
        [ solve [auto]
        | solve [ eapply (local_app_l Q Q');
                  [ eapply fleets_events_quiet; [exact E | | eassumption]; lia
                  | eauto
                  | intros; eauto with trace ] ]
        | solve [ apply (local_app_r Q Q');
                  [ eapply fleet_events_quiet; eassumption | auto ] ]
        | solve [ apply (local_nil Q Q' Q_nil Q'_nil);
                  eapply fleet_events_quiet; eassumption ] ].
Qed.

End Locality.

Lemma cred_events_quiet (h : hop) (t : trace) :
  Forall cred_event t -> events_about h t = [].
Proof. apply events_about_quiet. intros e []; reflexivity. Qed.

Lemma report_events_quiet (h : hop) (t : trace) :
  Forall report_event t -> events_about h t = [].
Proof. apply events_about_quiet. intros e []; reflexivity. Qed.

Lemma poweroff_events_quiet (dry : bool) (h : hop) (t : trace) :
  h <> Gw -> Forall (poweroff_event dry Gw) t -> events_about h t = [].
Proof.
  intros Hh. apply events_about_quiet. intros e []; [reflexivity|].
  cbn [about]. apply hop_eqb_neq. congruence.
Qed.

Lemma events_about_cons (h : hop) (e : event) (t : trace) :
  events_about h (e :: t) = (if about h e then [e] else []) ++ events_about h t.
Proof. cbn. destruct (about h e); reflexivity. Qed.

(** Around the loop over the fleets, [main] does nothing that concerns a
    fleet host or a node. *)
Lemma main_shape_local (Q Q' : hop -> trace -> Prop) (dry : bool) (fleets : list Fleet)
    (r : res unit) (t : trace) :
  (forall h, Q h []) -> (forall h, Q' h []) ->
  main_shape dry fleets (fun r t => Forall (fleets_event dry 0) t /\
                             forall h, h <> Gw -> local Q Q' h r t) r t ->
  forall h, h <> Gw -> local Q Q' h r t.
Proof.
  intros Q_nil Q'_nil Hshape h Hh.
  assert (Hgw : hop_eqb Gw h = false) by (apply hop_eqb_neq; congruence).
  destruct Hshape as [tc e H | tc host user port pk e H | tc host user port pk e H Hm
                     | tc host user port pk tf e tr H [_ Hf] Htr
                     | tc host user port pk tf tg r tr H [_ Hf] Htg _ Htr];
    try specialize (Hf h Hh); unfold local in *;
    repeat (rewrite events_about_app || rewrite events_about_cons);
    cbn [about]; rewrite ?Hgw;
    rewrite ?(cred_events_quiet h tc H), ?(report_events_quiet h tr Htr),
            ?(poweroff_events_quiet dry h tg Hh Htg), ?app_nil_r;
    cbn [app]; auto.
  destruct Hf as [HQ HQ']. split; [exact HQ|]. intros _. apply HQ'. exists tt. reflexivity.
Qed.

Section RunLocal.

Variable W : world.
Variable cfg : Settings.
Variable args : Args.

Variables Q Q' : hop -> trace -> Prop.
Hypothesis Q_nil : forall h, Q h [].
Hypothesis Q'_nil : forall h, Q' h [].

Hypothesis Q_node :
  forall f i pw j node parent_skip,
    sat (process_node W cfg args f i (mkSSH (Ws i)) pw j node parent_skip)
        (fun r t => local Q Q' (Nd i j) r t).

Hypothesis Q_fleet :
  forall gw_conn fleet_pw_map i f,
    ssh_hop gw_conn = Gw ->
    sat (process_fleet W cfg args gw_conn fleet_pw_map i f)
        (fun r t => local Q Q' (Ws i) r t).

(** What holds of every node iteration and of every fleet iteration, about
    their own host, holds of the whole run about every host. *)
Lemma run_local (gw : Gateway) (fleets : list Fleet) (h : hop) :
  h <> Gw ->
  local Q Q' h (outcome_of (run_main W cfg args gw fleets))
               (trace_of (run_main W cfg args gw fleets)).
Proof.
  apply (main_shape_local Q Q' (dry_run args) fleets); try assumption.
  apply (main_sat W cfg args gw fleets).
  intros gw_conn m Hgw Hpw Hnl.
  exact (for_fleets_local W cfg args Q Q' Q_nil Q'_nil Q_node Q_fleet gw_conn m fleets
           Hgw Hpw Hnl 0).
Qed.

End RunLocal.

(** ** C8: sessions are released *)

Lemma session_events_app (h : hop) (t t' : trace) :
  session_events h (t ++ t') = session_events h t ++ session_events h t'.
Proof. apply flat_map_app. Qed.

Lemma session_events_quiet (P : event -> Prop) (h : hop) (t : trace) :
  (forall e, P e -> session_event h e = []) -> Forall P t -> session_events h t = [].
Proof.
  intros HP H. induction H as [|x l Hx _ IH]; cbn; [reflexivity|].
  rewrite (HP x Hx). exact IH.
Qed.

Lemma run_event_no_session (h h' : hop) (e : event) :
  run_event h' e -> session_event h e = [].
Proof. intros []; reflexivity. Qed.

Lemma shutdown_event_no_session (dry : bool) (h h' : hop) (e : event) :
  shutdown_event dry h' e -> session_event h e = [].
Proof. intros []; reflexivity. Qed.

Lemma wait_event_no_session (h via dest : hop) (e : event) :
  wait_event via dest e -> session_event h e = [].
Proof. intros []; reflexivity. Qed.

Lemma nodes_event_no_fleet_session (dry : bool) (i k : nat) (e : event) :
  nodes_event dry i e -> session_event (Ws k) e = [].
Proof. intros [j He]. destruct He; try reflexivity. destruct r; reflexivity. Qed.

Lemma fleets_event_no_gateway_session (dry : bool) (lo : nat) (e : event) :
  fleets_event dry lo e -> session_event Gw e = [].
Proof.
  intros (i & _ & He). destruct He as [j e' He| | | | | | |]; try reflexivity.
  - destruct He; try reflexivity. destruct r; reflexivity.
  - destruct r; reflexivity.
Qed.

Ltac session_facts h :=
  repeat match goal with
    | H : Forall (run_event _) ?t |- _ =>
        pose proof (session_events_quiet _ h t (run_event_no_session h _) H); clear H
    | H : Forall (shutdown_event _ _) ?t |- _ =>
        pose proof (session_events_quiet _ h t (shutdown_event_no_session _ h _) H); clear H
    | H : Forall (wait_event _ _) ?t |- _ =>
        pose proof (session_events_quiet _ h t (wait_event_no_session h _ _) H); clear H
    | H : Forall (nodes_event _ _) ?t |- _ =>
        match h with
        | Ws ?k =>
            pose proof (session_events_quiet _ h t (nodes_event_no_fleet_session _ _ k) H);
            clear H
        end
    end.

Ltac session_leaf h :=
  cbn [ssh_hop ch_dest ch_via] in *; split_hyps; session_facts h;
  unfold session_released; rewrite ?session_events_app;
  repeat match goal with F : session_events _ _ = [] |- _ => rewrite F; clear F end;
  cbn [session_events flat_map session_event hop_eqb app];
  rewrite ?Nat.eqb_refl; cbn [andb app]; auto.

Section Sessions.

Variable W : world.
Variable cfg : Settings.
Variable args : Args.

Lemma process_node_sessions (f : Fleet) (i : nat) (pw : string) (j : nat) (node : string)
    (parent_skip : bool) :
  sat (process_node W cfg args f i (mkSSH (Ws i)) pw j node parent_skip)
      (fun _ t => session_released (Nd i j) t).
Proof.
  unfold process_node.
  sat_walk ltac:(first [sat_use diagnose_events | sat_use shutdown_host_events]).
  all: session_leaf (Nd i j).
Qed.

Lemma process_fleet_sessions (gw_conn : SSH) (fleet_pw_map : list (string * string))
    (i : nat) (f : Fleet) :
  ssh_hop gw_conn = Gw ->
  sat (process_fleet W cfg args gw_conn fleet_pw_map i f)
      (fun _ t => session_released (Ws i) t).
Proof.
  intros Hgw. unfold process_fleet.
  destruct (dict_get (name f) fleet_pw_map) as [pw|];
    [|apply sat_raise; left; reflexivity].
  destruct (nodes f) as [l|] eqn:En.
  all: sat_walk ltac:(first [sat_use diagnose_events | sat_use shutdown_host_events
                       | sat_use for_nodes_events]).
  all: session_leaf (Ws i).
Qed.

End Sessions.

Lemma session_events_cons (h : hop) (e : event) (t : trace) :
  session_events h (e :: t) = session_event h e ++ session_events h t.
Proof. reflexivity. Qed.

Lemma nodes_listed_not_missing (fleets : list Fleet) :
  nodes_listed fleets -> ~ nodes_missing fleets.
Proof. intros Hl (f & Hf & Hn). exact (Hl f Hf Hn). Qed.

Section GatewaySession.

Variable dry : bool.
Variable fleets : list Fleet.

Lemma cred_no_gateway_session (tc : trace) :
  Forall cred_event tc -> session_events Gw tc = [].
Proof. apply session_events_quiet. intros e []; reflexivity. Qed.

Lemma report_no_gateway_session (tr : trace) :
  Forall report_event tr -> session_events Gw tr = [].
Proof. apply session_events_quiet. intros e []; reflexivity. Qed.

Lemma poweroff_no_gateway_session (tg : trace) :
  Forall (poweroff_event dry Gw) tg -> session_events Gw tg = [].
Proof. apply session_events_quiet. intros e []; reflexivity. Qed.

Lemma fleets_no_gateway_session (tf : trace) :
  Forall (fleets_event dry 0) tf -> session_events Gw tf = [].
Proof. apply session_events_quiet. apply fleets_event_no_gateway_session. Qed.

(** With a list of nodes for every fleet, the gateway session is closed
    by the final block of [main]. *)
Lemma main_shape_gateway_session (r : res unit) (t : trace) :
  nodes_listed fleets ->
  main_shape dry fleets (fleets_quiet dry) r t -> session_released Gw t.
Proof.
  intros Hl
         [tc e H | tc host user port pk e H | tc host user port pk e H Hm
         | tc host user port pk tf e tr H Hq Htr
         | tc host user port pk tf tg r' tr H Hq Htg _ Htr];
    try (destruct (nodes_listed_not_missing fleets Hl Hm));
    unfold session_released;
    repeat (rewrite session_events_app || rewrite session_events_cons);
    cbn [session_event hop_eqb];
    rewrite ?(cred_no_gateway_session _ H), ?(report_no_gateway_session _ Htr),
            ?(poweroff_no_gateway_session _ Htg), ?(fleets_no_gateway_session _ Hq);
    cbn [app]; auto.
Qed.

(** With a fleet that has none, the run ends before the [try] of line 471:
    the gateway session, once opened, is not closed. *)
Lemma main_shape_gateway_session_kept (r : res unit) (t : trace) :
  nodes_missing fleets ->
  main_shape dry fleets (fun _ _ => nodes_listed fleets) r t ->
  session_events Gw t = [] \/ session_events Gw t = [true].
Proof.
  intros Hm
         [tc e H | tc host user port pk e H | tc host user port pk e H _
         | tc host user port pk tf e tr H Hq Htr
         | tc host user port pk tf tg r' tr H Hq Htg _ Htr];
    try (destruct (nodes_listed_not_missing fleets Hq Hm));
    repeat (rewrite session_events_app || rewrite session_events_cons);
    cbn [session_event hop_eqb];
    rewrite ?(cred_no_gateway_session _ H); cbn [app]; auto.
Qed.

End GatewaySession.

Lemma session_events_about (h : hop) (t : trace) :
  session_events h (events_about h t) = session_events h t.
Proof.
  induction t as [|e t IH]; [reflexivity|].
  rewrite events_about_cons, session_events_app. cbn [session_events flat_map].
  fold (session_events h t). rewrite IH.
  destruct (about h e) eqn:E; cbn [session_events flat_map app]; [rewrite app_nil_r; reflexivity|].
  destruct e; cbn in E |- *; try reflexivity; rewrite ?E; try reflexivity.
  destruct r; reflexivity.
Qed.

Lemma session_released_about (h : hop) (t : trace) :
  session_released h t -> session_released h (events_about h t).
Proof. unfold session_released. rewrite session_events_about. auto. Qed.

Lemma sessions_local (W : world) (cfg : Settings) (args : Args) (gw : Gateway)
    (fleets : list Fleet) (h : hop) :
  h <> Gw -> session_released h (trace_of (run_main W cfg args gw fleets)).
Proof.
  intros Hh.
  destruct (run_local W cfg args (fun h p => session_released h p) (fun _ _ => True))
    with (gw := gw) (fleets := fleets) (h := h) as [H _]; try assumption.
  - intros h'. left. reflexivity.
  - intros h'. exact I.
  - intros f i pw j node ps. eapply sat_conseq; [apply process_node_sessions|].
    intros r t H. split; [apply session_released_about; exact H | trivial].
  - intros gw_conn m i f Hgw. eapply sat_conseq; [apply process_fleet_sessions; exact Hgw|].
    intros r t H. split; [apply session_released_about; exact H | trivial].
  - unfold session_released in *. rewrite session_events_about in H. exact H.
Qed.




(** ** C3: the failure policy *)

Lemma existsb_policy_quiet (c : event -> bool) (P : event -> Prop) (t : trace) :
  (forall e, c e = true -> policy_event e = true) ->
  (forall e, P e -> policy_event e = false) ->
  Forall P t -> existsb c t = false.
Proof.
  intros Hc HP. apply existsb_Forall_false. intros e He.
  destruct (c e) eqn:E; [|reflexivity].
  specialize (Hc e E). rewrite (HP e He) in Hc. discriminate Hc.
Qed.

Lemma conn_failure_policy (h : hop) (e : event) :
  conn_failure_at h e = true -> policy_event e = true.
Proof. destruct e; try discriminate; destruct r; try discriminate; reflexivity. Qed.

Lemma issue_at_policy (st : string) (h : hop) (e : event) :
  issue_at st h e = true -> policy_event e = true.
Proof. destruct e; try discriminate; reflexivity. Qed.

Lemma waited_at_policy (h : hop) (e : event) :
  waited_at h e = true -> policy_event e = true.
Proof. destruct e; try discriminate; reflexivity. Qed.

Lemma late_issue_policy (h : hop) (e : event) :
  late_issue_at h e = true -> policy_event e = true.
Proof. destruct e; try discriminate; reflexivity. Qed.

Lemma run_event_no_policy (h : hop) (e : event) : run_event h e -> policy_event e = false.
Proof. intros []; reflexivity. Qed.

Lemma shutdown_event_no_policy (dry : bool) (h : hop) (e : event) :
  shutdown_event dry h e -> policy_event e = false.
Proof. intros []; reflexivity. Qed.

Lemma wait_event_no_policy (via dest : hop) (e : event) :
  wait_event via dest e -> policy_event e = false.
Proof. intros []; reflexivity. Qed.

(** The four facts about a piece of trace that has no policy event. *)
Lemma policy_quiet (P : event -> Prop) (h : hop) (st : string) (t : trace) :
  (forall e, P e -> policy_event e = false) -> Forall P t ->
  existsb (conn_failure_at h) t = false /\ existsb (issue_at st h) t = false /\
  existsb (waited_at h) t = false /\ existsb (late_issue_at h) t = false.
Proof.
  intros HP H. repeat split; eapply existsb_policy_quiet; try exact HP; try exact H.
  - apply conn_failure_policy.
  - apply issue_at_policy.
  - apply waited_at_policy.
  - apply late_issue_policy.
Qed.

(** The events of the nodes of a fleet are no policy event of a fleet
    host. *)
Lemma nodes_quiet_for_fleet (dry : bool) (i k : nat) (st : string) (t : trace) :
  Forall (nodes_event dry i) t ->
  existsb (conn_failure_at (Ws k)) t = false /\ existsb (issue_at st (Ws k)) t = false /\
  existsb (waited_at (Ws k)) t = false /\ existsb (late_issue_at (Ws k)) t = false.
Proof.
  intros H. repeat split; eapply existsb_Forall_false; try exact H;
    intros e [j He]; destruct He; try reflexivity; destruct r; reflexivity.
Qed.

Ltac policy_facts h st :=
  repeat match goal with
    | H : Forall (run_event _) ?t |- _ =>
        destruct (policy_quiet _ h st t (run_event_no_policy _) H) as (? & ? & ? & ?);
        clear H
    | H : Forall (shutdown_event _ _) ?t |- _ =>
        destruct (policy_quiet _ h st t (shutdown_event_no_policy _ _) H) as (? & ? & ? & ?);
        clear H
    | H : Forall (wait_event _ _) ?t |- _ =>
        destruct (policy_quiet _ h st t (wait_event_no_policy _ _) H) as (? & ? & ? & ?);
        clear H
    | H : Forall (nodes_event _ _) ?t |- _ =>
        match h with
        | Ws ?k =>
            destruct (nodes_quiet_for_fleet _ _ k st t H) as (? & ? & ? & ?); clear H
        end
    end.

Ltac policy_leaf h st :=
  cbn [ssh_hop ch_dest ch_via] in *; split_hyps; policy_facts h st;
  unfold wait_unrecorded; rewrite ?existsb_app;
  repeat match goal with F : existsb _ _ = false |- _ => rewrite F; clear F end;
  cbn [existsb conn_failure_at issue_at waited_at late_issue_at ch_dest hop_eqb stage
       orb];
  rewrite ?Nat.eqb_refl; cbn;
  try (split; [intros; try reflexivity; try discriminate|]);
  try (intros [? Hr]; discriminate Hr);
  intros; try reflexivity; try discriminate.

Section Policy.

Variable W : world.
Variable cfg : Settings.
Variable args : Args.

Lemma process_node_policy (f : Fleet) (i : nat) (pw : string) (j : nat) (node : string)
    (parent_skip : bool) :
  sat (process_node W cfg args f i (mkSSH (Ws i)) pw j node parent_skip)
      (fun r t => wait_unrecorded (Nd i j) t /\
                  (returned r -> existsb (conn_failure_at (Nd i j)) t = true ->
                                 existsb (issue_at "node" (Nd i j)) t = true)).
Proof.
  unfold process_node.
  sat_walk ltac:(first [sat_use diagnose_events | sat_use shutdown_host_events]).
  all: policy_leaf (Nd i j) "node".
Qed.

Lemma process_fleet_policy (gw_conn : SSH) (fleet_pw_map : list (string * string))
    (i : nat) (f : Fleet) :
  ssh_hop gw_conn = Gw ->
  sat (process_fleet W cfg args gw_conn fleet_pw_map i f)
      (fun r t => wait_unrecorded (Ws i) t /\
                  (returned r -> existsb (conn_failure_at (Ws i)) t = true ->
                                 existsb (issue_at "workstation" (Ws i)) t = true)).
Proof.
  intros Hgw. unfold process_fleet.
  destruct (dict_get (name f) fleet_pw_map) as [pw|];
    [|apply sat_raise; split; [intros H; discriminate H | intros [? H]; discriminate H]].
  destruct (nodes f) as [l|] eqn:En.
  all: sat_walk ltac:(first [sat_use diagnose_events | sat_use shutdown_host_events
                       | sat_use for_nodes_events]).
  all: policy_leaf (Ws i) "workstation".
Qed.

End Policy.

Lemma existsb_about (p : event -> bool) (h : hop) (t : trace) :
  (forall e, p e = true -> about h e = true) ->
  existsb p (events_about h t) = existsb p t.
Proof.
  intros Hp. induction t as [|e t IH]; [reflexivity|].
  rewrite events_about_cons, existsb_app. cbn [existsb]. rewrite IH.
  destruct (about h e) eqn:E; cbn [existsb orb]; [rewrite orb_false_r; reflexivity|].
  destruct (p e) eqn:Ep; [|reflexivity].
  rewrite (Hp e Ep) in E. discriminate E.
Qed.

Lemma conn_failure_about (h : hop) (e : event) :
  conn_failure_at h e = true -> about h e = true.
Proof. destruct e; try discriminate; destruct r; try discriminate; auto. Qed.

Lemma issue_at_about (st : string) (h : hop) (e : event) :
  issue_at st h e = true -> about h e = true.
Proof.
  destruct e; try discriminate. cbn. intros H. apply andb_true_iff in H. tauto.
Qed.

Lemma waited_at_about (h : hop) (e : event) : waited_at h e = true -> about h e = true.
Proof. destruct e; try discriminate; auto. Qed.

Lemma late_issue_about (h : hop) (e : event) :
  late_issue_at h e = true -> about h e = true.
Proof.
  destruct e; try discriminate. cbn. intros H. apply andb_true_iff in H. tauto.
Qed.

Lemma wait_unrecorded_about (h : hop) (t : trace) :
  wait_unrecorded h (events_about h t) <-> wait_unrecorded h t.
Proof.
  unfold wait_unrecorded.
  rewrite (existsb_about _ h t (waited_at_about h)),
          (existsb_about _ h t (late_issue_about h)). tauto.
Qed.

Lemma failure_recorded_about (h : hop) (t : trace) :
  failure_recorded h (events_about h t) <-> failure_recorded h t.
Proof.
  unfold failure_recorded. destruct (failure_stage h) as [st|]; [|tauto].
  rewrite (existsb_about _ h t (conn_failure_about h)),
          (existsb_about _ h t (issue_at_about st h)). tauto.
Qed.

Lemma policy_local (W : world) (cfg : Settings) (args : Args) (gw : Gateway)
    (fleets : list Fleet) (h : hop) :
  h <> Gw ->
  wait_unrecorded h (trace_of (run_main W cfg args gw fleets)) /\
  (returned (outcome_of (run_main W cfg args gw fleets)) ->
   failure_recorded h (trace_of (run_main W cfg args gw fleets))).
Proof.
  intros Hh.
  destruct (run_local W cfg args wait_unrecorded failure_recorded)
    with (gw := gw) (fleets := fleets) (h := h) as [H H']; try assumption.
  - intros h' Hd. discriminate Hd.
  - intros h'. unfold failure_recorded. destruct (failure_stage h'); [|exact I].
    intros Hd. discriminate Hd.
  - intros f i pw j node ps. eapply sat_conseq; [apply process_node_policy|].
    intros r t [H1 H2]. split; [apply wait_unrecorded_about; exact H1|].
    intros Hr. apply failure_recorded_about. exact (H2 Hr).
  - intros gw_conn m i f Hgw. eapply sat_conseq; [apply process_fleet_policy; exact Hgw|].
    intros r t [H1 H2]. split; [apply wait_unrecorded_about; exact H1|].
    intros Hr. apply failure_recorded_about. exact (H2 Hr).
  - split; [apply wait_unrecorded_about; exact H|].
    intros Hr. apply failure_recorded_about. exact (H' Hr).
Qed.

Lemma fleets_event_not_gateway_connect (dry : bool) (lo : nat) (e : event) :
  fleets_event dry lo e -> is_gateway_connect e = false.
Proof.
  intros (i & _ & He). destruct He as [j e' He| | | | | | |]; try reflexivity.
  destruct He; reflexivity.
Qed.

Lemma In_gateway_connect (t : trace) (host user : string) (port : Z)
    (pk pw : option string) (r : option exn) :
  In (EvConnect Gw host user port pk pw r) t -> existsb is_gateway_connect t = true.
Proof. intros H. apply existsb_exists. eexists. split; [exact H | reflexivity]. Qed.

(** An event of a piece is an event of the trace. *)
Ltac in_pieces :=
  lazymatch goal with
  | |- In _ (_ ++ _) => apply in_or_app; first [left; in_pieces | right; in_pieces]
  | |- In _ (_ :: _) => first [apply in_eq | apply in_cons; in_pieces]
  | |- In _ _ => eassumption
  end.

(** Case analysis on where in a trace made of pieces an event is. *)
Ltac split_in H :=
  first [ apply in_app_or in H; destruct H as [H|H]; split_in H
        | destruct H as [H|H]; [|split_in H]
        | idtac ].

(** A gateway that cannot be reached ends the run at once. *)
Lemma main_shape_gateway_fatal (dry : bool) (fleets : list Fleet) (r : res unit) (t : trace)
    (host user : string) (port : Z) (pk : option string) (e : exn) :
  main_shape dry fleets (fleets_raise dry) r t ->
  In (EvConnect Gw host user port pk None (Some e)) t ->
  r = Ret tt /\
  exists tc,
    Forall cred_event tc /\
    t = tc ++ [EvConnect Gw host user port pk None (Some e);
               EvPrint (MsgGatewayFatal (fst (classify_failure e None))
                          (snd (classify_failure e None)) (exc_str e))].
Proof.
  assert (Hc : forall tc x, Forall cred_event tc -> In x tc -> is_gateway_connect x = false).
  { intros tc x H Hx. rewrite Forall_forall in H. destruct (H x Hx); reflexivity. }
  assert (Hr : forall tr x, Forall report_event tr -> In x tr -> is_gateway_connect x = false).
  { intros tr x H Hx. rewrite Forall_forall in H. destruct (H x Hx); reflexivity. }
  assert (Hg : forall tg x, Forall (poweroff_event dry Gw) tg -> In x tg ->
                            is_gateway_connect x = false).
  { intros tg x H Hx. rewrite Forall_forall in H. destruct (H x Hx); reflexivity. }
  assert (Hf : forall tf x, Forall (fleets_event dry 0) tf -> In x tf ->
                            is_gateway_connect x = false).
  { intros tf x H Hx. rewrite Forall_forall in H.
    exact (fleets_event_not_gateway_connect dry 0 x (H x Hx)). }
  intros Hshape Hin.
  destruct Hshape as [tc e0 H | tc host0 user0 port0 pk0 e0 H
                     | tc host0 user0 port0 pk0 e0 H Hm
                     | tc host0 user0 port0 pk0 tf e0 tr H [Hq _] Htr
                     | tc host0 user0 port0 pk0 tf tg r tr H [Hq _] Htg _ Htr];
    split_in Hin;
    try discriminate Hin; try contradiction;
    try (apply (Hc _ _ H) in Hin; discriminate Hin);
    try (apply (Hr _ _ Htr) in Hin; discriminate Hin);
    try (apply (Hg _ _ Htg) in Hin; discriminate Hin);
    try (apply (Hf _ _ Hq) in Hin; discriminate Hin).
  injection Hin as -> -> -> -> ->. split; [reflexivity|]. exists tc. auto.
Qed.

(** Once the gateway is connected, an exception that ends the run was
    raised by a diagnostic command or by a power-off command, or by the
    count of the steps, on a fleet without a list of nodes. *)
Lemma main_shape_escapes (dry : bool) (fleets : list Fleet) (r : res unit) (t : trace)
    (e : exn) :
  main_shape dry fleets (fleets_raise dry) r t ->
  r = Raise e -> gateway_connected t -> raised_in t e \/ nodes_missing fleets.
Proof.
  intros Hshape Hr (host & user & port & pk & Hin).
  apply In_gateway_connect in Hin.
  assert (Hc : forall tc, Forall cred_event tc -> existsb is_gateway_connect tc = false).
  { intros tc. apply existsb_Forall_false. intros x []; reflexivity. }
  destruct Hshape as [tc e0 H | tc host0 user0 port0 pk0 e0 H
                     | tc host0 user0 port0 pk0 e0 H Hm
                     | tc host0 user0 port0 pk0 tf e0 tr H [_ Hq] Htr
                     | tc host0 user0 port0 pk0 tf tg r tr H _ Htg Hraise Htr].
  - rewrite (Hc _ H) in Hin. discriminate Hin.
  - discriminate Hr.
  - right. exact Hm.
  - left. injection Hr as ->. specialize (Hq e eq_refl).
    destruct Hq as [(h & cmd & Hq)|(h & cmd & stdin & Hq)]; [left|right];
      repeat eexists; in_pieces.
  - left. specialize (Hraise e Hr).
    destruct Hraise as [(h & cmd & Hq)|(h & cmd & stdin & Hq)]; [left|right];
      repeat eexists; in_pieces.
Qed.

Lemma for_fleets_raise (W : world) (cfg : Settings) (args : Args) (fleets : list Fleet)
    (gw_conn : SSH) (fleet_pw_map : list (string * string)) :
  ssh_hop gw_conn = Gw -> passwords_known fleet_pw_map fleets -> nodes_listed fleets ->
  sat (for_fleets W cfg args gw_conn fleet_pw_map 0 fleets) (fleets_raise (dry_run args)).
Proof. intros Hgw Hpw Hnl. apply for_fleets_events; assumption. Qed.

(** *** Processing goes on after a failure *)

Lemma node_processed_incl (i j : nat) (t t' : trace) :
  (forall x, In x t -> In x t') -> node_processed i j t -> node_processed i j t'.
Proof.
  intros Hi [(iss & H & Hs)|H]; [left; exists iss; split; [apply Hi; exact H | exact Hs]|].
  right. apply Hi. exact H.
Qed.

Lemma fleet_completed_incl (dry : bool) (i : nat) (f : Fleet) (t t' : trace) :
  (forall x, In x t -> In x t') -> fleet_completed dry i f t -> fleet_completed dry i f t'.
Proof.
  unfold fleet_completed, fleet_connect_failed, fleet_protective_skip, fleet_shut_down.
  intros Hi [(iss & H & Hs)|[Hn [[H1 H2]|[H1 H2]]]].
  - left. exists iss. auto.
  - right. split; [|left; auto]. intros j node Hj.
    exact (node_processed_incl i j t t' Hi (Hn j node Hj)).
  - right. split; [|right; auto]. intros j node Hj.
    exact (node_processed_incl i j t t' Hi (Hn j node Hj)).
Qed.

Ltac incl_pieces :=
  intros ? ?; repeat (progress (rewrite ?in_app_iff; cbn [In])); tauto.

Section Continued.

Variable W : world.
Variable cfg : Settings.
Variable args : Args.

(** An iteration of the node loop that returns has recorded the failure to
    connect or closed the session it opened; the failure and a wait that
    timed out do not stop it. *)
Lemma process_node_processed (f : Fleet) (i : nat) (ws : SSH) (pw : string) (j : nat)
    (node : string) (parent_skip : bool) :
  sat (process_node W cfg args f i ws pw j node parent_skip)
      (fun r t => returned r -> node_processed i j t).
Proof.
  unfold process_node.
  sat_walk ltac:(first [sat_use diagnose_events | sat_use shutdown_host_events]).
  all: cbn [ssh_hop ch_dest ch_via] in *; intros [b Hr]; try discriminate Hr.
  all: unfold node_processed;
       first [ solve [right; in_trace]
             | match goal with
               | |- context [EvIssue _ (mkIssue "node" ?a ?b ?c ?d ?e ?g)] =>
                   left; exists (mkIssue "node" a b c d e g); split; [in_trace | reflexivity]
               end ].
Qed.

Lemma for_nodes_processed (f : Fleet) (i : nat) (ws : SSH) (pw : string)
    (nodes : list string) :
  forall (j0 : nat) (parent_skip : bool),
    sat (for_nodes W cfg args f i ws pw j0 nodes parent_skip)
        (fun r t => returned r ->
                    forall k node, nth_error nodes k = Some node ->
                                   node_processed i (j0 + k) t).
Proof.
  induction nodes as [|node rest IH]; intros j0 parent_skip; cbn [for_nodes].
  - sat_walk no_sub. intros _ [|k] n H; discriminate H.
  - sat_walk ltac:(first [sat_use process_node_processed | sat_use IH]);
      intros [b Hr]; try discriminate Hr.
    intros [|k] n Hk; cbn in Hk.
    + rewrite Nat.add_0_r.
      eapply node_processed_incl; cycle 1; [solve [eauto with trace] | incl_pieces].
    + replace (j0 + S k)%nat with (S j0 + k)%nat by lia.
      eapply node_processed_incl; cycle 1; [solve [eauto with trace] | incl_pieces].
Qed.

(** An iteration of the fleet loop that returns has recorded the failure
    to connect, or has processed every node of the fleet and come to the
    fleet host. *)
Lemma process_fleet_completed (gw_conn : SSH) (fleet_pw_map : list (string * string))
    (i : nat) (f : Fleet) :
  sat (process_fleet W cfg args gw_conn fleet_pw_map i f)
      (fun r t => r = Ret tt -> fleet_completed (dry_run args) i f t).
Proof.
  unfold process_fleet.
  destruct (dict_get (name f) fleet_pw_map) as [pw|];
    [|apply sat_raise; intros H; discriminate H].
  unfold fleet_completed, node_list.
  destruct (nodes f) as [l|] eqn:En.
  all: sat_walk ltac:(first [sat_use diagnose_events | sat_use shutdown_host_shape
                            | sat_use (for_nodes_processed f i (mkSSH (Ws i)) pw l)]);
    cbn [ssh_hop ch_dest ch_via] in *;
    repeat match goal with
      | H : exists _, _ |- _ => destruct H
      | H : _ /\ _ |- _ => destruct H
      end; subst;
    intros Hr; try discriminate Hr;
    unfold fleet_connect_failed, fleet_protective_skip, fleet_shut_down.
  all: first
         [ solve [left; eexists; split; [in_trace | reflexivity]]
         | right; split;
           [ intros j node Hj;
             eapply node_processed_incl; cycle 1;
               [ match goal with
                 | H : _ -> forall k n, _ -> node_processed _ _ _ |- _ =>
                     exact (H (returned_Ret _) j node Hj)
                 end
               | incl_pieces ]
           | first [ solve [left; split; in_trace] | solve [right; split; in_trace] ] ] ].
Qed.

Lemma for_fleets_completed (gw_conn : SSH) (fleet_pw_map : list (string * string))
    (fleets : list Fleet) :
  forall i,
    sat (for_fleets W cfg args gw_conn fleet_pw_map i fleets)
        (fun r t => r = Ret tt ->
                    forall k f, nth_error fleets k = Some f ->
                                fleet_completed (dry_run args) (i + k) f t).
Proof.
  induction fleets as [|f rest IH]; intros i; cbn [for_fleets].
  - sat_walk no_sub. intros _ [|k] g H; discriminate H.
  - sat_walk ltac:(first [sat_use process_fleet_completed | sat_use IH]);
      repeat match goal with u : unit |- _ => destruct u end;
      intros Hr; try discriminate Hr.
    intros [|k] g Hk; cbn in Hk.
    + injection Hk as <-. rewrite Nat.add_0_r.
      eapply fleet_completed_incl; cycle 1; [solve [eauto] | incl_pieces].
    + replace (i + S k)%nat with (S i + k)%nat by lia.
      eapply fleet_completed_incl; cycle 1; [solve [eauto] | incl_pieces].
Qed.

Lemma for_fleets_policy (fleets : list Fleet) (gw_conn : SSH)
    (fleet_pw_map : list (string * string)) :
  ssh_hop gw_conn = Gw -> passwords_known fleet_pw_map fleets -> nodes_listed fleets ->
  sat (for_fleets W cfg args gw_conn fleet_pw_map 0 fleets)
      (fun r t => fleets_raise (dry_run args) r t /\ fleets_completed args fleets r t).
Proof.
  intros Hgw Hpw Hnl. apply sat_and.
  - apply for_fleets_events; assumption.
  - apply (for_fleets_completed gw_conn fleet_pw_map fleets 0).
Qed.

End Continued.

(** A run that connected to the gateway and returned went through the
    whole loop over the fleets. *)
Lemma main_shape_completed (args : Args) (fleets : list Fleet) (r : res unit) (t : trace) :
  main_shape (dry_run args) fleets
    (fun r t => fleets_raise (dry_run args) r t /\ fleets_completed args fleets r t) r t ->
  r = Ret tt -> gateway_connected t ->
  forall k f, nth_error fleets k = Some f -> fleet_completed (dry_run args) k f t.
Proof.
  intros Hshape Hr (host & user & port & pk & Hin) k f Hk.
  assert (Hc : forall tc, Forall cred_event tc -> existsb is_gateway_connect tc = false).
  { intros tc. apply existsb_Forall_false. intros x []; reflexivity. }
  destruct Hshape as [tc e0 H | tc host0 user0 port0 pk0 e0 H
                     | tc host0 user0 port0 pk0 e0 H Hm
                     | tc host0 user0 port0 pk0 tf e0 tr H _ Htr
                     | tc host0 user0 port0 pk0 tf tg r tr H [_ Hq] Htg _ Htr];
    try discriminate Hr.
  - exfalso. apply in_app_or in Hin. destruct Hin as [Hin|[Hin|[Hin|[]]]];
      try discriminate Hin.
    apply In_gateway_connect in Hin. rewrite (Hc _ H) in Hin. discriminate Hin.
  - apply (fleet_completed_incl _ k f tf); [incl_pieces | exact (Hq eq_refl k f Hk)].
Qed.

Lemma main_shape_weaken (dry : bool) (fleets : list Fleet) (P P' : res unit -> trace -> Prop)
    (r : res unit) (t : trace) :
  (forall r t, P r t -> P' r t) -> main_shape dry fleets P r t -> main_shape dry fleets P' r t.
Proof.
  intros HP [tc e H | tc host user port pk e H | tc host user port pk e H Hm
            | tc host user port pk tf e tr H Hq Htr
            | tc host user port pk tf tg r' tr H Hq Htg Hraise Htr].
  - apply ms_credentials; assumption.
  - apply ms_gateway; assumption.
  - apply ms_steps; assumption.
  - apply ms_fleets_raise; auto.
  - apply ms_done; auto.
Qed.

(** C3: in every run,
    - a gateway connection that fails ends the run: the failure is
      classified and reported, nothing else is attempted and [main]
      returns;
    - for every fleet host and node, if the run returns, a failed channel
      or connection to it has its Issue (stage workstation or node);
    - where a wait ran for a host, the only Issue the host can have is the
      pre-check warning: a confirmation timeout appends no Issue;
    - once the gateway is connected, an exception that ends the run was
      raised by a diagnostic command or a power-off command, or by the
      count of the steps when a fleet has no list of nodes; never by a
      connection attempt;
    - a run that connected to the gateway and returns has gone through the
      whole plan, whatever failed on the way: every fleet either has its
      connection failure recorded, or had every one of its nodes processed
      (the node's connection failure recorded, or its session opened and
      closed) and then was skipped for protection or had [shutdown_host]
      called, and its session closed. *)
Theorem failure_policy
    (W : world) (cfg : Settings) (args : Args) (gw : Gateway) (fleets : list Fleet) :
  let x := run_main W cfg args gw fleets in
  (forall host user port pk e,
      In (EvConnect Gw host user port pk None (Some e)) (trace_of x) ->
      outcome_of x = Ret tt /\
      exists tc,
        Forall cred_event tc /\
        trace_of x =
          tc ++ [EvConnect Gw host user port pk None (Some e);
                 EvPrint (MsgGatewayFatal (fst (classify_failure e None))
                            (snd (classify_failure e None)) (exc_str e))]) /\
  (forall h, h <> Gw -> returned (outcome_of x) -> failure_recorded h (trace_of x)) /\
  (forall h, h <> Gw -> wait_unrecorded h (trace_of x)) /\
  (forall e, outcome_of x = Raise e -> gateway_connected (trace_of x) ->
             raised_in (trace_of x) e \/ nodes_missing fleets) /\
  (outcome_of x = Ret tt -> gateway_connected (trace_of x) ->
   forall k f, nth_error fleets k = Some f ->
               fleet_completed (dry_run args) k f (trace_of x)).
Proof.
  intros x.
  pose proof (main_sat W cfg args gw fleets _
                (for_fleets_policy W cfg args fleets) initial_state) as Hfull.
  fold (run_main W cfg args gw fleets) in Hfull. fold x in Hfull.
  pose proof (main_shape_weaken _ _ _ (fleets_raise (dry_run args)) _ _
                (fun r t H => proj1 H) Hfull) as Hshape.
  split; [|split; [|split; [|split]]].
  - intros host user port pk e.
    apply main_shape_gateway_fatal with (dry := dry_run args) (fleets := fleets).
    exact Hshape.
  - intros h Hh. apply (policy_local W cfg args gw fleets h Hh).
  - intros h Hh. apply (policy_local W cfg args gw fleets h Hh).
  - intros e. apply main_shape_escapes with (dry := dry_run args). exact Hshape.
  - apply main_shape_completed. exact Hfull.
Qed.

Lemma failure_policy_witness :
  let x := run_main world_node_auth_fails default_settings live_strict gw0 [ws1] in
  existsb (conn_failure_at (Nd 0 0)) (trace_of x) = true /\
  existsb (issue_at "node" (Nd 0 0)) (trace_of x) = true.
Proof.
  intros x. split; [vm_compute; reflexivity|].
  assert (Hret : returned (outcome_of x)) by (exists tt; vm_compute; reflexivity).
  assert (Hnd : Nd 0 0 <> Gw) by discriminate.
  apply (proj1 (proj2 (failure_policy world_node_auth_fails default_settings live_strict
                         gw0 [ws1])) (Nd 0 0) Hnd Hret).
  vm_compute. reflexivity.
Defined.

(** C3 as stated fails when a node stays reachable: the wait times out and
    no Issue is appended for the node. *)
Lemma failures_absorbed_as_stated_fails :
  ~ failures_absorbed_as_stated world_nodes_stay_up default_settings live_short gw0 [ws1].
Proof.
  intros [H _]. destruct (H (Nd 0 0)) as [iss Hin].
  - vm_compute. tauto.
  - assert (Hi : In iss (issues_of (trace_of (run_main world_nodes_stay_up default_settings
                                                live_short gw0 [ws1])))).
    { unfold issues_of. apply in_flat_map. eexists. split; [exact Hin|]. left. reflexivity. }
    vm_compute in Hi. exact Hi.
Qed.

(** ** C4: a dry run beside a live run *)

Lemma shared_app (t t' : trace) : shared (t ++ t') = shared t ++ shared t'.
Proof. apply filter_app. Qed.

Lemma sim_refl (s : state) : sim s s.
Proof. repeat split. Qed.

Lemma sim_trans (s1 s2 s3 : state) : sim s1 s2 -> sim s2 s3 -> sim s1 s3.
Proof. unfold sim. intros (?&?&?&?) (?&?&?&?). repeat split; congruence. Qed.

Lemma sim_sym (s1 s2 : state) : sim s1 s2 -> sim s2 s1.
Proof. unfold sim. intros (?&?&?&?). repeat split; congruence. Qed.

Section RelRules.

Variable W : world.
Context {A A' B B' : Type}.

Lemma rel0_rel (R : A -> A' -> Prop) (m1 : M A) (m2 : M A') :
  rel0 R m1 m2 -> rel W R m1 m2.
Proof. intros H s1 s2 Hs. left. exact (H s1 s2 Hs). Qed.

Lemma rel0_weaken (R R' : A -> A' -> Prop) (m1 : M A) (m2 : M A') :
  rel0 R m1 m2 -> (forall a b, R a b -> R' a b) -> rel0 R' m1 m2.
Proof.
  intros H HR s1 s2 Hs. destruct (H s1 s2 Hs) as (H1 & H2 & H3).
  split; [exact H1 | split; [exact H2|]].
  unfold res_rel in *. destruct (outcome_of (m1 s1)), (outcome_of (m2 s2)); auto.
Qed.

Lemma rel0_ret (R : A -> A' -> Prop) (a : A) (b : A') : R a b -> rel0 R (ret a) (ret b).
Proof. intros H s1 s2 Hs. repeat split; try apply Hs. exact H. Qed.

Lemma rel0_silent (m1 : M A) (m2 : M A') : silent m1 -> silent m2 -> rel0 any m1 m2.
Proof.
  intros H1 H2 s1 s2 Hs.
  destruct (H1 s1) as ([a Ha] & Ht1 & Hs1). destruct (H2 s2) as ([b Hb] & Ht2 & Hs2).
  split; [|split].
  - eapply sim_trans; [apply sim_sym; exact Hs1|]. exact (sim_trans _ _ _ Hs Hs2).
  - rewrite Ht1, Ht2. reflexivity.
  - rewrite Ha, Hb. exact I.
Qed.

Lemma rel0_bind (R : A -> A' -> Prop) (R' : B -> B' -> Prop)
    (m1 : M A) (m2 : M A') (k1 : A -> M B) (k2 : A' -> M B') :
  rel0 R m1 m2 -> (forall a b, R a b -> rel0 R' (k1 a) (k2 b)) ->
  rel0 R' (bind m1 k1) (bind m2 k2).
Proof.
  intros Hm Hk s1 s2 Hs. specialize (Hm s1 s2 Hs).
  unfold agree, bind, outcome_of, state_of, trace_of in *.
  destruct (m1 s1) as [[r1 s1'] t1], (m2 s2) as [[r2 s2'] t2]. cbn [fst snd] in *.
  destruct Hm as (Hs' & Ht & Hr).
  destruct r1 as [a|e1], r2 as [b|e2]; cbn [res_rel] in Hr; try contradiction.
  - specialize (Hk a b Hr s1' s2' Hs').
    unfold agree, outcome_of, state_of, trace_of in Hk.
    destruct (k1 a s1') as [[r1' s1''] t1'], (k2 b s2') as [[r2' s2''] t2'].
    cbn [fst snd] in *. destruct Hk as (Hs'' & Ht' & Hr').
    repeat split; try apply Hs''; try exact Hr'. rewrite !shared_app. congruence.
  - cbn [fst snd]. repeat split; try apply Hs'; assumption.
Qed.

Lemma rel0_try_except (R : A -> A' -> Prop)
    (m1 : M A) (m2 : M A') (h1 : exn -> M A) (h2 : exn -> M A') :
  rel0 R m1 m2 -> (forall e, rel0 R (h1 e) (h2 e)) ->
  rel0 R (try_except m1 h1) (try_except m2 h2).
Proof.
  intros Hm Hk s1 s2 Hs. specialize (Hm s1 s2 Hs).
  unfold agree, try_except, outcome_of, state_of, trace_of in *.
  destruct (m1 s1) as [[r1 s1'] t1], (m2 s2) as [[r2 s2'] t2]. cbn [fst snd] in *.
  destruct Hm as (Hs' & Ht & Hr).
  destruct r1 as [a|e1], r2 as [b|e2]; cbn [res_rel] in Hr; try contradiction.
  - cbn [fst snd]. repeat split; try apply Hs'; assumption.
  - subst e2. specialize (Hk e1 s1' s2' Hs').
    unfold agree, outcome_of, state_of, trace_of in Hk.
    destruct (h1 e1 s1') as [[r1' s1''] t1'], (h2 e1 s2') as [[r2' s2''] t2'].
    cbn [fst snd] in *. destruct Hk as (Hs'' & Ht' & Hr').
    repeat split; try apply Hs''; try exact Hr'. rewrite !shared_app. congruence.
Qed.

Lemma rel_bind (R : A -> A' -> Prop) (R' : B -> B' -> Prop)
    (m1 : M A) (m2 : M A') (k1 : A -> M B) (k2 : A' -> M B') :
  rel W R m1 m2 -> (forall a b, R a b -> rel W R' (k1 a) (k2 b)) ->
  rel W R' (bind m1 k1) (bind m2 k2).
Proof.
  intros Hm Hk s1 s2 Hs. specialize (Hm s1 s2 Hs).
  unfold agree, cut, bind, outcome_of, state_of, trace_of in *.
  destruct (m1 s1) as [[r1 s1'] t1], (m2 s2) as [[r2 s2'] t2]. cbn [fst snd] in *.
  destruct Hm as [(Hs' & Ht & Hr)|(Hw & [e He] & [l Hl])].
  - destruct r1 as [a|e1], r2 as [b|e2]; cbn [res_rel] in Hr; try contradiction.
    + specialize (Hk a b Hr s1' s2' Hs').
      unfold agree, cut, outcome_of, state_of, trace_of in Hk.
      destruct (k1 a s1') as [[r1' s1''] t1'], (k2 b s2') as [[r2' s2''] t2'].
      cbn [fst snd] in *.
      destruct Hk as [(Hs'' & Ht' & Hr')|(Hw & He & [l Hl])].
      * left. repeat split; try apply Hs''; try exact Hr'. rewrite !shared_app. congruence.
      * right. split; [exact Hw|]. split; [exact He|]. exists l.
        rewrite !shared_app, Hl, Ht, app_assoc. reflexivity.
    + left. cbn [fst snd]. repeat split; try apply Hs'; assumption.
  - right. subst r1. cbn [fst snd]. split; [exact Hw|]. split; [eauto|].
    destruct r2 as [b|e2].
    + destruct (k2 b s2') as [[r2' s2''] t2']. cbn [fst snd].
      exists (l ++ shared t2'). rewrite shared_app, Hl, app_assoc. reflexivity.
    + cbn [fst snd]. exists l. exact Hl.
Qed.

Lemma rel_try_finally (R : A -> A' -> Prop)
    (m1 : M A) (m2 : M A') (f1 : M B) (f2 : M B') :
  rel W R m1 m2 -> silent f1 -> silent f2 ->
  rel W any (try_finally m1 f1) (try_finally m2 f2).
Proof.
  intros Hm Hf1 Hf2 s1 s2 Hs. specialize (Hm s1 s2 Hs).
  unfold agree, cut, try_finally, outcome_of, state_of, trace_of in *.
  destruct (m1 s1) as [[r1 s1'] t1], (m2 s2) as [[r2 s2'] t2]. cbn [fst snd] in *.
  destruct (Hf1 s1') as ([b1 Hb1] & Hq1 & Hsim1).
  destruct (Hf2 s2') as ([b2 Hb2] & Hq2 & Hsim2).
  unfold outcome_of, state_of, trace_of in *.
  destruct (f1 s1') as [[rf1 sf1] tf1], (f2 s2') as [[rf2 sf2] tf2]. cbn [fst snd] in *.
  subst rf1 rf2.
  destruct Hm as [(Hs' & Ht & Hr)|(Hw & [e He] & [l Hl])].
  - left. assert (Hfin : sim sf1 sf2).
    { eapply sim_trans; [apply sim_sym; exact Hsim1|]. exact (sim_trans _ _ _ Hs' Hsim2). }
    destruct r1 as [a|e1], r2 as [b|e2]; cbn [res_rel] in Hr; try contradiction;
      cbn [fst snd]; repeat split; try apply Hfin; try exact Hr;
      rewrite !shared_app, Hq1, Hq2, Ht; reflexivity.
  - right. subst r1. cbn [fst snd]. split; [exact Hw|]. split; [eauto|].
    exists l. destruct r2; cbn [fst snd]; rewrite !shared_app, Hq1, Hq2, Hl, !app_nil_r;
      reflexivity.
Qed.

End RelRules.

(** The primitives, side by side. *)
Ltac rel0_prim :=
  let s1 := fresh "s1" in let s2 := fresh "s2" in
  intros s1 s2 (Ho & Hc & Hr & Hi);
  unfold agree, sim, outcome_of, state_of, trace_of; cbn;
  rewrite ?Ho, ?Hc, ?Hr, ?Hi;
  repeat match goal with |- context [match ?x with _ => _ end] => destruct x end;
  cbn; repeat split; auto.

Ltac silent_prim :=
  let s := fresh "s" in
  intros s; unfold sim, outcome_of, state_of, trace_of; cbn;
  repeat split; eauto with trace.

Section RelPrimitives.

Variable W : world.

Lemma rel0_connect_host (host user : string) (port : Z) (pk pw : option string)
    (sock : option Channel) :
  rel0 eq (connect_host W host user port pk pw sock) (connect_host W host user port pk pw sock).
Proof. rel0_prim. Qed.

Lemma rel0_open_channel (transport : SSH) (dest : hop) (host : string) (port : Z) :
  rel0 eq (open_direct_tcpip_channel W transport dest host port)
          (open_direct_tcpip_channel W transport dest host port).
Proof. rel0_prim. Qed.

Lemma rel0_run (ws : SSH) (cmd : string) : rel0 eq (_run W ws cmd) (_run W ws cmd).
Proof. rel0_prim. Qed.

Lemma rel0_from_private_key_file (kind : key_kind) (p : string) (pw : option string) :
  rel0 eq (from_private_key_file W kind p pw) (from_private_key_file W kind p pw).
Proof. rel0_prim. Qed.

Lemma rel0_getpass (label : string) : rel0 eq (getpass W label) (getpass W label).
Proof. rel0_prim. Qed.

Lemma rel0_environ_get (key : string) : rel0 eq (environ_get W key) (environ_get W key).
Proof. rel0_prim. Qed.

Lemma rel0_read_file (path : string) : rel0 eq (read_file W path) (read_file W path).
Proof. rel0_prim. Qed.

Lemma rel0_get_issues : rel0 eq get_issues get_issues.
Proof. rel0_prim. Qed.

Lemma rel0_issues_append (h : hop) (iss : Issue) :
  rel0 any (issues_append h iss) (issues_append h iss).
Proof. rel0_prim. Qed.

Lemma rel0_issues_init : rel0 any issues_init issues_init.
Proof. rel0_prim. Qed.

Lemma rel0_raise {A B} (R : A -> B -> Prop) (e : exn) : rel0 R (raise e) (raise e).
Proof. rel0_prim. Qed.

Lemma silent_ret {A} (a : A) : silent (ret a).
Proof. silent_prim. Qed.

Lemma silent_emit (e : event) : is_shared e = false -> silent (emit e).
Proof.
  intros H s. unfold sim, outcome_of, state_of, trace_of, shared; cbn. rewrite H.
  repeat split; eauto with trace.
Qed.

Lemma silent_print (m : message) : silent (print m).
Proof. apply silent_emit. reflexivity. Qed.

Lemma silent_close (c : SSH) : silent (close c).
Proof. apply silent_emit. reflexivity. Qed.

Lemma silent_time_sleep (ms : Z) : silent (time_sleep ms).
Proof. silent_prim. Qed.

Lemma silent_bind {A B} (m : M A) (k : A -> M B) :
  silent m -> (forall a, silent (k a)) -> silent (bind m k).
Proof.
  intros Hm Hk s. destruct (Hm s) as ([a Ha] & Ht & Hs).
  unfold bind, outcome_of, state_of, trace_of in *.
  destruct (m s) as [[r s1] t1]. cbn [fst snd] in *. subst r.
  destruct (Hk a s1) as (Hr' & Ht' & Hs'). unfold outcome_of, state_of, trace_of in *.
  destruct (k a s1) as [[r2 s2] t2]. cbn [fst snd] in *.
  split; [exact Hr'|]. split; [rewrite shared_app, Ht, Ht'; reflexivity|].
  exact (sim_trans _ _ _ Hs Hs').
Qed.

Lemma wait_loop_sim (transport : SSH) (dest : hop) (host : string) (port : Z)
    (deadline interval : Z) (fuel : nat) :
  forall s r s' t,
    wait_loop W fuel transport dest host port deadline interval s = Some (r, s', t) ->
    sim s s'.
Proof.
  induction fuel as [|fuel IH]; intros s r s' t; [discriminate|].
  rewrite wait_loop_S. destruct (now s <? deadline)%Z.
  - rewrite is_ssh_reachable_run.
    destruct (fst (w_probe W (n_probe s))); cbn [negb].
    + intros H; injection H as _ <- _. repeat split.
    + unfold time_sleep.
      match goal with |- context [wait_loop W fuel _ _ _ _ _ _ ?s2] =>
        specialize (IH s2);
        destruct (wait_loop W fuel transport dest host port deadline interval s2)
          as [[[r3 s3] t3]|] end; [|discriminate].
      intros H; injection H as _ <- _.
      specialize (IH _ _ _ eq_refl). destruct IH as (?&?&?&?). repeat split; assumption.
  - intros H; injection H as _ <- _. apply sim_refl.
Qed.

Lemma wait_events_not_shared (via dest : hop) (t : trace) :
  Forall (wait_event via dest) t -> shared t = [].
Proof.
  induction 1 as [|x l Hx _ IH]; [reflexivity|].
  unfold shared in *. cbn [filter]. destruct Hx; cbn [is_shared]; exact IH.
Qed.

Lemma silent_wait (transport : SSH) (dest : hop) (host : string) (port T P : Z) :
  silent (wait_for_host_down_via_transport W transport dest host port T P).
Proof.
  intros s. unfold wait_for_host_down_via_transport, outcome_of, state_of, trace_of.
  pose proof (wait_loop_enough_fuel W transport dest host port (now s + 1000 * T)
                (Z.max 1 P) ltac:(lia) (Z.to_nat T) s ltac:(lia)) as Hfuel.
  destruct (wait_loop W (S (Z.to_nat T)) transport dest host port (now s + 1000 * T)
              (Z.max 1 P) s) as [[[r s'] t]|] eqn:E; [|congruence].
  destruct (wait_loop_returns _ _ _ _ _ _ _ _ _ _ _ _ E) as [ok ->].
  cbn [fst snd]. split; [eauto with trace|]. split.
  - change (EvPrint (MsgWaiting host T) :: t ++ [EvWaited dest ok])
      with ([EvPrint (MsgWaiting host T)] ++ t ++ [EvWaited dest ok]).
    rewrite !shared_app, (wait_events_not_shared _ _ t (wait_loop_events _ _ _ _ _ _ _ _ _ _ _ _ E)).
    reflexivity.
  - eapply wait_loop_sim. exact E.
Qed.

End RelPrimitives.

(** Walking two copies of the same code; [sub] deals with the calls that
    have a lemma of their own. *)
Ltac rel0_go sub :=
  cbv beta iota;
  lazymatch goal with
  | |- rel0 _ (bind _ _) (bind _ _) =>
      eapply rel0_bind;
      [ rel0_go sub
      | let a := fresh in let b := fresh in let E := fresh in
        intros a b E; first [subst b | red in E; subst b | idtac]; rel0_go sub ]
  | |- rel0 _ (try_except _ _) (try_except _ _) =>
      apply rel0_try_except; [rel0_go sub | intros ?; rel0_go sub]
  | |- rel0 _ (ret _) (ret _) => apply rel0_ret; first [reflexivity | exact I]
  | |- rel0 _ (raise _) (raise _) => apply rel0_raise
  | |- rel0 _ (_run _ _ _) (_run _ _ _) => apply rel0_run
  | |- rel0 _ (connect_host _ _ _ _ _ _ _) (connect_host _ _ _ _ _ _ _) =>
      apply rel0_connect_host
  | |- rel0 _ (open_direct_tcpip_channel _ _ _ _ _) (open_direct_tcpip_channel _ _ _ _ _) =>
      apply rel0_open_channel
  | |- rel0 _ (from_private_key_file _ _ _ _) (from_private_key_file _ _ _ _) =>
      apply rel0_from_private_key_file
  | |- rel0 _ (getpass _ _) (getpass _ _) => apply rel0_getpass
  | |- rel0 _ (environ_get _ _) (environ_get _ _) => apply rel0_environ_get
  | |- rel0 _ (read_file _ _) (read_file _ _) => apply rel0_read_file
  | |- rel0 _ get_issues get_issues => apply rel0_get_issues
  | |- rel0 _ (issues_append _ _) (issues_append _ _) => apply rel0_issues_append
  | |- rel0 _ issues_init issues_init => apply rel0_issues_init
  | |- rel0 _ (print _) (print _) => apply rel0_silent; apply silent_print
  | |- rel0 _ (if ?b then _ else _) (if ?b then _ else _) => destruct b; rel0_go sub
  | |- rel0 _ (match ?x with _ => _ end) (match ?x with _ => _ end) =>
      destruct x; rel0_go sub
  | |- _ => sub
  end.

Section RelDiagnose.

Variable W : world.
Variable cfg : Settings.

Lemma rel0_dns_loop (ws : SSH) (cmds : list string) :
  forall result, rel0 eq (dns_loop W ws cmds result) (dns_loop W ws cmds result).
Proof.
  induction cmds as [|cmd rest IH]; intros result; cbn [dns_loop];
    rel0_go ltac:(apply IH).
Qed.

Lemma rel0_diagnose (ws : SSH) (target_host : string) (port : Z) :
  rel0 eq (diagnose_on_remote W cfg ws target_host port)
          (diagnose_on_remote W cfg ws target_host port).
Proof. unfold diagnose_on_remote. rel0_go ltac:(apply rel0_dns_loop). Qed.

End RelDiagnose.

Ltac silent_go :=
  repeat first
    [ apply silent_bind; [|intros ?]
    | apply silent_ret | apply silent_print | apply silent_close
    | apply silent_time_sleep | apply silent_wait
    | apply silent_emit; reflexivity
    | match goal with |- silent (if ?b then _ else _) => destruct b end
    | match goal with |- silent (match ?x with _ => _ end) => destruct x end ].

Lemma silent_get_issues : silent get_issues.
Proof. silent_prim. Qed.

Section RelOrchestrator.

Variable W : world.
Variable cfg : Settings.

(** In a dry run [shutdown_host] only prints. *)
Lemma silent_shutdown_host_dry (tag : string) (client : SSH) (sudo : bool)
    (pw : option string) :
  silent (shutdown_host W cfg tag client sudo pw true).
Proof. unfold shutdown_host. silent_go. Qed.

(** In a live run it sends the command: it returns, or the command
    raises. *)
Lemma shutdown_host_live (tag : string) (client : SSH) (sudo : bool)
    (pw : option string) (s : state) :
  let x := shutdown_host W cfg tag client sudo pw false s in
  shared (trace_of x) = [] /\ sim s (state_of x) /\
  (returned (outcome_of x) \/
   (exists e, outcome_of x = Raise e) /\ exists k e, w_exec W k = inl e).
Proof.
  unfold shutdown_host, print, bind, emit, ret, run_remote_command,
    outcome_of, state_of, trace_of.
  destruct (w_exec W (n_exec s)) as [e|[[code out] err]] eqn:E;
    [|destruct (negb (code =? 0)%Z)]; cbn [fst snd app shared filter is_shared];
    (split; [reflexivity|]); (split; [repeat split|]); eauto with trace.
  right. split; [exists e; reflexivity | exists (n_exec s), e; exact E].
Qed.

Lemma shutdown_host_rel {B} (tag : string) (client : SSH) (sudo : bool)
    (pw : option string) (m2 : M B) :
  silent m2 -> rel W any (shutdown_host W cfg tag client sudo pw false) m2.
Proof.
  intros Hm2 s1 s2 Hs. destruct (Hm2 s2) as ([b Hb] & Ht2 & Hs2).
  destruct (shutdown_host_live tag client sudo pw s1) as (Ht1 & Hs1 & Hr).
  unfold agree, cut. rewrite Ht1, Ht2, Hb.
  destruct Hr as [[a Ha]|[He Hw]].
  - left. rewrite Ha. split; [|split; [reflexivity | exact I]].
    eapply sim_trans; [apply sim_sym; exact Hs1|]. exact (sim_trans _ _ _ Hs Hs2).
  - right. split; [exact Hw|]. split; [exact He|]. exists []. reflexivity.
Qed.

Variables args1 args2 : Args.
Hypothesis live : dry_run args1 = false.
Hypothesis dry : dry_run args2 = true.

Lemma process_node_rel (f : Fleet) (i : nat) (ws : SSH) (pw : string) (j : nat)
    (node : string) (ps1 ps2 : bool) :
  rel W any (process_node W cfg args1 f i ws pw j node ps1)
            (process_node W cfg args2 f i ws pw j node ps2).
Proof.
  unfold process_node. rewrite live, dry. cbn [negb andb].
  eapply rel_bind with (R := same_branch).
  - apply rel0_rel. rel0_go ltac:(apply rel0_diagnose).
  - intros [p1|c1] [p2|c2] Hab; cbn in Hab; try contradiction.
    + apply rel0_rel, rel0_ret. exact I.
    + subst c2. eapply rel_bind.
      * apply rel_try_finally with (R := any).
        -- apply shutdown_host_rel. apply silent_shutdown_host_dry.
        -- silent_go.
        -- silent_go.
      * intros a b _. apply rel0_rel, rel0_ret. exact I.
Qed.

Lemma for_nodes_rel (f : Fleet) (i : nat) (ws : SSH) (pw : string) (nodes : list string) :
  forall j ps1 ps2,
    rel W any (for_nodes W cfg args1 f i ws pw j nodes ps1)
              (for_nodes W cfg args2 f i ws pw j nodes ps2).
Proof.
  induction nodes as [|node rest IH]; intros j ps1 ps2; cbn [for_nodes].
  - apply rel0_rel, rel0_ret. exact I.
  - eapply rel_bind; [apply process_node_rel|]. intros a b _. apply IH.
Qed.

Lemma process_fleet_rel (gw_conn : SSH) (fleet_pw_map : list (string * string))
    (i : nat) (f : Fleet) :
  rel W any (process_fleet W cfg args1 gw_conn fleet_pw_map i f)
            (process_fleet W cfg args2 gw_conn fleet_pw_map i f).
Proof.
  unfold process_fleet. rewrite live, dry.
  destruct (dict_get (name f) fleet_pw_map) as [pw|]; [|apply rel0_rel, rel0_raise].
  eapply rel_bind with (R := eq).
  - apply rel0_rel. rel0_go ltac:(apply rel0_diagnose).
  - intros r ? <-. destruct r as [ws|]; [|apply rel0_rel, rel0_ret; exact I].
    eapply rel_bind.
    + apply rel_try_finally with (R := any).
      * eapply rel_bind;
          [destruct (nodes f) as [l|]; [apply for_nodes_rel | apply rel0_rel, rel0_raise]|].
        intros [|] [|] _.
        -- apply rel0_rel, rel0_silent; apply silent_print.
        -- apply rel0_rel, rel0_silent;
             [apply silent_print | apply silent_shutdown_host_dry].
        -- apply shutdown_host_rel. apply silent_print.
        -- apply shutdown_host_rel. apply silent_shutdown_host_dry.
      * silent_go.
      * silent_go.
    + intros a b _. apply rel0_rel, rel0_ret. exact I.
Qed.

Lemma for_fleets_rel (gw_conn : SSH) (fleet_pw_map : list (string * string))
    (fleets : list Fleet) :
  forall i,
    rel W any (for_fleets W cfg args1 gw_conn fleet_pw_map i fleets)
              (for_fleets W cfg args2 gw_conn fleet_pw_map i fleets).
Proof.
  induction fleets as [|f rest IH]; intros i; cbn [for_fleets].
  - apply rel0_rel, rel0_ret. exact I.
  - eapply rel_bind; [apply process_fleet_rel|]. intros a b _. apply IH.
Qed.

Lemma rel0_resolve_password (value : option string) (label : string) :
  rel0 eq (_resolve_password W value label) (_resolve_password W value label).
Proof. unfold _resolve_password. rel0_go fail. Qed.

Lemma rel0_collect_passwords (fleets : list Fleet) :
  forall m0, rel0 eq (collect_passwords W fleets m0) (collect_passwords W fleets m0).
Proof.
  induction fleets as [|f rest IH]; intros m0; cbn [collect_passwords];
    rel0_go ltac:(first [apply rel0_resolve_password | apply IH]).
Qed.

Lemma rel0_count_steps (fleets : list Fleet) :
  forall n, rel0 eq (count_steps fleets n) (count_steps fleets n).
Proof.
  induction fleets as [|f rest IH]; intros n; cbn [count_steps];
    rel0_go ltac:(apply IH).
Qed.

Lemma main_rel (gw : Gateway) (fleets : list Fleet) :
  rel W any (main W cfg args1 gw fleets) (main W cfg args2 gw fleets).
Proof.
  unfold main. rewrite live, dry.
  eapply rel_bind with (R := eq); [apply rel0_rel, rel0_collect_passwords|].
  intros m ? <-.
  eapply rel_bind with (R := eq); [apply rel0_rel; rel0_go fail|].
  intros gw_pw ? <-.
  eapply rel_bind with (R := eq); [apply rel0_rel; unfold load_pkey; rel0_go fail|].
  intros pkey ? <-.
  eapply rel_bind with (R := eq); [apply rel0_rel; rel0_go fail|].
  intros r ? <-. destruct r as [gw_conn|]; [|apply rel0_rel, rel0_ret; exact I].
  eapply rel_bind with (R := eq); [apply rel0_rel, rel0_count_steps|].
  intros total_steps ? <-.
  eapply rel_bind with (R := any); [apply rel0_rel, rel0_issues_init|].
  intros _ _ _. eapply rel_bind.
  - apply rel_try_finally with (R := any).
    + eapply rel_bind; [apply for_fleets_rel|]. intros a b _.
      apply shutdown_host_rel. apply silent_shutdown_host_dry.
    + silent_go; apply silent_get_issues.
    + silent_go; apply silent_get_issues.
  - intros a b _. apply rel0_rel, rel0_ret. exact I.
Qed.

End RelOrchestrator.

Lemma fleets_event_dry_no_live_effect (lo : nat) (e : event) :
  fleets_event true lo e -> is_live_effect e = false.
Proof.
  intros (i & _ & He). destruct He as [j e' He| | | | | |cmd stdin r Hd|];
    try reflexivity; try discriminate Hd.
  destruct He; try reflexivity; discriminate.
Qed.

Lemma main_shape_dry_no_live_effect (fleets : list Fleet) (r : res unit) (t : trace) :
  main_shape true fleets (fleets_quiet true) r t -> existsb is_live_effect t = false.
Proof.
  assert (Hc : forall tc, Forall cred_event tc -> existsb is_live_effect tc = false).
  { intros tc. apply existsb_Forall_false. intros x []; reflexivity. }
  assert (Hr : forall tr, Forall report_event tr -> existsb is_live_effect tr = false).
  { intros tr. apply existsb_Forall_false. intros x []; reflexivity. }
  assert (Hg : forall tg, Forall (poweroff_event true Gw) tg ->
                          existsb is_live_effect tg = false).
  { intros tg. apply existsb_Forall_false. intros x []; [reflexivity | discriminate]. }
  assert (Hf : forall tf, Forall (fleets_event true 0) tf ->
                          existsb is_live_effect tf = false).
  { intros tf. apply existsb_Forall_false. apply fleets_event_dry_no_live_effect. }
  intros [tc e H | tc host user port pk e H | tc host user port pk e H Hm
         | tc host user port pk tf e tr H Hq Htr
         | tc host user port pk tf tg r' tr H Hq Htg _ Htr];
    repeat (rewrite ?existsb_app; cbn [existsb is_live_effect orb]);
    rewrite ?(Hc _ H), ?(Hr _ Htr), ?(Hg _ Htg), ?(Hf _ Hq); reflexivity.
Qed.

(** C4: the dry run of a plan, beside its live run in the same world.
    The dry run sends no command, probes nothing and never waits.  What the
    live run shares with it (credentials, key, every channel and connection
    attempt, every diagnostic command, every Issue, each with its outcome,
    in order) is the beginning of what the dry run does; both do exactly
    the same, and record the same Issues, when no power-off command
    raises. *)
Theorem dry_run_rehearses_live
    (W : world) (cfg : Settings) (args : Args) (gw : Gateway) (fleets : list Fleet) :
  let dry := run_main W cfg (with_dry_run true args) gw fleets in
  let live := run_main W cfg (with_dry_run false args) gw fleets in
  existsb is_live_effect (trace_of dry) = false /\
  (exists l, shared (trace_of dry) = shared (trace_of live) ++ l) /\
  ((forall k, exists r, w_exec W k = inr r) ->
   shared (trace_of live) = shared (trace_of dry) /\
   issues (state_of live) = issues (state_of dry)).
Proof.
  intros dry live.
  pose proof (main_rel W cfg (with_dry_run false args) (with_dry_run true args)
                eq_refl eq_refl gw fleets initial_state initial_state
                (sim_refl initial_state)) as Hrel.
  fold (run_main W cfg (with_dry_run false args) gw fleets) in Hrel.
  fold (run_main W cfg (with_dry_run true args) gw fleets) in Hrel.
  fold dry live in Hrel.
  split; [|split].
  - apply (main_shape_dry_no_live_effect fleets (outcome_of dry)).
    apply (main_sat W cfg (with_dry_run true args) gw fleets (fleets_quiet true)).
    intros gw_conn m Hgw Hpw Hnl.
    eapply sat_conseq;
      [apply (for_fleets_events W cfg (with_dry_run true args)); assumption|].
    intros r t [H _]. exact H.
  - destruct Hrel as [(_ & Ht & _)|(_ & _ & Hl)]; [|exact Hl].
    exists []. rewrite app_nil_r. symmetry. exact Ht.
  - intros Hexec. destruct Hrel as [(Hs & Ht & _)|([k [e Hk]] & _)].
    + split; [exact Ht | apply Hs].
    + destruct (Hexec k) as [r Hr]. congruence.
Qed.

Lemma dry_run_rehearses_live_witness :
  let dry := run_main world_node_auth_fails default_settings dry_strict gw0 [ws1] in
  let live := run_main world_node_auth_fails default_settings live_strict gw0 [ws1] in
  shared (trace_of live) = shared (trace_of dry) /\
  issues (state_of live) = issues (state_of dry).
Proof.
  intros dry live.
  apply (proj2 (proj2 (dry_run_rehearses_live world_node_auth_fails default_settings
                         live_strict gw0 [ws1]))).
  intros k. eexists. reflexivity.
Defined.

(** C4 as stated fails when a power-off command raises: the live run
    stops at the first node, the dry run goes on to the second one. *)
Lemma dry_run_as_stated_fails :
  ~ dry_run_as_stated world_poweroff_raises default_settings live_strict gw0 [ws2].
Proof. intros [_ H]. vm_compute in H. discriminate H. Qed.

(** * Further properties of the code *)

(** ** Unique addresses *)

Lemma existsb_eqb_In (x : string) (l : list string) :
  existsb (String.eqb x) l = true <-> In x l.
Proof.
  rewrite existsb_exists. split.
  - intros (y & Hy & E). apply String.eqb_eq in E. subst. exact Hy.
  - intros H. exists x. split; [exact H | apply String.eqb_refl].
Qed.

Lemma dedupe_aux_In (xs : list string) :
  forall seen x, In x (dedupe_aux seen xs) <-> In x xs /\ ~ In x seen.
Proof.
  induction xs as [|y xs IH]; intros seen x; cbn [dedupe_aux].
  - cbn. tauto.
  - destruct (existsb (String.eqb y) seen) eqn:E.
    + apply existsb_eqb_In in E. rewrite IH. cbn. intuition (subst; tauto).
    + assert (Hy : ~ In y seen).
      { intros H. apply existsb_eqb_In in H. congruence. }
      cbn [In]. rewrite IH. cbn [In].
      destruct (String.eqb_spec y x) as [->|Hne]; intuition congruence.
Qed.

Lemma dedupe_aux_NoDup (xs : list string) : forall seen, NoDup (dedupe_aux seen xs).
Proof.
  induction xs as [|y xs IH]; intros seen; cbn [dedupe_aux]; [constructor|].
  destruct (existsb (String.eqb y) seen); [apply IH|].
  constructor; [|apply IH].
  rewrite dedupe_aux_In. cbn. tauto.
Qed.

(** [list(dict.fromkeys(ips))] (line 243): the result has no duplicates, has
    exactly the elements of the input, starts with the same element, and
    deduplicating again changes nothing. *)
Theorem dedupe_unique (xs : list string) :
  NoDup (dedupe xs) /\
  (forall x, In x (dedupe xs) <-> In x xs) /\
  hd_error (dedupe xs) = hd_error xs /\
  dedupe (dedupe xs) = dedupe xs.
Proof.
  split; [apply dedupe_aux_NoDup|]. split; [|split].
  - intros x. unfold dedupe. rewrite dedupe_aux_In. cbn. tauto.
  - destruct xs; reflexivity.
  - unfold dedupe.
    assert (H : forall l seen, NoDup l -> (forall x, In x l -> ~ In x seen) ->
                               dedupe_aux seen l = l).
    { induction l as [|y l IH]; intros seen Hnd Hs; [reflexivity|]. cbn [dedupe_aux].
      destruct (existsb (String.eqb y) seen) eqn:E.
      - apply existsb_eqb_In in E. destruct (Hs y (or_introl eq_refl) E).
      - f_equal. inversion Hnd as [|? ? Hy Hl]; subst. apply IH; [exact Hl|].
        intros x Hx [<-|Hin]; [contradiction|]. exact (Hs x (or_intror Hx) Hin). }
    apply H; [apply dedupe_aux_NoDup|]. intros x _ [].
Qed.

(** ** The Diagnosis that comes back *)

Lemma parse_ips_look (W : world) (out : string) :
  Forall (fun ip => looks_like_ip W ip = true) (parse_ips W out).
Proof.
  unfold parse_ips. apply Forall_forall. intros ip H.
  apply in_flat_map in H. destruct H as (line & _ & H).
  apply filter_In in H. tauto.
Qed.

Lemma dedupe_nonempty (xs : list string) : xs <> [] -> dedupe xs <> [].
Proof. destruct xs; [congruence | discriminate]. Qed.

Lemma dedupe_Forall (P : string -> Prop) (xs : list string) :
  Forall P xs -> Forall P (dedupe xs).
Proof.
  rewrite !Forall_forall. intros H x Hx. apply H.
  unfold dedupe in Hx. apply dedupe_aux_In in Hx. tauto.
Qed.

Section DiagnosisResult.

Variable W : world.
Variable cfg : Settings.

Lemma dns_loop_result (ws : SSH) (cmds : list string) :
  forall result,
    sat (dns_loop W ws cmds result)
        (fun r t =>
           (List.length t <= List.length cmds)%nat /\
           (returned r -> cmds <> [] -> (1 <= List.length t)%nat) /\
           forall d, r = Ret d ->
             d = result \/
             exists ips, ips <> [] /\ Forall (fun ip => looks_like_ip W ip = true) ips /\
                         d = mkDiag (Some true) (dedupe ips) (tcp_ok result)
                               (tcp_method result) (notes result)).
Proof.
  induction cmds as [|cmd rest IH]; intros result; cbn [dns_loop].
  - sat_walk no_sub. split; [cbn; lia|]. split; [congruence|]. intros d [= <-]. auto.
  - sat_walk ltac:(sat_use (IH result)); split_hyps;
      rewrite ?List.length_app; cbn [List.length]; (split; [lia|]); (split; [intros; lia|]);
      intros d Hd; try discriminate Hd; auto.
    injection Hd as <-. right.
    match goal with H : parse_ips W ?o = ?l |- _ =>
      exists l; split; [discriminate|]; split; [rewrite <- H; apply parse_ips_look | reflexivity]
    end.
Qed.

Lemma diagnose_result (ws : SSH) (target_host : string) (port : Z) :
  sat (diagnose_on_remote W cfg ws target_host port)
      (fun r t => (List.length t <= 5)%nat /\ (returned r -> (2 <= List.length t)%nat) /\
                  forall d, r = Ret d -> diagnosis_wellformed W d).
Proof.
  unfold diagnose_on_remote.
  sat_walk ltac:(sat_use dns_loop_result); split_hyps;
    rewrite ?List.length_app; cbn [List.length] in *;
    (split; [lia|]); (split; [intros Hr; try (destruct Hr as [? Hr]; discriminate Hr);
                              match goal with
                              | H : returned _ -> _ -> (1 <= _)%nat |- _ =>
                                  specialize (H ltac:(eauto with trace) ltac:(discriminate)); lia
                              end|]);
    intros d Hd; try discriminate Hd; injection Hd as <-.
  all: match goal with H : forall d, Ret ?a = Ret d -> _ |- _ =>
         destruct (H a eq_refl) as [->|(ips & Hne & Hlook & ->)] end;
       unfold diagnosis_wellformed; cbn;
       repeat split; try congruence; try discriminate; try tauto;
       try (intros; apply dedupe_nonempty; assumption);
       try (constructor; fail);
       try (apply dedupe_aux_NoDup);
       try (apply dedupe_Forall; assumption);
       try (intros _; reflexivity).
Qed.

End DiagnosisResult.

(** A Diagnosis that [diagnose_on_remote] returns (lines 222-262) has both
    verdicts decided, addresses exactly when resolution succeeded, without
    duplicates and each looking like an address, a note exactly when
    resolution failed, and a probe method that matches the TCP verdict. *)
Theorem diagnose_returns_wellformed
    (W : world) (cfg : Settings) (ws : SSH) (target_host : string) (port : Z)
    (s : state) (d : Diagnosis) :
  outcome_of (diagnose_on_remote W cfg ws target_host port s) = Ret d ->
  diagnosis_wellformed W d.
Proof.
  intros H.
  exact (proj2 (proj2 (diagnose_result W cfg ws target_host port s)) d H).
Qed.

Lemma diagnose_returns_wellformed_witness :
  exists d,
    outcome_of (diagnose_on_remote world_fullwidth default_settings (mkSSH (Ws 0)) "n1" 22
                  initial_state) = Ret d /\
    dns_ips d = ["１２３"] /\
    diagnosis_wellformed world_fullwidth d.
Proof.
  eexists. split; [vm_compute; reflexivity|]. split; [reflexivity|].
  apply (diagnose_returns_wellformed world_fullwidth default_settings (mkSSH (Ws 0))
           "n1" 22 initial_state).
  vm_compute. reflexivity.
Defined.

(** [diagnose_on_remote] runs diagnostic commands on the given session and
    nothing else: at most five of them (three resolvers, two probes), at
    least two when it returns. *)
Theorem diagnose_command_budget
    (W : world) (cfg : Settings) (ws : SSH) (target_host : string) (port : Z) (s : state) :
  let x := diagnose_on_remote W cfg ws target_host port s in
  Forall (run_event (ssh_hop ws)) (trace_of x) /\
  (List.length (trace_of x) <= 5)%nat /\
  (returned (outcome_of x) -> (2 <= List.length (trace_of x))%nat).
Proof.
  intros x. split; [exact (proj1 (diagnose_events W cfg ws target_host port s))|].
  destruct (diagnose_result W cfg ws target_host port s) as (H1 & H2 & _). auto.
Qed.

Lemma diagnose_command_budget_witness :
  (2 <= List.length (trace_of (diagnose_on_remote world_target_dead default_settings
                                 (mkSSH (Ws 0)) "n1" 22 initial_state)))%nat.
Proof.
  apply (diagnose_command_budget world_target_dead default_settings (mkSSH (Ws 0)) "n1" 22
           initial_state).
  eexists. vm_compute. reflexivity.
Defined.

(** ** The verdict of a wait *)

Lemma probe_outcomes_app (t t' : trace) :
  probe_outcomes (t ++ t') = probe_outcomes t ++ probe_outcomes t'.
Proof. apply flat_map_app. Qed.

Section WaitVerdict.

Variable W : world.
Variables (transport : SSH) (dest : hop) (host : string) (port : Z).
Variables (deadline interval : Z).
Hypothesis interval_pos : (1 <= interval)%Z.

Lemma wait_loop_verdict (k : nat) :
  forall s r s' t,
    (deadline - now s <= 1000 * Z.of_nat k)%Z ->
    wait_loop W (S k) transport dest host port deadline interval s = Some (r, s', t) ->
    exists ok n,
      r = Ret ok /\
      probe_outcomes t = repeat true n ++ (if ok : bool then [false] else []) /\
      (n + (if ok then 1 else 0) <= k)%nat /\
      n_probe s' = (n_probe s + n + (if ok then 1 else 0))%nat /\
      n_exec s' = n_exec s.
Proof.
  induction k as [|k IH]; intros s r s' t Hs; rewrite wait_loop_S.
  - destruct (Z.ltb_spec (now s) deadline); [lia|].
    intros [= <- <- <-]. exists false, 0%nat. cbn. repeat split; lia.
  - destruct (Z.ltb_spec (now s) deadline).
    + rewrite is_ssh_reachable_run.
      destruct (fst (w_probe W (n_probe s))); cbn [negb].
      * intros [= <- <- <-]. exists true, 0%nat. cbn. repeat split; lia.
      * unfold time_sleep.
        match goal with |- context [wait_loop W (S k) _ _ _ _ _ _ ?s2] =>
          specialize (IH s2);
          destruct (wait_loop W (S k) transport dest host port deadline interval s2)
            as [[[r3 s3] t3]|] end; [|discriminate].
        intros [= <- <- <-].
        match type of IH with forall r s' t, ?C -> _ =>
          assert (Hc : C)
            by (cbn [now]; pose proof (N2Z.is_nonneg (snd (w_probe W (n_probe s)))); lia)
        end.
        destruct (IH _ _ _ Hc eq_refl) as (ok & n & -> & Ht & Hn & Hp & He).
        exists ok, (S n). cbn [n_probe] in Hp.
        cbn [app probe_outcomes flat_map probe_outcome].
        fold (probe_outcomes t3). rewrite Ht. cbn [n_probe n_exec repeat app] in *.
        repeat split; lia.
    + intros [= <- <- <-]. exists false, 0%nat. cbn. repeat split; lia.
Qed.

End WaitVerdict.


(** ** The password map *)

Lemma dict_get_set (k k' v : string) (d : list (string * string)) :
  dict_get k' (dict_set k v d) = if String.eqb k k' then Some v else dict_get k' d.
Proof.
  induction d as [|[k0 v0] d IH]; cbn.
  - reflexivity.
  - destruct (String.eqb_spec k0 k) as [->|Hne]; cbn.
    + destruct (String.eqb k k'); reflexivity.
    + rewrite IH. destruct (String.eqb_spec k0 k') as [->|Hne'].
      * destruct (String.eqb_spec k k'); [congruence | reflexivity].
      * reflexivity.
Qed.

Section PasswordMap.

Variable W : world.

(** Resolving a credential does not depend on the state, nor change it. *)
Lemma resolve_password_stateless (value : option string) (label : string) (s : state) :
  outcome_of (_resolve_password W value label s)
    = outcome_of (_resolve_password W value label initial_state) /\
  state_of (_resolve_password W value label s) = s.
Proof.
  unfold _resolve_password, bind, environ_get, read_file, getpass, ret, raise,
    outcome_of, state_of.
  destruct value as [v|]; [|auto].
  destruct (String.prefix "env:" v).
  - destruct (w_environ W (after_first_colon v)); auto.
  - destruct (String.prefix "file:" v); [|auto].
    destruct (w_file W (after_first_colon v)); auto.
Qed.

Lemma collect_passwords_map (fleets : list Fleet) :
  forall m0 s m,
    outcome_of (collect_passwords W fleets m0 s) = Ret m ->
    forall k,
      dict_get k m =
        match last_named k fleets with
        | Some g => resolved W g
        | None => dict_get k m0
        end.
Proof.
  induction fleets as [|f rest IH]; intros m0 s m; cbn [collect_passwords last_named].
  - intros [= <-] k. reflexivity.
  - fold (password_label f). unfold bind.
    destruct (resolve_password_stateless (password f) (password_label f) s) as [Ho Hs].
    unfold outcome_of, state_of in Ho, Hs.
    destruct (_resolve_password W (password f) (password_label f) s) as [[[pw|e] s1] t1];
      cbn [fst snd] in *; [|discriminate].
    subst s1. intros Hm k.
    specialize (IH (dict_set (name f) pw m0) s m).
    unfold outcome_of in *.
    destruct (collect_passwords W rest (dict_set (name f) pw m0) s) as [[r s'] t'].
    cbn [fst snd] in *. rewrite (IH Hm k).
    destruct (last_named k rest); [reflexivity|].
    rewrite dict_get_set. destruct (String.eqb (name f) k); [|reflexivity].
    unfold resolved, outcome_of. rewrite <- Ho. reflexivity.
Qed.

End PasswordMap.

Lemma last_named_In (k : string) (fleets : list Fleet) (f : Fleet) :
  In f fleets -> name f = k -> exists g, last_named k fleets = Some g /\ name g = k.
Proof.
  induction fleets as [|f0 rest IH]; intros Hin Hk; [destruct Hin|]. cbn [last_named].
  destruct (last_named k rest) as [g|] eqn:E.
  - destruct Hin as [->|Hin].
    + clear IH. revert g E. induction rest as [|f1 rest IH']; [discriminate|].
      cbn [last_named]. intros g. destruct (last_named k rest) as [g'|] eqn:E'.
      * intros [= <-]. eauto.
      * destruct (String.eqb_spec (name f1) k); [|discriminate].
        intros [= <-]. eauto.
    + destruct (IH Hin Hk) as (g' & Hg & Hn). exists g'. split; congruence.
  - destruct Hin as [->|Hin].
    + rewrite Hk, String.eqb_refl. eauto.
    + destruct (IH Hin Hk) as (g' & Hg & _). discriminate Hg.
Qed.

Lemma last_named_unique (fleets : list Fleet) (f : Fleet) :
  NoDup (map name fleets) -> In f fleets -> last_named (name f) fleets = Some f.
Proof.
  induction fleets as [|f0 rest IH]; intros Hnd Hin; [destruct Hin|].
  cbn [map] in Hnd. inversion Hnd as [|? ? Hf0 Hrest]; subst. cbn [last_named].
  destruct Hin as [->|Hin].
  - destruct (last_named (name f) rest) as [g|] eqn:E.
    + exfalso. apply Hf0.
      assert (Hg : In g rest /\ name g = name f).
      { clear -E. revert g E. induction rest as [|f1 rest IH']; [discriminate|].
        cbn [last_named]. intros g. destruct (last_named (name f) rest) as [g'|].
        - intros [= <-]. destruct (IH' g' eq_refl). split; [right|]; assumption.
        - destruct (String.eqb_spec (name f1) (name f)); [|discriminate].
          intros [= <-]. split; [left; reflexivity | assumption]. }
      destruct Hg as [Hg <-]. apply in_map. exact Hg.
    + rewrite String.eqb_refl. reflexivity.
  - rewrite (IH Hrest Hin). reflexivity.
Qed.

(** The password loop of [main] (lines 405-407): when it completes, the
    map gives every fleet of the plan the password that the credential of
    the last fleet with the same name resolves to.  With distinct names
    that is the fleet's own; a fleet listed under a name used again later
    connects with the later entry's password. *)
Theorem passwords_by_name
    (W : world) (fleets : list Fleet) (s : state) (m : list (string * string)) :
  outcome_of (collect_passwords W fleets [] s) = Ret m ->
  (forall f, In f fleets ->
     exists g, last_named (name f) fleets = Some g /\ name g = name f /\
               dict_get (name f) m = resolved W g /\ resolved W g <> None) /\
  (NoDup (map name fleets) ->
   forall f, In f fleets -> dict_get (name f) m = resolved W f).
Proof.
  intros Hm. pose proof (collect_passwords_map W fleets [] s m Hm) as Hmap.
  pose proof (collect_passwords_spec W fleets [] s) as [_ Hknown].
  specialize (Hknown m Hm). destruct Hknown as [Hknown _].
  split.
  - intros f Hin. destruct (last_named_In (name f) fleets f Hin eq_refl) as (g & Hg & Hn).
    exists g. specialize (Hmap (name f)). rewrite Hg in Hmap.
    repeat split; try assumption. rewrite <- Hmap. apply Hknown. exact Hin.
  - intros Hnd f Hin. rewrite (Hmap (name f)), (last_named_unique fleets f Hnd Hin).
    reflexivity.
Qed.

Lemma passwords_by_name_witness :
  exists m,
    outcome_of (collect_passwords world_all_ok [ws1; ws_dup] [] initial_state) = Ret m /\
    dict_get (name ws1) m = Some "pw2".
Proof.
  eexists. split; [vm_compute; reflexivity|].
  destruct (proj1 (passwords_by_name world_all_ok [ws1; ws_dup] initial_state _ eq_refl)
              ws1 (or_introl eq_refl)) as (g & Hg & _ & Hd & _).
  vm_compute in Hg. injection Hg as <-. exact Hd.
Defined.

(** ** Nodes before their fleet host *)

Lemma precedes_app (p q : event -> bool) (t t' : trace) :
  forall seen,
    precedes p q seen (t ++ t') =
      precedes p q seen t && precedes p q (seen || existsb p t) t'.
Proof.
  induction t as [|e t IH]; intros seen; cbn [app precedes existsb].
  - rewrite orb_false_r. reflexivity.
  - rewrite IH, orb_assoc, andb_assoc. reflexivity.
Qed.

Lemma precedes_quiet (p q : event -> bool) (t : trace) :
  existsb q t = false -> forall seen, precedes p q seen t = true.
Proof.
  induction t as [|e t IH]; intros H seen; [reflexivity|].
  cbn [existsb] in H. apply orb_false_iff in H. destruct H as [He Ht].
  cbn [precedes]. rewrite He, (IH Ht). reflexivity.
Qed.

Lemma precedes_seen (p q : event -> bool) (t : trace) : precedes p q true t = true.
Proof. induction t as [|e t IH]; [reflexivity|]. cbn. rewrite IH. destruct (q e); reflexivity. Qed.

Lemma precedes_In (p q : event -> bool) (t : trace) (x : event) :
  precedes p q false t = true -> In x t -> q x = true -> existsb p t = true.
Proof.
  induction t as [|e t IH]; intros H Hin Hq; [destruct Hin|].
  cbn [precedes] in H. apply andb_true_iff in H. destruct H as [He Ht].
  cbn [existsb]. destruct (p e) eqn:Ep; [reflexivity|]. cbn [orb] in *.
  destruct Hin as [->|Hin]; [rewrite Hq in He; discriminate He|].
  exact (IH Ht Hin Hq).
Qed.

Lemma In_confirmed (i j : nat) (t : trace) :
  In (EvWaited (Nd i j) true) t -> existsb (is_confirmed i j) t = true.
Proof.
  intros H. apply existsb_exists. eexists. split; [exact H|].
  cbn. rewrite !Nat.eqb_refl. reflexivity.
Qed.

Lemma fleet_event_elsewhere_confirmed (dry : bool) (i k j : nat) (e : event) :
  i <> k -> fleet_event dry k e -> is_confirmed i j e = false.
Proof.
  intros Hik He. assert (Hk : Nat.eqb k i = false) by (apply Nat.eqb_neq; congruence).
  destruct He as [j' e' He| | | | | | |]; try reflexivity.
  destruct He; try reflexivity. destruct ok; [|reflexivity]. cbn. rewrite Hk. reflexivity.
Qed.

Section ConfirmedDown.

Variable W : world.
Variable cfg : Settings.
Variable args : Args.
Hypothesis live : dry_run args = false.
Hypothesis strict : non_strict args = false.

Lemma process_node_confirmed (f : Fleet) (i : nat) (pw : string) (j : nat) (node : string)
    (parent_skip : bool) :
  sat (process_node W cfg args f i (mkSSH (Ws i)) pw j node parent_skip)
      (fun r t => r = Ret false ->
                  parent_skip = false /\ In (EvWaited (Nd i j) true) t).
Proof.
  unfold process_node. rewrite live, strict. cbn [negb andb].
  sat_walk ltac:(first [sat_use diagnose_events | sat_use shutdown_host_events]).
  all: cbn [ssh_hop ch_dest ch_via snd] in *; intros Hr; try discriminate Hr.
  all: injection Hr as ->.
  all: match goal with H : negb ?ok && true = false |- _ =>
         destruct ok; [|discriminate H] end.
  all: split; [reflexivity | in_pieces].
Qed.

Lemma for_nodes_confirmed (f : Fleet) (i : nat) (pw : string) (nodes : list string) :
  forall (j0 : nat) (parent_skip : bool),
    sat (for_nodes W cfg args f i (mkSSH (Ws i)) pw j0 nodes parent_skip)
        (fun r t => r = Ret false ->
                    parent_skip = false /\
                    forall k node, nth_error nodes k = Some node ->
                                   In (EvWaited (Nd i (j0 + k)) true) t).
Proof.
  induction nodes as [|node rest IH]; intros j0 parent_skip; cbn [for_nodes].
  - sat_walk no_sub. intros [= ->]. split; [reflexivity|]. intros [|k] n H; discriminate H.
  - sat_walk ltac:(first [sat_use process_node_confirmed | sat_use IH]);
      intros Hr; try discriminate Hr.
    match goal with
    | H1 : Ret ?a = Ret false -> _ /\ In _ ?t1,
      H2 : Ret ?b = Ret false -> _ /\ _ |- _ =>
        destruct (H2 Hr) as [-> Hrest]; destruct (H1 eq_refl) as [-> Hhere]
    end.
    split; [reflexivity|]. intros [|k] n Hn; cbn in Hn.
    + rewrite Nat.add_0_r. apply in_or_app. left. assumption.
    + apply in_or_app. right. replace (j0 + S k)%nat with (S j0 + k)%nat by lia. eauto.
Qed.

Lemma process_fleet_confirmed (gw_conn : SSH) (fleet_pw_map : list (string * string))
    (i : nat) (f : Fleet) :
  ssh_hop gw_conn = Gw ->
  sat (process_fleet W cfg args gw_conn fleet_pw_map i f)
      (fun _ t => forall j node,
           nth_error (node_list f) j = Some node ->
           precedes (is_confirmed i j) (is_fleet_shutdown i) false t = true).
Proof.
  intros Hgw. unfold process_fleet.
  destruct (dict_get (name f) fleet_pw_map) as [pw|];
    [|apply sat_raise; reflexivity].
  unfold node_list.
  destruct (nodes f) as [l|] eqn:En.
  all: sat_walk ltac:(first
    [ sat_use diagnose_events | sat_use shutdown_host_events
    | sat_use (fun j ps => sat_and _ _ _ (for_nodes_events W cfg args f i pw l j ps)
                             (for_nodes_confirmed f i pw l j ps)) ]).
  all: cbn [ssh_hop ch_dest ch_via] in *; split_hyps; intros j node Hj.
  all: try (destruct j; discriminate Hj).
  all: repeat match goal with
         | H : Forall (run_event _) ?t |- _ =>
             pose proof (existsb_Forall_false _ _ t (run_event_no_fleet_shutdown i _) H);
             clear H
         | H : Forall (nodes_event _ _) ?t |- _ =>
             pose proof (existsb_Forall_false _ _ t
                           (nodes_event_no_fleet_shutdown _ _ i) H); clear H
         end.
  all: try match goal with
         | H : Ret false = Ret false -> _ |- _ =>
             destruct (H eq_refl) as [_ Hc]; specialize (Hc j node Hj);
             rewrite Nat.add_0_l in Hc; apply In_confirmed in Hc; clear H
         end.
  all: rewrite ?precedes_app; rewrite ?existsb_app;
       repeat match goal with
         | F : existsb (is_fleet_shutdown _) ?t = false |- _ =>
             rewrite ?(precedes_quiet _ _ t F), ?F; clear F
         | F : existsb (is_confirmed _ _) ?t = true |- _ => rewrite ?F; clear F
         end;
       cbn [precedes existsb is_confirmed is_fleet_shutdown orb andb];
       rewrite ?orb_true_r, ?precedes_seen; cbn [orb andb]; try reflexivity.
Qed.

End ConfirmedDown.

Lemma precedes_mono (p q : event -> bool) (t : trace) :
  forall seen, precedes p q false t = true -> precedes p q seen t = true.
Proof.
  intros [|] H; [apply precedes_seen | exact H].
Qed.

Lemma precedes_split (p q : event -> bool) (pre post : trace) (x : event) :
  precedes p q false (pre ++ x :: post) = true -> q x = true -> existsb p pre = true.
Proof.
  rewrite precedes_app. cbn [precedes orb]. intros H Hq. rewrite Hq in H.
  destruct (existsb p pre); [reflexivity|].
  cbn in H. rewrite andb_false_r in H. discriminate H.
Qed.

Lemma confirmed_In (i j : nat) (t : trace) :
  existsb (is_confirmed i j) t = true -> In (EvWaited (Nd i j) true) t.
Proof.
  intros H. apply existsb_exists in H. destruct H as (e & He & Hc).
  destruct e; try discriminate Hc.
  match type of Hc with is_confirmed _ _ (EvWaited ?h ?b) = _ =>
    destruct h; try discriminate Hc; destruct b; try discriminate Hc end.
  cbn in Hc. apply andb_true_iff in Hc. destruct Hc as [H1 H2].
  apply Nat.eqb_eq in H1, H2. subst. exact He.
Qed.

(** The guarantee of one fleet and that of the fleets after it add up. *)
Lemma confirmed_app (dry : bool) (lo : nat) (f : Fleet) (rest : list Fleet)
    (t1 t2 : trace) :
  Forall (fleet_event dry lo) t1 ->
  Forall (fleets_event dry (S lo)) t2 ->
  (forall j node, nth_error (node_list f) j = Some node ->
                  precedes (is_confirmed lo j) (is_fleet_shutdown lo) false t1 = true) ->
  (forall k g j node,
      nth_error rest k = Some g -> nth_error (node_list g) j = Some node ->
      precedes (is_confirmed (S lo + k) j) (is_fleet_shutdown (S lo + k)) false t2 = true) ->
  forall k g j node,
    nth_error (f :: rest) k = Some g -> nth_error (node_list g) j = Some node ->
    precedes (is_confirmed (lo + k) j) (is_fleet_shutdown (lo + k)) false (t1 ++ t2) = true.
Proof.
  intros H1 H2 Hhere Hrest [|k] g j node Hg Hj; cbn [nth_error] in Hg; rewrite precedes_app.
  - injection Hg as <-. rewrite Nat.add_0_r, (Hhere j node Hj).
    destruct (fleets_trace_below dry (S lo) lo t2 (Nat.lt_succ_diag_r lo) H2) as [_ Hq].
    apply (precedes_quiet _ _ _ Hq).
  - assert (Hne : (lo + S k)%nat <> lo) by lia.
    destruct (fleet_trace_elsewhere dry _ lo t1 Hne H1) as [_ Hq].
    rewrite (precedes_quiet _ _ _ Hq). cbn [andb].
    apply precedes_mono. replace (lo + S k)%nat with (S lo + k)%nat by lia. eauto.
Qed.

Section FleetsConfirmed.

Variable W : world.
Variable cfg : Settings.
Variable args : Args.
Hypothesis live : dry_run args = false.
Hypothesis strict : non_strict args = false.

Lemma for_fleets_confirmed (gw_conn : SSH) (fleet_pw_map : list (string * string))
    (fleets : list Fleet) :
  ssh_hop gw_conn = Gw ->
  passwords_known fleet_pw_map fleets ->
  nodes_listed fleets ->
  forall lo,
    sat (for_fleets W cfg args gw_conn fleet_pw_map lo fleets)
        (fun _ t => Forall (fleets_event (dry_run args) lo) t /\
                    forall k f j node,
                      nth_error fleets k = Some f -> nth_error (node_list f) j = Some node ->
                      precedes (is_confirmed (lo + k) j) (is_fleet_shutdown (lo + k))
                        false t = true).
Proof.
  intros Hgw. induction fleets as [|f rest IH]; intros Hpw Hnl lo; cbn [for_fleets].
  - sat_walk no_sub. split; [constructor | intros [|k] f j node H; discriminate H].
  - assert (Hf : dict_get (name f) fleet_pw_map <> None) by (apply Hpw; left; reflexivity).
    assert (Hrest : passwords_known fleet_pw_map rest)
      by (intros g Hg; apply Hpw; right; exact Hg).
    assert (Hn : nodes f <> None) by (apply Hnl; left; reflexivity).
    assert (Hnrest : nodes_listed rest) by (intros g Hg; apply Hnl; right; exact Hg).
    pose proof (sat_and _ _ _
                  (process_fleet_events W cfg args gw_conn fleet_pw_map lo f Hgw Hf Hn)
                  (process_fleet_confirmed W cfg args live strict gw_conn fleet_pw_map
                     lo f Hgw))
      as Hone.
    assert (Hweak : forall t, Forall (fleet_event (dry_run args) lo) t ->
                              Forall (fleets_event (dry_run args) lo) t).
    { intros t. apply Forall_weaken. intros x Hx. exists lo. split; [lia | exact Hx]. }
    assert (Hweak' : forall t, Forall (fleets_event (dry_run args) (S lo)) t ->
                               Forall (fleets_event (dry_run args) lo) t).
    { intros t. apply Forall_weaken. intros x Hx.
      apply (fleets_event_weaken _ (S lo)); [lia | exact Hx]. }
    sat_walk ltac:(first [sat_use Hone | sat_use (IH Hrest Hnrest (S lo))]); split_hyps.
    + split; [apply Forall_app; split; auto|].
      eapply confirmed_app; eassumption.
    + split; [apply Forall_app; split; auto|].
      eapply confirmed_app; eassumption.
    + split; [auto|].
      rewrite <- (app_nil_r t).
      apply (confirmed_app (dry_run args) lo f rest t []); auto.
Qed.

End FleetsConfirmed.

Lemma precedes_pad (p q : event -> bool) (a t b : trace) :
  existsb q a = false -> existsb q b = false ->
  precedes p q false t = true -> precedes p q false (a ++ t ++ b) = true.
Proof.
  intros Ha Hb Ht. rewrite !precedes_app, (precedes_quiet _ _ _ Ha), (precedes_quiet _ _ _ Hb).
  rewrite (precedes_mono _ _ _ _ Ht). reflexivity.
Qed.

Lemma main_shape_confirmed (dry : bool) (fleets : list Fleet) (r : res unit) (t : trace) :
  main_shape dry fleets (fleets_confirmed dry fleets) r t ->
  forall k f j node,
    nth_error fleets k = Some f -> nth_error (node_list f) j = Some node ->
    precedes (is_confirmed k j) (is_fleet_shutdown k) false t = true.
Proof.
  intros Hshape k f j node Hk Hj.
  assert (Hc : forall tc, Forall cred_event tc -> existsb (is_fleet_shutdown k) tc = false).
  { intros tc H. eapply existsb_Forall_false; try exact H; intros x []; reflexivity. }
  assert (Hr : forall tr, Forall report_event tr -> existsb (is_fleet_shutdown k) tr = false).
  { intros tr H. eapply existsb_Forall_false; try exact H; intros x []; reflexivity. }
  assert (Hg : forall tg, Forall (poweroff_event dry Gw) tg ->
                          existsb (is_fleet_shutdown k) tg = false).
  { intros tg H. eapply existsb_Forall_false; try exact H; intros x []; reflexivity. }
  destruct Hshape as [tc e H | tc host user port pk e H | tc host user port pk e H Hm
                     | tc host user port pk tf e tr H [_ Hf] Htr
                     | tc host user port pk tf tg r tr H [_ Hf] Htg _ Htr];
    pose proof (Hc tc H) as Hc1;
    try pose proof (Hr tr Htr) as Hr1;
    try pose proof (Hg tg Htg) as Hg1.
  1-3: apply precedes_quiet; rewrite ?existsb_app; cbn [existsb is_fleet_shutdown orb];
       rewrite ?Hc1; reflexivity.
  - replace (tc ++ EvConnect Gw host user port pk None None :: tf ++ EvClose Gw :: tr)
      with ((tc ++ [EvConnect Gw host user port pk None None])
              ++ tf ++ (EvClose Gw :: tr))
      by (rewrite <- app_assoc; reflexivity).
    apply precedes_pad; [| |exact (Hf k f j node Hk Hj)];
      rewrite ?existsb_app; cbn [existsb is_fleet_shutdown orb]; rewrite ?Hc1, ?Hr1;
      reflexivity.
  - replace (tc ++ EvConnect Gw host user port pk None None
                :: tf ++ EvShutdownHost Gw "triton" dry :: tg ++ EvClose Gw :: tr)
      with ((tc ++ [EvConnect Gw host user port pk None None])
              ++ tf ++ (EvShutdownHost Gw "triton" dry :: tg ++ EvClose Gw :: tr))
      by (rewrite <- app_assoc; reflexivity).
    apply precedes_pad; [| |exact (Hf k f j node Hk Hj)];
      repeat (rewrite ?existsb_app; cbn [existsb is_fleet_shutdown orb]);
      rewrite ?Hc1, ?Hr1, ?Hg1; reflexivity.
Qed.

(** X6: in a live run in strict mode, whenever [shutdown_host] is invoked
    for the host of the fleet at position [i], every node of that fleet
    was confirmed down by its wait earlier in the run. *)
Theorem nodes_confirmed_before_fleet_shutdown
    (W : world) (cfg : Settings) (args : Args) (gw : Gateway) (fleets : list Fleet)
    (i j : nat) (f : Fleet) (node tag : string) (d : bool) (pre post : trace) :
  dry_run args = false ->
  non_strict args = false ->
  nth_error fleets i = Some f ->
  nth_error (node_list f) j = Some node ->
  trace_of (run_main W cfg args gw fleets) = pre ++ EvShutdownHost (Ws i) tag d :: post ->
  In (EvWaited (Nd i j) true) pre.
Proof.
  intros live strict Hi Hj Ht.
  pose proof (main_sat W cfg args gw fleets (fleets_confirmed (dry_run args) fleets)
                (fun gw_conn m Hgw Hpw Hnl =>
                   for_fleets_confirmed W cfg args live strict gw_conn m fleets Hgw Hpw Hnl 0)
                initial_state) as Hshape.
  pose proof (main_shape_confirmed _ _ _ _ Hshape i f j node Hi Hj) as Hp.
  change (precedes (is_confirmed i j) (is_fleet_shutdown i) false
            (trace_of (run_main W cfg args gw fleets)) = true) in Hp.
  rewrite Ht in Hp.
  apply confirmed_In. apply (precedes_split _ _ _ _ _ Hp).
  cbn. apply Nat.eqb_refl.
Qed.

Lemma nodes_confirmed_before_fleet_shutdown_witness :
  let t := trace_of (run_main world_all_ok default_settings live_strict gw0 [ws2]) in
  t = firstn 30 t ++ EvShutdownHost (Ws 0) "ws2" false :: skipn 31 t /\
  In (EvWaited (Nd 0 1) true) (firstn 30 t).
Proof.
  intros t.
  assert (Ht : t = firstn 30 t ++ EvShutdownHost (Ws 0) "ws2" false :: skipn 31 t)
    by (vm_compute; reflexivity).
  split; [exact Ht|].
  exact (nodes_confirmed_before_fleet_shutdown world_all_ok default_settings live_strict
           gw0 [ws2] 0 1 ws2 "n2" "ws2" false (firstn 30 t) (skipn 31 t)
           eq_refl eq_refl eq_refl eq_refl Ht).
Defined.

(** ** The report at the end of a run *)

Lemma issues_of_quiet (P : event -> Prop) (t : trace) :
  (forall e, P e -> issue_of e = []) -> Forall P t -> issues_of t = [].
Proof.
  intros HP H. induction H as [|x l Hx _ IH]; cbn; [reflexivity|].
  rewrite (HP x Hx). exact IH.
Qed.

Lemma issues_of_shared (t : trace) : issues_of (shared t) = issues_of t.
Proof.
  induction t as [|e t IH]; [reflexivity|].
  unfold shared in *. cbn [filter]. destruct (is_shared e) eqn:E.
  - change (issue_of e ++ issues_of (filter is_shared t) = issue_of e ++ issues_of t).
    rewrite IH. reflexivity.
  - rewrite IH. destruct e; try reflexivity; discriminate E.
Qed.

Lemma silent_logs {A} (m : M A) : silent m -> logs_issues m.
Proof.
  intros H s. destruct (H s) as (_ & Ht & _ & _ & _ & Hi).
  rewrite <- issues_of_shared, Ht, app_nil_r. symmetry. exact Hi.
Qed.

Section LogsRun.

Variable W : world.
Variable cfg : Settings.
Variable args : Args.

Lemma logs_shutdown_host (tag : string) (client : SSH) (sudo : bool)
    (pw : option string) (dry : bool) :
  logs_issues (shutdown_host W cfg tag client sudo pw dry).
Proof. unfold shutdown_host. logs_walk fail. Qed.

Lemma logs_process_node (f : Fleet) (i : nat) (ws : SSH) (pw : string) (j : nat)
    (node : string) (parent_skip : bool) :
  logs_issues (process_node W cfg args f i ws pw j node parent_skip).
Proof.
  unfold process_node.
  logs_walk ltac:(first [ apply logs_diagnose | apply logs_shutdown_host
                        | apply silent_logs, silent_wait ]).
Qed.

Lemma logs_for_nodes (f : Fleet) (i : nat) (ws : SSH) (pw : string) (nodes : list string) :
  forall j parent_skip, logs_issues (for_nodes W cfg args f i ws pw j nodes parent_skip).
Proof.
  induction nodes as [|node rest IH]; intros j parent_skip; cbn [for_nodes];
    logs_walk ltac:(first [apply logs_process_node | apply IH]).
Qed.

Lemma logs_process_fleet (gw_conn : SSH) (fleet_pw_map : list (string * string))
    (i : nat) (f : Fleet) :
  logs_issues (process_fleet W cfg args gw_conn fleet_pw_map i f).
Proof.
  unfold process_fleet.
  logs_walk ltac:(first [ apply logs_diagnose | apply logs_shutdown_host
                        | apply logs_for_nodes ]).
Qed.

Lemma logs_for_fleets (gw_conn : SSH) (fleet_pw_map : list (string * string))
    (fleets : list Fleet) :
  forall i, logs_issues (for_fleets W cfg args gw_conn fleet_pw_map i fleets).
Proof.
  induction fleets as [|f rest IH]; intros i; cbn [for_fleets];
    logs_walk ltac:(first [apply logs_process_fleet | apply IH]).
Qed.

Lemma logs_resolve_password (value : option string) (label : string) :
  logs_issues (_resolve_password W value label).
Proof. unfold _resolve_password. logs_walk fail. Qed.

Lemma logs_collect_passwords (fleets : list Fleet) :
  forall m, logs_issues (collect_passwords W fleets m).
Proof.
  induction fleets as [|f rest IH]; intros m; cbn [collect_passwords];
    logs_walk ltac:(first [apply logs_resolve_password | apply IH]).
Qed.

(** From the reset of [issues] to the end of [main]: whatever the body
    does, the gateway session is closed, the report lists what the body
    recorded, and the last line is printed. *)
Lemma report_after (body : M unit) (gw_conn : SSH) (s : state) :
  logs_issues body ->
  let y := (issues_init ;;
            _ <- try_finally body
                   (close gw_conn ;;
                    iss <- get_issues ;;
                    (match iss with
                     | _ :: _ => print (MsgDiagnostics iss)
                     | [] => ret tt
                     end) ;;
                    print MsgDone) ;;
            ret tt)%py s in
  exists tb,
    issues (state_of y) = issues_of tb /\
    trace_of y =
      tb ++ EvClose (ssh_hop gw_conn)
         :: match issues_of tb with
            | [] => []
            | _ :: _ => [EvPrint (MsgDiagnostics (issues_of tb))]
            end ++ [EvPrint MsgDone].
Proof.
  intros Hl y. subst y.
  set (s0 := mkState (now s) (n_open s) (n_connect s) (n_run s) (n_exec s) (n_probe s) []).
  specialize (Hl s0). unfold state_of, trace_of in *.
  unfold bind, issues_init, try_finally. fold s0.
  destruct (body s0) as [[rb sb] tb]. cbn [fst snd] in *.
  change (issues s0) with (@nil Issue) in Hl. cbn [app] in Hl.
  exists tb. rewrite <- Hl.
  unfold close, print, emit, get_issues, ret.
  destruct (issues sb) as [|i0 il] eqn:E; destruct rb; cbn [fst snd issues app];
    rewrite ?app_nil_r, ?E; auto.
Qed.

End LogsRun.

Lemma state_of_bind_ret {A B} (m : M A) (f : A -> M B) (s s1 : state) (a : A)
    (t1 : trace) :
  m s = (Ret a, s1, t1) -> state_of (bind m f s) = state_of (f a s1).
Proof.
  intros E. unfold bind, state_of. rewrite E. destruct (f a s1) as [[r s2] t2]. reflexivity.
Qed.

Lemma trace_of_bind_ret {A B} (m : M A) (f : A -> M B) (s s1 : state) (a : A)
    (t1 : trace) :
  m s = (Ret a, s1, t1) -> trace_of (bind m f s) = t1 ++ trace_of (f a s1).
Proof.
  intros E. unfold bind, trace_of. rewrite E. destruct (f a s1) as [[r s2] t2]. reflexivity.
Qed.

Lemma bind_raise_run {A B} (m : M A) (f : A -> M B) (s s1 : state) (e : exn) (t1 : trace) :
  m s = (Raise e, s1, t1) -> bind m f s = (Raise e, s1, t1).
Proof. intros E. unfold bind. rewrite E. reflexivity. Qed.

Lemma cred_trace_no_gateway (t : trace) (host user : string) (port : Z)
    (pk : option string) :
  Forall cred_event t -> ~ In (EvConnect Gw host user port pk None None) t.
Proof.
  intros H Hin. rewrite Forall_forall in H. specialize (H _ Hin). inversion H.
Qed.

Lemma logs_load_pkey (W : world) (path : string) : logs_issues (load_pkey W path).
Proof. unfold load_pkey. logs_walk fail. Qed.

Lemma logs_count_steps (fleets : list Fleet) : forall n, logs_issues (count_steps fleets n).
Proof.
  induction fleets as [|f rest IH]; intros n; cbn [count_steps]; logs_walk ltac:(apply IH).
Qed.

Lemma issues_of_cons (e : event) (t : trace) :
  issues_of (e :: t) = issue_of e ++ issues_of t.
Proof. reflexivity. Qed.

Lemma cred_trace_no_issue (t : trace) : Forall cred_event t -> issues_of t = [].
Proof. apply issues_of_quiet. intros e []; reflexivity. Qed.

(** A run that ends before the gateway is connected has recorded nothing
    and has no session to close. *)
Lemma report_not_due (tc l : trace) :
  Forall cred_event tc ->
  (l = [] \/ exists h u p k e m, l = [EvConnect Gw h u p k None (Some e); EvPrint m]) ->
  issues_of (tc ++ l) = [] /\ ~ gateway_connected (tc ++ l).
Proof.
  intros Hc Hl. rewrite issues_of_app, (cred_trace_no_issue tc Hc). split.
  - destruct Hl as [->|(h & u & p & k & e & m & ->)]; reflexivity.
  - intros (h0 & u0 & p0 & k0 & Hin). apply in_app_or in Hin. destruct Hin as [Hin|Hin].
    + exact (cred_trace_no_gateway _ _ _ _ _ Hc Hin).
    + destruct Hl as [->|(h & u & p & k & e & m & ->)]; [destruct Hin|].
      destruct Hin as [Hin|[Hin|[]]]; discriminate Hin.
Qed.

(** X7: the report that ends a run lists what the run recorded.  The
    [issues] list that [main] holds at the end is the list of the Issues
    appended during the run, in order.  When every fleet has a list of
    nodes: if Issues were recorded, the run ends by closing the gateway
    session, printing the diagnostics of exactly these Issues and printing
    the last line; if none was and the gateway was connected, the run ends
    by closing the gateway session and printing the last line.  An
    exception that leaves the loop over the fleets changes none of this. *)
Theorem issues_reported_at_end
    (W : world) (cfg : Settings) (args : Args) (gw : Gateway) (fleets : list Fleet) :
  let x := run_main W cfg args gw fleets in
  let t := trace_of x in
  issues (state_of x) = issues_of t /\
  (nodes_listed fleets ->
   match issues_of t with
   | [] => gateway_connected t -> exists pre, t = pre ++ [EvClose Gw; EvPrint MsgDone]
   | iss => exists pre,
              t = pre ++ [EvClose Gw; EvPrint (MsgDiagnostics iss); EvPrint MsgDone]
   end).
Proof.
  intros x t. subst t x. unfold run_main, main.
  assert (Hend : forall (s : state) (tc l : trace),
             issues s = [] -> Forall cred_event tc ->
             (l = [] \/ exists h u p k e m,
                  l = [EvConnect Gw h u p k None (Some e); EvPrint m]) ->
             issues s = issues_of (tc ++ l) /\
             (nodes_listed fleets ->
              match issues_of (tc ++ l) with
              | [] => gateway_connected (tc ++ l) ->
                      exists pre, tc ++ l = pre ++ [EvClose Gw; EvPrint MsgDone]
              | iss => exists pre,
                         tc ++ l = pre ++ [EvClose Gw; EvPrint (MsgDiagnostics iss);
                                           EvPrint MsgDone]
              end)).
  { intros s tc l Hs Hc Hl. destruct (report_not_due tc l Hc Hl) as [Hi Hg].
    rewrite Hi. split; [exact Hs|]. intros _ Hgc. destruct (Hg Hgc). }
  (* the password loop *)
  pose proof (collect_passwords_spec W fleets [] initial_state) as [Hc1 _].
  pose proof (logs_collect_passwords W fleets [] initial_state) as Hl1.
  unfold outcome_of, state_of, trace_of in Hc1, Hl1.
  destruct (collect_passwords W fleets [] initial_state) as [[r1 s1] t1] eqn:E1.
  cbn [fst snd] in Hc1, Hl1.
  rewrite (cred_trace_no_issue t1 Hc1) in Hl1. cbn in Hl1.
  destruct r1 as [m|e].
  2: { rewrite (bind_raise_run _ _ _ _ _ _ E1). unfold state_of, trace_of. cbn [fst snd].
       rewrite <- (app_nil_r t1). apply Hend; auto. }
  rewrite (state_of_bind_ret _ _ _ _ _ _ E1), (trace_of_bind_ret _ _ _ _ _ _ E1).
  (* the gateway's sudo password *)
  assert (E2 : exists pw tp,
             (if gw_needs_sudo_password gw
              then pw <- getpass W "[triton] のsudoパスワード: " ;; ret (Some pw)
              else ret None)%py s1 = (Ret pw, s1, tp) /\ Forall cred_event tp).
  { destruct (gw_needs_sudo_password gw); unfold bind, getpass, ret; cbn;
      do 2 eexists; split; try reflexivity; repeat constructor. }
  destruct E2 as (gpw & tp & E2 & Hcp).
  rewrite (state_of_bind_ret _ _ _ _ _ _ E2), (trace_of_bind_ret _ _ _ _ _ _ E2).
  (* the key *)
  pose proof (load_pkey_events W (pkey_path gw) s1) as Hc3.
  pose proof (logs_load_pkey W (pkey_path gw) s1) as Hl3.
  unfold outcome_of, state_of, trace_of in Hc3, Hl3.
  destruct (load_pkey W (pkey_path gw) s1) as [[r3 s3] t3] eqn:E3.
  cbn [fst snd] in Hc3, Hl3.
  rewrite (cred_trace_no_issue t3 Hc3), Hl1 in Hl3. cbn in Hl3.
  assert (Hc : Forall cred_event (t1 ++ tp ++ t3)) by (repeat (apply Forall_app; split); auto).
  destruct r3 as [pkey|e].
  2: { rewrite (bind_raise_run _ _ _ _ _ _ E3). unfold state_of, trace_of. cbn [fst snd].
       rewrite <- (app_nil_r (t1 ++ tp ++ t3)). apply Hend; auto. }
  rewrite (state_of_bind_ret _ _ _ _ _ _ E3), (trace_of_bind_ret _ _ _ _ _ _ E3).
  (* the gateway *)
  destruct (w_connect W (n_connect s3)) as [e|] eqn:Ew.
  - match goal with |- context [bind ?m0 _ s3] =>
      assert (E4 : m0 s3 =
                   (Ret None,
                    mkState (now s3) (n_open s3) (S (n_connect s3)) (n_run s3) (n_exec s3)
                      (n_probe s3) (issues s3),
                    [EvConnect Gw (gw_host gw) (gw_user gw) (gw_port gw)
                       (Some pkey) None (Some e);
                     EvPrint (MsgGatewayFatal (fst (classify_failure e None))
                                (snd (classify_failure e None)) (exc_str e))]))
    end.
    { unfold try_except, bind, connect_host, ret, print, emit. rewrite Ew.
      destruct (classify_failure e None). reflexivity. }
    rewrite (state_of_bind_ret _ _ _ _ _ _ E4), (trace_of_bind_ret _ _ _ _ _ _ E4).
    unfold ret, state_of, trace_of. cbn [fst snd issues]. rewrite app_nil_r, !app_assoc.
    rewrite <- (app_assoc t1). apply Hend; auto. right. do 6 eexists. reflexivity.
  - match goal with |- context [bind ?m0 _ s3] =>
      assert (E4 : m0 s3 =
                   (Ret (Some (mkSSH Gw)),
                    mkState (now s3) (n_open s3) (S (n_connect s3)) (n_run s3) (n_exec s3)
                      (n_probe s3) (issues s3),
                    [EvConnect Gw (gw_host gw) (gw_user gw) (gw_port gw)
                       (Some pkey) None None]))
    end.
    { unfold try_except, bind, connect_host, ret. rewrite Ew. reflexivity. }
    rewrite (state_of_bind_ret _ _ _ _ _ _ E4), (trace_of_bind_ret _ _ _ _ _ _ E4).
    (* the count of the steps *)
    match goal with |- context [bind (count_steps fleets 1) _ ?s] => set (s4 := s) end.
    pose proof (count_steps_spec fleets 1 s4) as (Ht5 & _ & Hbad).
    pose proof (logs_count_steps fleets 1 s4) as Hl5.
    unfold outcome_of, state_of, trace_of in Ht5, Hbad, Hl5.
    destruct (count_steps fleets 1 s4) as [[r5 s5] t5] eqn:E5.
    cbn [fst snd] in Ht5, Hbad, Hl5. subst t5.
    change (issues s4) with (issues s3) in Hl5. rewrite Hl3 in Hl5. cbn in Hl5.
    assert (Hw0 : issues_of (t1 ++ tp ++ t3 ++
                             [EvConnect Gw (gw_host gw) (gw_user gw) (gw_port gw)
                                (Some pkey) None None]) = []).
    { rewrite !issues_of_app, (cred_trace_no_issue t1 Hc1), (cred_trace_no_issue tp Hcp),
              (cred_trace_no_issue t3 Hc3). reflexivity. }
    destruct r5 as [total_steps|e].
    2: { rewrite (bind_raise_run _ _ _ _ _ _ E5). unfold state_of, trace_of. cbn [fst snd].
         rewrite app_nil_r, Hw0. split; [exact Hl5|]. intros Hnl.
         destruct (nodes_listed_not_missing fleets Hnl (Hbad e eq_refl)). }
    rewrite (state_of_bind_ret _ _ _ _ _ _ E5), (trace_of_bind_ret _ _ _ _ _ _ E5).
    cbn [app].
    match goal with
    | |- context [state_of (bind issues_init (fun _ => bind (try_finally ?body _) _) ?s)] =>
        pose proof (report_after body (mkSSH Gw) s
                      ltac:(apply logs_bind;
                            [apply logs_for_fleets | intros ?; apply logs_shutdown_host]))
          as Hr
    end.
    cbv zeta in Hr. destruct Hr as (tb & Hs & Ht). rewrite Hs, Ht. cbn [ssh_hop].
    match goal with |- _ = issues_of ?w /\ _ =>
      assert (Hw : issues_of w = issues_of tb)
    end.
    { destruct (issues_of tb) as [|i0 il] eqn:Eb;
        repeat (rewrite issues_of_app || rewrite issues_of_cons);
        rewrite (cred_trace_no_issue t1 Hc1), (cred_trace_no_issue tp Hcp),
                (cred_trace_no_issue t3 Hc3), Eb;
        unfold issues_of; cbn [flat_map issue_of app]; rewrite ?app_nil_r; reflexivity. }
    rewrite Hw. split; [reflexivity|]. intros _.
    destruct (issues_of tb) as [|i0 il]; [intros _|];
      exists (t1 ++ tp ++ t3
                 ++ [EvConnect Gw (gw_host gw) (gw_user gw) (gw_port gw)
                       (Some pkey) None None] ++ tb);
      rewrite <- !app_assoc; reflexivity.
Qed.

Lemma issues_reported_at_end_witness :
  let t := trace_of (run_main world_node_auth_fails default_settings live_strict gw0 [ws1]) in
  nodes_listed [ws1] /\
  exists pre,
    t = pre ++ [EvClose Gw; EvPrint (MsgDiagnostics (issues_of t)); EvPrint MsgDone].
Proof.
  intros t.
  assert (Hl : nodes_listed [ws1]) by (intros f [<-|[]]; discriminate).
  split; [exact Hl|].
  pose proof (proj2 (issues_reported_at_end world_node_auth_fails default_settings
                       live_strict gw0 [ws1]) Hl) as H.
  fold t in H. destruct (issues_of t) as [|i0 il] eqn:E; [vm_compute in E; discriminate E|].
  exact H.
Defined.

(** ** Runs without the protective skip *)

Lemma fleet_reached_app_l (dry : bool) (i : nat) (f : Fleet) (t t' : trace) :
  fleet_reached dry i f t -> fleet_reached dry i f (t ++ t').
Proof.
  unfold fleet_reached, fleet_connect_failed, fleet_shut_down.
  intros [(iss & H & Hs)|[H1 H2]]; [left; exists iss | right]; repeat split;
    try apply in_or_app; auto.
Qed.

Lemma fleet_reached_app_r (dry : bool) (i : nat) (f : Fleet) (t t' : trace) :
  fleet_reached dry i f t' -> fleet_reached dry i f (t ++ t').
Proof.
  unfold fleet_reached, fleet_connect_failed, fleet_shut_down.
  intros [(iss & H & Hs)|[H1 H2]]; [left; exists iss | right]; repeat split;
    try apply in_or_app; auto.
Qed.

(** What comes before the gateway's [shutdown_host] in a run: credentials,
    the gateway's connection, and the loop over the fleets, which
    returned. *)
Lemma main_shape_before_gateway (dry : bool) (fleets : list Fleet)
    (P : res unit -> trace -> Prop)
    (r : res unit) (t pre post : trace) (tag : string) (d : bool) :
  (forall r t, P r t -> Forall (fleets_event dry 0) t) ->
  main_shape dry fleets P r t ->
  t = pre ++ EvShutdownHost Gw tag d :: post ->
  exists tc host user port pk tf,
    pre = tc ++ EvConnect Gw host user port pk None None :: tf /\
    P (Ret tt) tf.
Proof.
  intros HP Hshape Et.
  assert (Hno : forall l, Forall (fun e => is_gateway_shutdown e = false) l -> t <> l).
  { intros l Hl E. rewrite Et in E. symmetry in E.
    exact (no_split is_gateway_shutdown l pre post (EvShutdownHost Gw tag d) Hl eq_refl E). }
  inversion Hshape as [tc e Hc Hr0 Ht
                      | tc host user port pk e Hc Hr0 Ht
                      | tc host user port pk e Hc Hm Hr0 Ht
                      | tc host user port pk tf e tr Hc Hf Hr Hr0 Ht
                      | tc host user port pk tf tg r' tr Hc Hf Hg _ Hr Hr0 Ht].
  - exfalso.
    exact (Hno _ (Forall_weaken _ _ _ cred_event_not_gateway_shutdown Hc) eq_refl).
  - exfalso. refine (Hno _ _ (eq_sym Ht)).
    apply Forall_app; split; [|repeat constructor].
    eapply Forall_weaken; [exact cred_event_not_gateway_shutdown | exact Hc].
  - exfalso. refine (Hno _ _ (eq_sym Ht)).
    apply Forall_app; split; [|repeat constructor].
    eapply Forall_weaken; [exact cred_event_not_gateway_shutdown | exact Hc].
  - exfalso. refine (Hno _ _ (eq_sym Ht)).
    apply Forall_app; split;
      [eapply Forall_weaken; [exact cred_event_not_gateway_shutdown | exact Hc]|].
    constructor; [reflexivity|]. apply Forall_app; split.
    + eapply Forall_weaken; [apply fleets_event_not_gateway_shutdown | exact (HP _ _ Hf)].
    + constructor; [reflexivity|].
      eapply Forall_weaken; [exact report_event_not_gateway_shutdown | exact Hr].
  - rewrite Et in Ht. symmetry in Ht.
    rewrite (app_cons_assoc tc), app_assoc in Ht.
    apply (split_unique is_gateway_shutdown) in Ht; try reflexivity.
    + destruct Ht as (-> & _ & ->).
      exists tc, host, user, port, pk, tf. split; [|exact Hf].
      rewrite <- !app_assoc. reflexivity.
    + repeat (apply Forall_app; split); try (repeat constructor; fail).
      * eapply Forall_weaken; [exact cred_event_not_gateway_shutdown | exact Hc].
      * eapply Forall_weaken; [apply fleets_event_not_gateway_shutdown | exact (HP _ _ Hf)].
    + apply Forall_app; split.
      * eapply Forall_weaken; [apply poweroff_event_not_gateway_shutdown | exact Hg].
      * constructor; [reflexivity|].
        eapply Forall_weaken; [exact report_event_not_gateway_shutdown | exact Hr].
Qed.

Section Permissive.

Variable W : world.
Variable cfg : Settings.
Variable args : Args.
Hypothesis permissive : dry_run args = true \/ non_strict args = true.

Lemma process_node_keeps (f : Fleet) (i : nat) (ws : SSH) (pw : string) (j : nat)
    (node : string) (parent_skip : bool) :
  sat (process_node W cfg args f i ws pw j node parent_skip)
      (fun r _ => forall ps', r = Ret ps' -> ps' = parent_skip).
Proof.
  unfold process_node.
  assert (Hb : negb (dry_run args) && negb (non_strict args) = false)
    by (destruct permissive as [-> | ->]; [reflexivity | apply andb_false_r]).
  rewrite Hb.
  sat_walk ltac:(first [sat_use diagnose_events | sat_use shutdown_host_events]).
  all: intros ps' Hr; try discriminate Hr; injection Hr as <-; cbn [snd]; try reflexivity.
  all: exfalso; destruct permissive as [Hp|Hp]; rewrite Hp in *;
       cbn [negb andb] in *; rewrite ?andb_false_r in *; discriminate.
Qed.

Lemma for_nodes_keeps (f : Fleet) (i : nat) (ws : SSH) (pw : string) (nodes : list string) :
  forall (j : nat) (parent_skip : bool),
    sat (for_nodes W cfg args f i ws pw j nodes parent_skip)
        (fun r _ => forall ps', r = Ret ps' -> ps' = parent_skip).
Proof.
  induction nodes as [|node rest IH]; intros j parent_skip; cbn [for_nodes].
  - sat_walk no_sub. intros ps' [= <-]. reflexivity.
  - sat_walk ltac:(first [sat_use process_node_keeps | sat_use IH]);
      intros ps' Hr; try discriminate Hr.
    match goal with
    | H1 : forall p, Ret ?a = Ret p -> p = parent_skip,
      H2 : forall p, Ret ?b = Ret p -> p = ?a |- _ =>
        rewrite (H2 _ Hr); exact (H1 _ eq_refl)
    end.
Qed.

Lemma process_fleet_reached (gw_conn : SSH) (fleet_pw_map : list (string * string))
    (i : nat) (f : Fleet) :
  sat (process_fleet W cfg args gw_conn fleet_pw_map i f)
      (fun r t => r = Ret tt -> fleet_reached (dry_run args) i f t).
Proof.
  unfold process_fleet.
  destruct (dict_get (name f) fleet_pw_map) as [pw|];
    [|apply sat_raise; intros H; discriminate H].
  destruct (nodes f) as [l|] eqn:En.
  all: sat_walk ltac:(first [sat_use diagnose_events | sat_use shutdown_host_shape
                            | sat_use for_nodes_keeps]);
    cbn [ssh_hop ch_dest ch_via] in *;
    repeat match goal with
      | H : exists _, _ |- _ => destruct H
      | H : _ /\ _ |- _ => destruct H
      end; subst;
    intros Hr; try discriminate Hr;
    unfold fleet_reached, fleet_connect_failed, fleet_shut_down.
  all: try match goal with
         | H : forall p, Ret true = Ret p -> p = false |- _ =>
             discriminate (H true eq_refl)
         end.
  all: first
         [ solve [left; eexists; split; [in_trace | reflexivity]]
         | solve [right; split; in_trace] ].
Qed.

Lemma for_fleets_reached (gw_conn : SSH) (fleet_pw_map : list (string * string))
    (fleets : list Fleet) :
  forall i,
    sat (for_fleets W cfg args gw_conn fleet_pw_map i fleets)
        (fun r t => r = Ret tt ->
                    forall k f, nth_error fleets k = Some f ->
                                fleet_reached (dry_run args) (i + k) f t).
Proof.
  induction fleets as [|f rest IH]; intros i; cbn [for_fleets].
  - sat_walk no_sub. intros _ [|k] g H; discriminate H.
  - sat_walk ltac:(first [sat_use process_fleet_reached | sat_use IH]);
      repeat match goal with u : unit |- _ => destruct u end.
    + intros Hr [|k] g Hk; cbn in Hk.
      * injection Hk as <-. rewrite Nat.add_0_r.
        apply fleet_reached_app_l. auto.
      * apply fleet_reached_app_r.
        replace (i + S k)%nat with (S i + k)%nat by lia. auto.
    + intros Hr; discriminate Hr.
    + intros Hr; discriminate Hr.
Qed.

Lemma for_fleets_all_reached (fleets : list Fleet) (gw_conn : SSH)
    (fleet_pw_map : list (string * string)) :
  ssh_hop gw_conn = Gw -> passwords_known fleet_pw_map fleets -> nodes_listed fleets ->
  sat (for_fleets W cfg args gw_conn fleet_pw_map 0 fleets) (fleets_reached args fleets).
Proof.
  intros Hgw Hpw Hnl. apply sat_and.
  - eapply sat_conseq; [apply for_fleets_events; assumption | intros r t [H _]; exact H].
  - apply (for_fleets_reached gw_conn fleet_pw_map fleets 0).
Qed.

End Permissive.

(** X8: in a dry run or with --non-strict there is no protective skip.
    Whenever such a run comes to the gateway's [shutdown_host], every fleet
    of the plan either failed to connect, which was recorded, or had
    [shutdown_host] called for its host and its session closed, whatever
    happened to its nodes. *)
Theorem permissive_run_reaches_every_fleet_host
    (W : world) (cfg : Settings) (args : Args) (gw : Gateway) (fleets : list Fleet)
    (pre post : trace) (tag : string) (d : bool) (k : nat) (f : Fleet) :
  dry_run args = true \/ non_strict args = true ->
  trace_of (run_main W cfg args gw fleets) = pre ++ EvShutdownHost Gw tag d :: post ->
  nth_error fleets k = Some f ->
  fleet_connect_failed k pre \/ fleet_shut_down k f (dry_run args) pre.
Proof.
  intros Hp Ht Hk.
  pose proof (main_sat W cfg args gw fleets (fleets_reached args fleets)
                (for_fleets_all_reached W cfg args Hp fleets) initial_state) as Hshape.
  destruct (main_shape_before_gateway _ _ _ _ _ pre post tag d
              (fun r t H => proj1 H) Hshape Ht)
    as (tc & host & user & port & pk & tf & -> & _ & Hf).
  change (fleet_reached (dry_run args) k f
            (tc ++ [EvConnect Gw host user port pk None None] ++ tf)).
  apply fleet_reached_app_r, fleet_reached_app_r. exact (Hf eq_refl k f Hk).
Qed.

Lemma permissive_run_reaches_every_fleet_host_witness :
  let t := trace_of (run_main world_node_auth_fails default_settings live_non_strict
                       gw0 [ws1]) in
  (dry_run live_non_strict = true \/ non_strict live_non_strict = true) /\
  t = firstn 17 t ++ EvShutdownHost Gw "triton" false :: skipn 18 t /\
  nth_error [ws1] 0 = Some ws1 /\
  (fleet_connect_failed 0 (firstn 17 t) \/ fleet_shut_down 0 ws1 false (firstn 17 t)).
Proof.
  cbv zeta. split; [right; reflexivity|]. split; [vm_compute; reflexivity|].
  split; [reflexivity|].
  apply (permissive_run_reaches_every_fleet_host world_node_auth_fails default_settings
           live_non_strict gw0 [ws1] _ (skipn 18 (trace_of (run_main world_node_auth_fails
             default_settings live_non_strict gw0 [ws1]))) "triton" false 0 ws1).
  - right; reflexivity.
  - vm_compute; reflexivity.
  - reflexivity.
Defined.
